(** * Graphology: node/edge store and structure index

    A shallow embedding of the reference implementation of the graph
    (the [Graph] class) and of the structure-index functions of
    [src/indices.js], over a small model of the JavaScript heap.

    Conventions of the model.
    - Node and edge keys are strings.  An object used as a dictionary and an
      ES2015 [Map] are both finite maps over string keys; properties inherited
      from [Object.prototype] are not part of the model.
    - Objects live in a heap and are designated by locations; two values are
      the same object exactly when they are the same location.
    - A thrown exception leaves every mutation made before the [throw] in
      place, as in JavaScript: an operation returns an outcome together with
      the world it leaves behind.
    - Counters are JavaScript numbers restricted to the integers, plus [NaN]. *)

From stdpp Require Import base strings gmap list fin_maps.
From Stdlib Require Import ZArith.

Open Scope Z_scope.

(** ** Values *)

Definition loc := positive.

(** A JavaScript number as the counters use it. *)
Inductive num :=
| Fin (z : Z)
| NaN.

#[global] Instance num_eq_dec : EqDecision num.
Proof. solve_decision. Defined.

(** [a + b] on numbers; [undefined] operands are converted to [NaN] first. *)
Definition num_add (a b : num) : num :=
  match a, b with
  | Fin x, Fin y => Fin (x + y)
  | _, _ => NaN
  end.

(** ToNumber on a counter property that may be absent. *)
Definition to_num (o : option num) : num :=
  match o with
  | Some n => n
  | None => NaN
  end.

(** [x++] and [x--] on a property: the new value of the property. *)
Definition incr (o : option num) : option num := Some (num_add (to_num o) (Fin 1)).
Definition decr (o : option num) : option num := Some (num_add (to_num o) (Fin (-1))).

Inductive jsval :=
| VUndefined
| VNull
| VBool (b : bool)
| VStr (s : string)
| VObj (l : loc).

#[global] Instance jsval_eq_dec : EqDecision jsval.
Proof. solve_decision. Defined.

(** ToBoolean. Every object is truthy. *)
Definition truthy (v : jsval) : bool :=
  match v with
  | VUndefined | VNull => false
  | VBool b => b
  | VStr s => negb (String.eqb s "")
  | VObj _ => true
  end.

(** ** Heap objects *)

(** An adjacency register: [{neighbor: edgeOrSet}]. *)
Abbreviation register := (gmap string jsval).

Inductive slot := Out | In | Undirected.

#[global] Instance slot_eq_dec : EqDecision slot.
Proof. solve_decision. Defined.

(** A node record.  [addNode] creates the first five groups of fields; the
    registers [out], [in] and [undirected] are the ones [src/indices.js] reads
    and writes; [undirectedOut] and [undirectedIn] are the ones the graph's
    undirected lookups read; [key] is read by [clearEdgeFromStructureIndex].
    A field that the object does not carry is [None] (or [VUndefined]). *)
Record NodeData := mkNodeData {
  n_key : jsval;
  n_attributes : jsval;
  n_selfLoops : option num;
  n_inDegree : option num;
  n_outDegree : option num;
  n_undirectedDegree : option num;
  n_out : option register;
  n_in : option register;
  n_undirected : option register;
  n_undirectedOut : option register;
  n_undirectedIn : option register
}.

(** An edge record [{undirected, attributes, source, target}]. *)
Record EdgeData := mkEdgeData {
  e_undirected : bool;
  e_attributes : jsval;
  e_source : jsval;
  e_target : jsval
}.

Inductive obj :=
| ONode (d : NodeData)
| OEdge (d : EdgeData)
| OSet (elems : list jsval)          (* a Set, in insertion order *)
| OPlain (props : gmap string jsval) (* a plain object: an attribute container *)
| OOther.                            (* any other object: array, instance, ... *)

Abbreviation heap := (gmap loc obj).

(** ** The graph instance *)

Inductive graph_type := directed_t | undirected_t | mixed_t.

#[global] Instance graph_type_eq_dec : EqDecision graph_type.
Proof. solve_decision. Defined.

Record Options := mkOptions {
  opt_allowSelfLoops : bool;
  opt_edgeKeyGenerator : bool -> string -> string -> jsval -> string;
  opt_map : bool;
  opt_multi : bool;
  opt_type : graph_type
}.

(** The private properties of a [Graph].  [_nodes] and [_edges] are a [Map]
    when [opt_map] holds and a plain object otherwise; [computed] is the flag
    of each entry of [_indices] (the [synchronized] flags are never used). *)
Record graph := mkGraph {
  _order : Z;
  _size : Z;
  _nodes : gmap string loc;
  _edges : gmap string loc;
  structure_computed : bool;
  neighbors_computed : bool;
  _options : Options
}.

Record World := mkWorld {
  objects : heap;
  this : graph
}.

(** ** Outcomes and the state-and-exception monad *)

Inductive error :=
| InvalidArgumentsGraphError
| NotFoundGraphError
| UsageGraphError
| TypeError.                (* the runtime's own error *)

#[global] Instance error_eq_dec : EqDecision error.
Proof. solve_decision. Defined.

Inductive outcome (A : Type) :=
| Return (a : A)
| Throw (e : error).
Arguments Return {A} a.
Arguments Throw {A} e.

Definition M (A : Type) : Type := World -> outcome A * World.

#[global] Instance M_ret : MRet M := fun A a w => (Return a, w).
#[global] Instance M_bind : MBind M := fun A B f m w =>
  match m w with
  | (Return a, w') => f a w'
  | (Throw e, w') => (Throw e, w')
  end.

Definition throw {A} (e : error) : M A := fun w => (Throw e, w).
Definition gets {A} (f : World -> A) : M A := fun w => (Return (f w), w).
Definition modify (f : World -> World) : M unit := fun w => (Return tt, f w).
Definition when (b : bool) (m : M unit) : M unit := if b then m else mret tt.

(** A loop over a snapshot of keys. *)
Fixpoint for_each {A} (l : list A) (body : A -> M unit) : M unit :=
  match l with
  | [] => mret tt
  | x :: l' => body x ;; for_each l' body
  end.

Definition set_objects (h : heap) (w : World) : World := mkWorld h (this w).
Definition set_this (g : graph) (w : World) : World := mkWorld (objects w) g.

(** Creating an object: a location the heap does not use yet. *)
Definition alloc (o : obj) : M jsval := fun w =>
  let l := fresh (dom (objects w)) in
  (Return (VObj l), set_objects (<[l := o]> (objects w)) w).

Definition store (l : loc) (o : obj) : M unit :=
  modify (fun w => set_objects (<[l := o]> (objects w)) w).

Definition node_at (h : heap) (v : jsval) : option NodeData :=
  match v with
  | VObj l => match h !! l with Some (ONode d) => Some d | _ => None end
  | _ => None
  end.

Definition edge_at (h : heap) (v : jsval) : option EdgeData :=
  match v with
  | VObj l => match h !! l with Some (OEdge d) => Some d | _ => None end
  | _ => None
  end.

Definition set_at (h : heap) (v : jsval) : option (list jsval) :=
  match v with
  | VObj l => match h !! l with Some (OSet s) => Some s | _ => None end
  | _ => None
  end.

(** ToPropertyKey, for a value used as the key of a register. *)
Definition to_key (h : heap) (v : jsval) : string :=
  match v with
  | VUndefined => "undefined"
  | VNull => "null"
  | VBool true => "true"
  | VBool false => "false"
  | VStr s => s
  | VObj l => match h !! l with Some (OSet _) => "[object Set]" | _ => "[object Object]" end
  end.

(** ** Property access on node records *)

Definition node_slot (s : slot) (d : NodeData) : option register :=
  match s with
  | Out => n_out d
  | In => n_in d
  | Undirected => n_undirected d
  end.

Definition set_node_slot (s : slot) (r : register) (d : NodeData) : NodeData :=
  match s with
  | Out => mkNodeData (n_key d) (n_attributes d) (n_selfLoops d) (n_inDegree d)
             (n_outDegree d) (n_undirectedDegree d) (Some r) (n_in d)
             (n_undirected d) (n_undirectedOut d) (n_undirectedIn d)
  | In => mkNodeData (n_key d) (n_attributes d) (n_selfLoops d) (n_inDegree d)
             (n_outDegree d) (n_undirectedDegree d) (n_out d) (Some r)
             (n_undirected d) (n_undirectedOut d) (n_undirectedIn d)
  | Undirected => mkNodeData (n_key d) (n_attributes d) (n_selfLoops d) (n_inDegree d)
             (n_outDegree d) (n_undirectedDegree d) (n_out d) (n_in d)
             (Some r) (n_undirectedOut d) (n_undirectedIn d)
  end.

(** [data[slot]]: reading a property of [undefined] or [null] throws; a
    primitive, and an object that is not a node record, has no such property. *)
Definition read_slot (data : jsval) (s : slot) : M (option register) := fun w =>
  match data with
  | VUndefined | VNull => (Throw TypeError, w)
  | _ => (Return (node_at (objects w) data ≫= node_slot s), w)
  end.

(** [data[slot][k]] *)
Definition read_entry (data : jsval) (s : slot) (k : jsval) : M jsval :=
  r ← read_slot data s;
  match r with
  | None => throw TypeError
  | Some m => h ← gets objects; mret (default VUndefined (m !! to_key h k))
  end.

(** [k in data[slot]] *)
Definition has_entry (data : jsval) (s : slot) (k : jsval) : M bool :=
  r ← read_slot data s;
  match r with
  | None => throw TypeError
  | Some m => h ← gets objects; mret (bool_decide (is_Some (m !! to_key h k)))
  end.

(** Replacing the register [data[slot]] of the node record [data]. *)
Definition put_slot (data : jsval) (s : slot) (r : register) : M unit :=
  match data with
  | VObj l =>
      h ← gets objects;
      match h !! l with
      | Some (ONode d) => store l (ONode (set_node_slot s r d))
      | _ => mret tt
      end
  | _ => mret tt
  end.

(** [data[slot][k] = v] *)
Definition write_entry (data : jsval) (s : slot) (k : jsval) (v : jsval) : M unit :=
  r ← read_slot data s;
  match r with
  | None => throw TypeError
  | Some m => h ← gets objects; put_slot data s (<[to_key h k := v]> m)
  end.

(** [delete data[slot][k]] *)
Definition delete_entry (data : jsval) (s : slot) (k : jsval) : M unit :=
  r ← read_slot data s;
  match r with
  | None => throw TypeError
  | Some m => h ← gets objects; put_slot data s (delete (to_key h k) m)
  end.

(** ** Sets *)

Definition new_Set : M jsval := alloc (OSet []).

(** [s.add(x)]: [s] must be a Set, any other value has no [add] method. *)
Definition Set_add (s x : jsval) : M unit :=
  h ← gets objects;
  match s, set_at h s with
  | VObj l, Some elems =>
      store l (OSet (if bool_decide (x ∈ elems) then elems else elems ++ [x]))
  | _, _ => throw TypeError
  end.

(** [s.delete(x)] *)
Definition Set_delete (s x : jsval) : M unit :=
  h ← gets objects;
  match s, set_at h s with
  | VObj l, Some elems => store l (OSet (filter (fun y => y ≠ x) elems))
  | _, _ => throw TypeError
  end.

(** [v.size]: the number of elements of a Set; [None] is [undefined]. *)
Definition read_size (v : jsval) : M (option nat) := fun w =>
  match v with
  | VUndefined | VNull => (Throw TypeError, w)
  | _ => (Return (length <$> set_at (objects w) v), w)
  end.

(** * src/indices.js

    The functions take the graph as first argument; the model has one graph,
    [this], and the functions read it from the world.  The other parameters
    are JavaScript values, so that a call is modelled with whatever the call
    site passes. *)

Module Indices.

(** [updateStructureIndex(graph, undirected, edgeData, source, target,
    sourceData, targetData)] *)
Definition updateStructureIndex
    (undirected edgeData source target sourceData targetData : jsval) : M unit :=
  multi ← gets (fun w => opt_multi (_options (this w)));
  let outKey := if truthy undirected then Undirected else Out in
  let inKey := if truthy undirected then Undirected else In in
  (* Handling source *)
  found ← read_entry sourceData outKey target;
  edgeOrSet ←
    (if decide (found = VUndefined) then
       fresh_entry ← (if multi : bool then new_Set else mret edgeData);
       write_entry sourceData outKey target fresh_entry;;
       mret fresh_entry
     else mret found);
  when multi (Set_add edgeOrSet edgeData);;
  (* If selfLoop, we break here *)
  if decide (source = target) then mret tt
  else
    (* Handling target *)
    mirrored ← read_entry targetData inKey source;
    when (bool_decide (mirrored = VUndefined))
         (write_entry targetData inKey source edgeOrSet).

(** [x.key] for the value [x] held by an edge record's [source] or [target]. *)
Definition read_key (x : jsval) : M jsval := fun w =>
  match x with
  | VUndefined | VNull => (Throw TypeError, w)
  | _ => (Return (from_option n_key VUndefined (node_at (objects w) x)), w)
  end.

(** [const {source, target} = edgeData] *)
Definition read_extremities (edgeData : jsval) : M (jsval * jsval) := fun w =>
  match edgeData with
  | VUndefined | VNull => (Throw TypeError, w)
  | _ =>
      match edge_at (objects w) edgeData with
      | Some d => (Return (e_source d, e_target d), w)
      | None => (Return (VUndefined, VUndefined), w)
      end
  end.

(** [clearEdgeFromStructureIndex(graph, undirected, edgeData)] *)
Definition clearEdgeFromStructureIndex (undirected edgeData : jsval) : M unit :=
  multi ← gets (fun w => opt_multi (_options (this w)));
  '(sourceData, targetData) ← read_extremities edgeData;
  source ← read_key sourceData;
  target ← read_key targetData;
  let outKey := if truthy undirected then Undirected else Out in
  let inKey := if truthy undirected then Undirected else In in
  present ← has_entry sourceData outKey target;
  when present
    (if multi : bool then
       set ← read_entry sourceData outKey target;
       size ← read_size set;
       if decide (size = Some 1%nat) then
         delete_entry sourceData outKey target;;
         delete_entry targetData inKey source
       else Set_delete set edgeData
     else delete_entry sourceData outKey target);;
  if multi : bool then mret tt
  else delete_entry targetData inKey source.

(** The body of the [forEach] of [clearStructureIndex]. *)
Definition clear_node (data : jsval) : M unit :=
  i ← read_slot data In;
  when (bool_decide (is_Some i)) (put_slot data In ∅;; put_slot data Out ∅);;
  u ← read_slot data Undirected;
  when (bool_decide (is_Some u)) (put_slot data Undirected ∅).

(** [graph._nodes.forEach]: only a [Map] has the method. *)
Definition nodes_forEach (order : list (string * loc)) (body : jsval -> string -> M unit) : M unit :=
  is_map ← gets (fun w => opt_map (_options (this w)));
  if is_map : bool then for_each order (fun '(node, l) => body (VObj l) node)
  else throw TypeError.

(** [clearStructureIndex(graph)] *)
Definition clearStructureIndex : M unit :=
  nodes ← gets (fun w => _nodes (this w));
  nodes_forEach (map_to_list nodes) (fun data _ => clear_node data).

(** [graph._nodes.get(neighbor)] *)
Definition nodes_get (neighbor : string) : M jsval :=
  gets (fun w => from_option VObj VUndefined (_nodes (this w) !! neighbor)).

(** One iteration of the loop over [data.out] in
    [upgradeStructureIndexToMulti]. *)
Definition upgrade_out (data : jsval) (node neighbor : string) : M unit :=
  edges ← new_Set;
  entry ← read_entry data Out (VStr neighbor);
  Set_add edges entry;;
  write_entry data Out (VStr neighbor) edges;;
  other ← nodes_get neighbor;
  write_entry other In (VStr node) edges.

(** One iteration of the loop over [data.undirected]; [neighbor > node]
    compares two strings. *)
Definition upgrade_undirected (data : jsval) (node neighbor : string) : M unit :=
  if String.ltb node neighbor then mret tt
  else
    edges ← new_Set;
    entry ← read_entry data Undirected (VStr neighbor);
    Set_add edges entry;;
    write_entry data Undirected (VStr neighbor) edges;;
    other ← nodes_get neighbor;
    write_entry other Undirected (VStr node) edges.

(** The body of the [forEach]; [keys] lists the properties of a register in
    the order [for ... in] visits them. *)
Definition upgrade_node (keys : register -> list string) (data : jsval) (node : string) : M unit :=
  o ← read_slot data Out;
  match o with
  | Some r => for_each (keys r) (upgrade_out data node)
  | None => mret tt
  end;;
  u ← read_slot data Undirected;
  match u with
  | Some r => for_each (keys r) (upgrade_undirected data node)
  | None => mret tt
  end.

(** [upgradeStructureIndexToMulti(graph)], for a given order of enumeration of
    the node table and of the registers. *)
Definition upgrade_in_order (keys : register -> list string) (order : list (string * loc)) : M unit :=
  nodes_forEach order (upgrade_node keys).

Definition upgradeStructureIndexToMulti : M unit :=
  nodes ← gets (fun w => _nodes (this w));
  upgrade_in_order (fun r => (map_to_list r).*1) (map_to_list nodes).

End Indices.

(** * The Graph class *)

(** Modelled from the spec: [isPlainObject] and [assign] are helpers of the
    utils module, which is not under src/.  The spec treats attributes as "an
    opaque associative value (string-or-symbol-keyed, shallow)" and makes
    [addNode] fail "if attrs is supplied but is not an attribute container":
    [isPlainObject] holds of plain objects only, and [assign(target, source)]
    copies the own properties of [source] into [target] and returns [target]
    ([undefined], [null], booleans and the empty string have none). *)
Definition isPlainObject (v : jsval) : M bool := fun w =>
  match v with
  | VObj l => (Return (match objects w !! l with Some (OPlain _) => true | _ => false end), w)
  | _ => (Return false, w)
  end.

Definition own_props (h : heap) (v : jsval) : gmap string jsval :=
  match v with
  | VObj l => match h !! l with Some (OPlain m) => m | _ => ∅ end
  | _ => ∅
  end.

Definition assign (target source : jsval) : M jsval :=
  h ← gets objects;
  match target with
  | VObj l => store l (OPlain (own_props h source ∪ own_props h target));; mret target
  | _ => throw TypeError
  end.

(** Modelled from the spec: [INDICES] is imported from the indices module but
    the file under src/ does not export it; an "unknown index name" is an
    InvalidArgument, and the names known to the instance are those of
    [_indices]. *)
Definition INDICES (name : string) : bool :=
  bool_decide (name = "structure") || bool_decide (name = "neighbors").

Module Graph.

(** Property readers *)
Definition map : M bool := gets (fun w => opt_map (_options (this w))).
Definition multi : M bool := gets (fun w => opt_multi (_options (this w))).
Definition type : M graph_type := gets (fun w => opt_type (_options (this w))).
Definition allowSelfLoops : M bool := gets (fun w => opt_allowSelfLoops (_options (this w))).

Definition modify_this (f : graph -> graph) : M unit :=
  modify (fun w => set_this (f (this w)) w).

Definition set_order (n : Z) (g : graph) : graph :=
  mkGraph n (_size g) (_nodes g) (_edges g) (structure_computed g) (neighbors_computed g) (_options g).
Definition set_size (n : Z) (g : graph) : graph :=
  mkGraph (_order g) n (_nodes g) (_edges g) (structure_computed g) (neighbors_computed g) (_options g).
Definition set_nodes (m : gmap string loc) (g : graph) : graph :=
  mkGraph (_order g) (_size g) m (_edges g) (structure_computed g) (neighbors_computed g) (_options g).
Definition set_edges (m : gmap string loc) (g : graph) : graph :=
  mkGraph (_order g) (_size g) (_nodes g) m (structure_computed g) (neighbors_computed g) (_options g).
Definition set_structure_computed (b : bool) (g : graph) : graph :=
  mkGraph (_order g) (_size g) (_nodes g) (_edges g) b (neighbors_computed g) (_options g).
Definition set_neighbors_computed (b : bool) (g : graph) : graph :=
  mkGraph (_order g) (_size g) (_nodes g) (_edges g) (structure_computed g) b (_options g).

(** [new Graph(undefined, options)], in a heap [h] of already existing
    objects. *)
Definition constructor (options : Options) (h : heap) : World :=
  mkWorld h (mkGraph 0 0 ∅ ∅ false false options).

(** [this.map ? this._nodes.get(k) : this._nodes[k]] (and likewise for edges):
    the stored object, or [undefined]. *)
Definition nodes_lookup (k : string) : M jsval :=
  gets (fun w => from_option VObj VUndefined (_nodes (this w) !! k)).
Definition edges_lookup (k : string) : M jsval :=
  gets (fun w => from_option VObj VUndefined (_edges (this w) !! k)).

(** [hasNode(node)]: [this._nodes.has(node)] on a Map, [node in this._nodes]
    on an object. *)
Definition hasNode (node : string) : M bool :=
  gets (fun w => bool_decide (is_Some (_nodes (this w) !! node))).

(** ** Index-related methods *)

(** [_updateIndex(name, edge, data)]: the call is
    [updateStructureIndex(this, edge, data)], which binds the callee's
    [undirected] to the edge key and [edgeData] to the record, and leaves
    [source], [target], [sourceData] and [targetData] undefined. *)
Definition _updateIndex (name edge : string) (data : jsval) : M unit :=
  if negb (INDICES name) then throw InvalidArgumentsGraphError
  else if decide (name = "structure") then
    computed ← gets (fun w => structure_computed (this w));
    if negb computed then mret tt
    else
      Indices.updateStructureIndex (VStr edge) data
        VUndefined VUndefined VUndefined VUndefined
  else mret tt.

(** [computeIndex(name)] *)
Definition computeIndex (name : string) : M unit :=
  if negb (INDICES name) then throw InvalidArgumentsGraphError
  else if decide (name = "structure") then
    computed ← gets (fun w => structure_computed (this w));
    if computed : bool then mret tt
    else
      modify_this (set_structure_computed true);;
      edges ← gets (fun w => _edges (this w));
      for_each (map_to_list edges) (fun '(edge, data) => _updateIndex name edge (VObj data))
  else mret tt.

(** [_clearEdgeFromIndex(name, edge, data)]: the call is
    [clearEdgeFromStructureIndex(this, edge, data)]. *)
Definition _clearEdgeFromIndex (name edge : string) (data : jsval) : M unit :=
  if negb (INDICES name) then throw InvalidArgumentsGraphError
  else if decide (name = "structure") then
    computed ← gets (fun w => structure_computed (this w));
    if negb computed then mret tt
    else Indices.clearEdgeFromStructureIndex (VStr edge) data
  else mret tt.

(** [clearIndex(name)] *)
Definition clearIndex (name : string) : M unit :=
  if negb (INDICES name) then throw InvalidArgumentsGraphError
  else if decide (name = "structure") then
    computed ← gets (fun w => structure_computed (this w));
    if negb computed then mret tt
    else
      Indices.clearStructureIndex;;
      modify_this (set_structure_computed false)
  else mret tt.

(** ** Read *)

(** [x.undirected] on the value stored in the edge table. *)
Definition read_undirected (data : jsval) : M jsval := fun w =>
  match data with
  | VUndefined | VNull => (Throw TypeError, w)
  | _ => (Return (from_option (fun d => VBool (e_undirected d)) VUndefined
                    (edge_at (objects w) data)), w)
  end.

(** [register.get(target)] on a Map, [register[target]] on an object.  The
    registers are plain objects, which have no [get] method. *)
Definition register_lookup (r : register) (target : string) : M jsval :=
  is_map ← map;
  if is_map : bool then throw TypeError
  else mret (default VUndefined (r !! target)).

(** [!!edges.size] *)
Definition has_size (edges : jsval) : M bool :=
  size ← read_size edges;
  mret (match size with Some (S _) => true | _ => false end).

(** [data.out], [data.undirectedOut], [data.undirectedIn] on a node record. *)
Definition read_register (data : jsval) (field : NodeData -> option register)
    : M (option register) := fun w =>
  match data with
  | VUndefined | VNull => (Throw TypeError, w)
  | _ => (Return (node_at (objects w) data ≫= field), w)
  end.

(** [hasEdge], by arity. The one-argument form is shared by [hasEdge],
    [undirected] and [directed]. *)
Definition hasEdge1 (edge : string) : M bool :=
  gets (fun w => bool_decide (is_Some (_edges (this w) !! edge))).

(** [undirected(edge)] *)
Definition undirected (edge : string) : M jsval :=
  found ← hasEdge1 edge;
  if negb found then throw NotFoundGraphError
  else data ← edges_lookup edge; read_undirected data.

(** [directed(edge)] *)
Definition directed (edge : string) : M bool :=
  found ← hasEdge1 edge;
  if negb found then throw NotFoundGraphError
  else u ← undirected edge; mret (negb (truthy u)).

(** [hasDirectedEdge(...arguments)] *)
Definition hasDirectedEdge (arguments : list string) : M bool :=
  match arguments with
  | [edge] =>
      (* this.map ? this._edges.has(edge) : edge in this._edges && this.directed(edge) *)
      is_map ← map;
      if is_map : bool then hasEdge1 edge
      else
        found ← hasEdge1 edge;
        if found : bool then directed edge else mret false
  | [source; target] =>
      computeIndex "structure";;
      s ← hasNode source;
      t ← hasNode target;
      if negb s || negb t then mret false
      else
        nodeData ← nodes_lookup source;
        register ← read_register nodeData n_out;
        match register with
        | None => mret false
        | Some r =>
            edges ← register_lookup r target;
            if negb (truthy edges) then mret false
            else has_size edges
        end
  | _ => throw InvalidArgumentsGraphError
  end.

(** [hasUndirectedEdge(...arguments)] *)
Definition hasUndirectedEdge (arguments : list string) : M bool :=
  match arguments with
  | [edge] =>
      is_map ← map;
      if is_map : bool then hasEdge1 edge
      else
        found ← hasEdge1 edge;
        if found : bool then u ← undirected edge; mret (truthy u) else mret false
  | [source; target] =>
      computeIndex "structure";;
      s ← hasNode source;
      t ← hasNode target;
      if negb s || negb t then mret false
      else
        nodeData ← nodes_lookup source;
        register ← read_register nodeData n_undirectedOut;
        edges ← match register with
                | Some r => register_lookup r target
                | None => mret VUndefined
                end;
        register ← read_register nodeData n_undirectedIn;
        edges ← match register with
                | Some r => if negb (truthy edges) then register_lookup r target else mret edges
                | None => mret edges
                end;
        if negb (truthy edges) then mret false
        else has_size edges
  | _ => throw InvalidArgumentsGraphError
  end.

(** [hasEdge(...arguments)] *)
Definition hasEdge (arguments : list string) : M bool :=
  match arguments with
  | [edge] => hasEdge1 edge
  | [source; target] =>
      d ← hasDirectedEdge [source; target];
      if d : bool then mret true else hasUndirectedEdge [source; target]
  | _ => throw InvalidArgumentsGraphError
  end.

(** [x.source] and [x.target] on the value stored in the edge table. *)
Definition read_extremity (data : jsval) (field : EdgeData -> jsval) : M jsval := fun w =>
  match data with
  | VUndefined | VNull => (Throw TypeError, w)
  | _ => (Return (from_option field VUndefined (edge_at (objects w) data)), w)
  end.

(** [source(edge)] *)
Definition source (edge : string) : M jsval :=
  found ← hasEdge [edge];
  if negb found then throw NotFoundGraphError
  else data ← edges_lookup edge; read_extremity data e_source.

(** [target(edge)] *)
Definition target (edge : string) : M jsval :=
  found ← hasEdge [edge];
  if negb found then throw NotFoundGraphError
  else data ← edges_lookup edge; read_extremity data e_target.

(** [extremities(edge)]; the array of two elements is a pair. *)
Definition extremities (edge : string) : M (jsval * jsval) :=
  found ← hasEdge [edge];
  if negb found then throw NotFoundGraphError
  else
    s ← source edge;
    t ← target edge;
    mret (s, t).

(** [relatedNode(node, edge)] *)
Definition relatedNode (node edge : string) : M jsval :=
  has_node ← hasNode node;
  if negb has_node then throw NotFoundGraphError
  else
    has_edge ← hasEdge [edge];
    if negb has_edge then throw NotFoundGraphError
    else
      '(node1, node2) ← extremities edge;
      mret (if decide (VStr node = node1) then node2 else node1).

(** [data.counter] on the value stored in the node table. *)
Definition read_counter (data : jsval) (field : NodeData -> option num) : M num := fun w =>
  match data with
  | VUndefined | VNull => (Throw TypeError, w)
  | _ => (Return (to_num (node_at (objects w) data ≫= field)), w)
  end.

(** The second parameter of the degree methods: [selfLoops = true]. *)
Definition default_true (selfLoops : option jsval) : jsval :=
  match selfLoops with
  | None | Some VUndefined => VBool true
  | Some v => v
  end.

Definition is_boolean (v : jsval) : bool :=
  match v with VBool _ => true | _ => false end.

(** [(selfLoops ? data.selfLoops : 0)] *)
Definition loops_term (selfLoops data : jsval) : M num :=
  if truthy selfLoops then read_counter data n_selfLoops else mret (Fin 0).

(** [inDegree(node, selfLoops = true)] *)
Definition inDegree (node : string) (selfLoops : option jsval) : M num :=
  let selfLoops := default_true selfLoops in
  if negb (is_boolean selfLoops) then throw InvalidArgumentsGraphError
  else
    found ← hasNode node;
    if negb found then throw NotFoundGraphError
    else
      data ← nodes_lookup node;
      i ← read_counter data n_inDegree;
      l ← loops_term selfLoops data;
      mret (num_add i l).

(** [outDegree(node, selfLoops = true)] *)
Definition outDegree (node : string) (selfLoops : option jsval) : M num :=
  let selfLoops := default_true selfLoops in
  if negb (is_boolean selfLoops) then throw InvalidArgumentsGraphError
  else
    found ← hasNode node;
    if negb found then throw NotFoundGraphError
    else
      data ← nodes_lookup node;
      o ← read_counter data n_outDegree;
      l ← loops_term selfLoops data;
      mret (num_add o l).

(** [directedDegree(node, selfLoops = true)] *)
Definition directedDegree (node : string) (selfLoops : option jsval) : M num :=
  let selfLoops := default_true selfLoops in
  if negb (is_boolean selfLoops) then throw InvalidArgumentsGraphError
  else
    found ← hasNode node;
    if negb found then throw NotFoundGraphError
    else
      data ← nodes_lookup node;
      o ← read_counter data n_outDegree;
      i ← read_counter data n_inDegree;
      l ← loops_term selfLoops data;
      mret (num_add (num_add o i) l).

(** [undirectedDegree(node, selfLoops = true)] *)
Definition undirectedDegree (node : string) (selfLoops : option jsval) : M num :=
  let selfLoops := default_true selfLoops in
  if negb (is_boolean selfLoops) then throw InvalidArgumentsGraphError
  else
    found ← hasNode node;
    if negb found then throw NotFoundGraphError
    else
      data ← nodes_lookup node;
      u ← read_counter data n_undirectedDegree;
      l ← loops_term selfLoops data;
      mret (num_add u l).

(** [degree(node, selfLoops = true)] *)
Definition degree (node : string) (selfLoops : option jsval) : M num :=
  let selfLoops := default_true selfLoops in
  if negb (is_boolean selfLoops) then throw InvalidArgumentsGraphError
  else
    found ← hasNode node;
    if negb found then throw NotFoundGraphError
    else
      data ← nodes_lookup node;
      o ← read_counter data n_outDegree;
      i ← read_counter data n_inDegree;
      u ← read_counter data n_undirectedDegree;
      l ← loops_term selfLoops data;
      mret (num_add (num_add (num_add o i) u) l).

(** ** Mutation *)

(** [assign({}, attributes)] *)
Definition protect (attributes : jsval) : M jsval :=
  target ← alloc (OPlain ∅);
  assign target attributes.

(** [addNode(node, attributes)]; [attributes] is [None] when the call has one
    argument. *)
Definition addNode (node : string) (attributes : option jsval) : M string :=
  plain ← isPlainObject (default VUndefined attributes);
  if bool_decide (is_Some attributes) && negb plain then throw InvalidArgumentsGraphError
  else
    found ← hasNode node;
    if found : bool then throw UsageGraphError
    else
      (* Protecting the attributes *)
      attributes ← protect (default VUndefined attributes);
      ty ← type;
      let directed_fields := bool_decide (ty = mixed_t) || bool_decide (ty = directed_t) in
      let undirected_fields := bool_decide (ty = mixed_t) || bool_decide (ty = undirected_t) in
      data ← alloc (ONode {|
        n_key := VUndefined;
        n_attributes := attributes;
        n_selfLoops := Some (Fin 0);
        n_inDegree := if directed_fields then Some (Fin 0) else None;
        n_outDegree := if directed_fields then Some (Fin 0) else None;
        n_undirectedDegree := if undirected_fields then Some (Fin 0) else None;
        n_out := None; n_in := None; n_undirected := None;
        n_undirectedOut := None; n_undirectedIn := None |});
      (* Adding the node to internal register *)
      match data with
      | VObj l => modify_this (fun g => set_nodes (<[node := l]> (_nodes g)) g)
      | _ => mret tt
      end;;
      (* Incrementing order *)
      modify_this (fun g => set_order (_order g + 1) g);;
      mret node.

(** [data.counter++] and [data.counter--] on the value stored in the node
    table. *)
Definition update_node (data : jsval) (f : NodeData -> NodeData) : M unit := fun w =>
  match data with
  | VUndefined | VNull => (Throw TypeError, w)
  | VObj l =>
      match objects w !! l with
      | Some (ONode d) => (Return tt, set_objects (<[l := ONode (f d)]> (objects w)) w)
      | _ => (Return tt, w)
      end
  | _ => (Return tt, w)
  end.

Definition set_selfLoops (f : option num -> option num) (d : NodeData) : NodeData :=
  mkNodeData (n_key d) (n_attributes d) (f (n_selfLoops d)) (n_inDegree d)
    (n_outDegree d) (n_undirectedDegree d) (n_out d) (n_in d) (n_undirected d)
    (n_undirectedOut d) (n_undirectedIn d).
Definition set_inDegree (f : option num -> option num) (d : NodeData) : NodeData :=
  mkNodeData (n_key d) (n_attributes d) (n_selfLoops d) (f (n_inDegree d))
    (n_outDegree d) (n_undirectedDegree d) (n_out d) (n_in d) (n_undirected d)
    (n_undirectedOut d) (n_undirectedIn d).
Definition set_outDegree (f : option num -> option num) (d : NodeData) : NodeData :=
  mkNodeData (n_key d) (n_attributes d) (n_selfLoops d) (n_inDegree d)
    (f (n_outDegree d)) (n_undirectedDegree d) (n_out d) (n_in d) (n_undirected d)
    (n_undirectedOut d) (n_undirectedIn d).
Definition set_undirectedDegree (f : option num -> option num) (d : NodeData) : NodeData :=
  mkNodeData (n_key d) (n_attributes d) (n_selfLoops d) (n_inDegree d)
    (n_outDegree d) (f (n_undirectedDegree d)) (n_out d) (n_in d) (n_undirected d)
    (n_undirectedOut d) (n_undirectedIn d).

(** The counters touched by adding ([step := incr]) or dropping
    ([step := decr]) an edge. *)
Definition update_degrees (step : option num -> option num)
    (undirected : bool) (source target : jsval) (sourceData targetData : jsval) : M unit :=
  if decide (source = target) then update_node sourceData (set_selfLoops step)
  else if undirected then
    update_node sourceData (set_undirectedDegree step);;
    update_node targetData (set_undirectedDegree step)
  else
    update_node sourceData (set_outDegree step);;
    update_node targetData (set_inDegree step).

(** [_addEdge(name, undirected, edge, source, target, attributes)] *)
Definition _addEdge (name : string) (undirected : bool) (edge source target : string)
    (attributes : jsval) : M string :=
  ty ← type;
  if negb undirected && bool_decide (ty = undirected_t) then throw UsageGraphError
  else if undirected && bool_decide (ty = directed_t) then throw UsageGraphError
  else
    plain ← isPlainObject attributes;
    if truthy attributes && negb plain then throw InvalidArgumentsGraphError
    else
      has_source ← hasNode source;
      if negb has_source then throw NotFoundGraphError
      else
        has_target ← hasNode target;
        if negb has_target then throw NotFoundGraphError
        else
          found ← hasEdge [edge];
          if found : bool then throw UsageGraphError
          else
            loops ← allowSelfLoops;
            if negb loops && bool_decide (source = target) then throw UsageGraphError
            else
              is_multi ← multi;
              linked ← (if is_multi : bool then mret false
                        else if undirected then hasUndirectedEdge [source; target]
                        else hasDirectedEdge [source; target]);
              if linked : bool then throw UsageGraphError
              else
                (* Protecting the attributes *)
                attributes ← protect attributes;
                (* Storing some data *)
                data ← alloc (OEdge {|
                  e_undirected := undirected;
                  e_attributes := attributes;
                  e_source := VStr source;
                  e_target := VStr target |});
                match data with
                | VObj l => modify_this (fun g => set_edges (<[edge := l]> (_edges g)) g)
                | _ => mret tt
                end;;
                (* Incrementing size *)
                modify_this (fun g => set_size (_size g + 1) g);;
                (* Incrementing node counters *)
                sourceData ← nodes_lookup source;
                targetData ← nodes_lookup target;
                update_degrees incr undirected (VStr source) (VStr target) sourceData targetData;;
                (* Updating relevant indexes *)
                _updateIndex "structure" edge data;;
                mret edge.

Definition addEdgeWithKey (edge source target : string) (attributes : jsval) : M string :=
  ty ← type;
  _addEdge "addEdgeWithKey" (bool_decide (ty = undirected_t)) edge source target attributes.

Definition addDirectedEdgeWithKey (edge source target : string) (attributes : jsval) : M string :=
  _addEdge "addDirectedEdgeWithKey" false edge source target attributes.

Definition addUndirectedEdgeWithKey (edge source target : string) (attributes : jsval) : M string :=
  _addEdge "addUndirectedEdgeWithKey" true edge source target attributes.

Definition edgeKeyGenerator : M (bool -> string -> string -> jsval -> string) :=
  gets (fun w => opt_edgeKeyGenerator (_options (this w))).

Definition addEdge (source target : string) (attributes : jsval) : M string :=
  generate ← edgeKeyGenerator;
  ty ← type;
  let edge := generate (bool_decide (ty = undirected_t)) source target attributes in
  _addEdge "addEdge" (bool_decide (ty = undirected_t)) edge source target attributes.

Definition addDirectedEdge (source target : string) (attributes : jsval) : M string :=
  generate ← edgeKeyGenerator;
  (* Generating an id *)
  let edge := generate false source target attributes in
  _addEdge "addDirectedEdge" false edge source target attributes.

Definition addUndirectedEdge (source target : string) (attributes : jsval) : M string :=
  generate ← edgeKeyGenerator;
  (* Generating an id *)
  let edge := generate false source target attributes in
  _addEdge "addUndirectedEdge" true edge source target attributes.

(** [const {source, target, undirected} = data] on the value stored in the
    edge table. *)
Definition read_edge (data : jsval) : M (jsval * jsval * jsval) := fun w =>
  match data with
  | VUndefined | VNull => (Throw TypeError, w)
  | _ =>
      match edge_at (objects w) data with
      | Some d => (Return (e_source d, e_target d, VBool (e_undirected d)), w)
      | None => (Return (VUndefined, VUndefined, VUndefined), w)
      end
  end.

(** [this._nodes[source]] for a value read from an edge record. *)
Definition nodes_lookup_val (k : jsval) : M jsval :=
  h ← gets objects; nodes_lookup (to_key h k).

(** [dropEdge(edge)] *)
Definition dropEdge (edge : string) : M unit :=
  found ← hasEdge [edge];
  if negb found then throw NotFoundGraphError
  else
    data ← edges_lookup edge;
    (* Dropping the edge from the register *)
    modify_this (fun g => set_edges (delete edge (_edges g)) g);;
    (* Decrementing size *)
    modify_this (fun g => set_size (_size g - 1) g);;
    (* Updating related degrees *)
    '(source, target, undirected) ← read_edge data;
    sourceData ← nodes_lookup_val source;
    targetData ← nodes_lookup_val target;
    update_degrees decr (truthy undirected) source target sourceData targetData;;
    (* Clearing index *)
    _clearEdgeFromIndex "structure" edge data.

(** Modelled from the spec: [edges(node)] is attached to the class by the
    iteration module, which is not under src/.  For [dropNode] "every edge
    incident to the node (sourced from neighbor enumeration, an external
    collaborator over the Structure Index) must be dropped first": the keys of
    the edges whose source or target is the node, each once. *)
Definition incident (h : heap) (node : string) (entry : string * loc) : bool :=
  match edge_at h (VObj entry.2) with
  | Some d => bool_decide (e_source d = VStr node) || bool_decide (e_target d = VStr node)
  | None => false
  end.

Definition edges (node : string) : M (list string) :=
  gets (fun w => (filter (fun entry => incident (objects w) node entry = true)
                    (map_to_list (_edges (this w)))).*1).

(** [dropNode(node)] *)
Definition dropNode (node : string) : M unit :=
  found ← hasNode node;
  if negb found then throw NotFoundGraphError
  else
    (* Removing attached edges *)
    attached ← edges node;
    for_each attached dropEdge;;
    (* Dropping the node from the register *)
    modify_this (fun g => set_nodes (delete node (_nodes g)) g);;
    (* Decrementing order *)
    modify_this (fun g => set_order (_order g - 1) g).

(** [dropEdges()], called without argument.  (With a bunch the method goes
    through [isBunch] and [overBunch] of the utils module, which is not under
    src/.) *)
Definition dropEdges : M unit :=
  (* Dropping every edge from the graph *)
  modify_this (set_edges ∅);;
  modify_this (set_size 0);;
  (* Without edges, we've got no 'structure' *)
  clearIndex "structure".

(** [clear()] *)
Definition clear : M unit :=
  modify_this (set_edges ∅);;
  modify_this (set_nodes ∅);;
  modify_this (set_order 0);;
  modify_this (set_size 0);;
  modify_this (set_structure_computed false);;
  modify_this (set_neighbors_computed false).

End Graph.

(** * Sequences of operations *)

(** The mutation operations of the class, as a caller issues them. *)
Inductive operation :=
| op_addNode (node : string) (attributes : option jsval)
| op_addEdgeWithKey (edge source target : string) (attributes : jsval)
| op_addDirectedEdgeWithKey (edge source target : string) (attributes : jsval)
| op_addUndirectedEdgeWithKey (edge source target : string) (attributes : jsval)
| op_addEdge (source target : string) (attributes : jsval)
| op_addDirectedEdge (source target : string) (attributes : jsval)
| op_addUndirectedEdge (source target : string) (attributes : jsval)
| op_dropEdge (edge : string)
| op_dropNode (node : string)
| op_clear.

Definition discard {A} (m : M A) : M unit := m ≫= fun _ => mret tt.

Definition perform (op : operation) : M unit :=
  match op with
  | op_addNode node attributes => discard (Graph.addNode node attributes)
  | op_addEdgeWithKey e s t a => discard (Graph.addEdgeWithKey e s t a)
  | op_addDirectedEdgeWithKey e s t a => discard (Graph.addDirectedEdgeWithKey e s t a)
  | op_addUndirectedEdgeWithKey e s t a => discard (Graph.addUndirectedEdgeWithKey e s t a)
  | op_addEdge s t a => discard (Graph.addEdge s t a)
  | op_addDirectedEdge s t a => discard (Graph.addDirectedEdge s t a)
  | op_addUndirectedEdge s t a => discard (Graph.addUndirectedEdge s t a)
  | op_dropEdge e => Graph.dropEdge e
  | op_dropNode n => Graph.dropNode n
  | op_clear => Graph.clear
  end.

(** The world an operation leaves behind, whether it returns or throws. *)
Definition after {A} (m : M A) (w : World) : World := (m w).2.
Definition result {A} (m : M A) (w : World) : outcome A := (m w).1.

(** The worlds a caller goes through when it issues the operations in turn
    and catches what they throw. *)
Fixpoint run (ops : list operation) (w : World) : World :=
  match ops with
  | [] => w
  | op :: ops' => run ops' (after (perform op) w)
  end.

Fixpoint trace (ops : list operation) (w : World) : list World :=
  w :: match ops with
       | [] => []
       | op :: ops' => trace ops' (after (perform op) w)
       end.

(** * Concrete graphs *)

Module Scenario.

Definition generator (undirected : bool) (source target : string) (_ : jsval) : string :=
  (if undirected then "undirected:" else "directed:") +:+ source +:+ "-" +:+ target.

(** [type=directed, multi=false, allowSelfLoops=false] *)
Definition simple_directed : Options := mkOptions false generator false false directed_t.

Definition two_nodes : World :=
  run [op_addNode "a" None; op_addNode "b" None] (Graph.constructor simple_directed ∅).

Definition with_e1 : World := after (Graph.addDirectedEdgeWithKey "e1" "a" "b" VUndefined) two_nodes.
Definition with_e2 : World := after (Graph.addDirectedEdgeWithKey "e2" "a" "b" VUndefined) with_e1.
Definition with_e3 : World := after (Graph.addDirectedEdgeWithKey "e3" "a" "a" VUndefined) with_e2.
Definition dropped_a : World := after (Graph.dropNode "a") with_e3.

(** A mixed multi graph: adding an edge does not consult the index. *)
Definition mixed_multi (is_map : bool) : Options := mkOptions true generator is_map true mixed_t.

Definition linked (is_map : bool) : World :=
  run [op_addNode "a" None; op_addNode "b" None;
       op_addDirectedEdgeWithKey "d" "a" "b" VUndefined;
       op_addUndirectedEdgeWithKey "u" "a" "b" VUndefined]
      (Graph.constructor (mixed_multi is_map) ∅).

(** A directed-only and an undirected-only graph with one node. *)
Definition one_node (ty : graph_type) : World :=
  run [op_addNode "a" None] (Graph.constructor (mkOptions true generator false false ty) ∅).

(** A mixed graph on a [Map] whose two node records carry the three
    registers, with the record of an undirected edge between them; the
    registers are empty. *)
Definition indexed_node (key : string) : NodeData :=
  mkNodeData (VStr key) VUndefined (Some (Fin 0)) (Some (Fin 0)) (Some (Fin 0)) (Some (Fin 0))
    (Some ∅) (Some ∅) (Some ∅) None None.

Definition indexed (is_multi : bool) : World :=
  mkWorld
    {[ 1%positive := ONode (indexed_node "a");
       2%positive := ONode (indexed_node "b");
       3%positive := OEdge (mkEdgeData true VUndefined (VObj 1%positive) (VObj 2%positive)) ]}
    (mkGraph 2 1 {[ "a" := 1%positive; "b" := 2%positive ]} {[ "u" := 3%positive ]}
       true false (mkOptions true generator true is_multi mixed_t)).

(** A caller's attributes object. *)
Definition with_attributes : World :=
  mkWorld {[ 1%positive := OPlain {[ "weight" := VStr "2" ]} ]}
    (this (Graph.constructor simple_directed ∅)).

End Scenario.

(** * Invariants *)

(** The counters agree with the tables. *)
Definition counters_ok (w : World) : Prop :=
  _order (this w) = Z.of_nat (size (_nodes (this w))) ∧
  _size (this w) = Z.of_nat (size (_edges (this w))).

(** A computation keeps a property of the world, whether it returns or
    throws. *)
Definition keeps {A} (P : World -> Prop) (m : M A) : Prop :=
  ∀ w, P w → P (m w).2.

(** A computation that touches the heap only. *)
Definition heap_only {A} (m : M A) : Prop :=
  ∀ w, this (m w).2 = this w.

(** A property of the graph instance alone. *)
Definition of_graph (P : World -> Prop) : Prop :=
  ∀ w w', this w = this w' → P w → P w'.

(** A computation that changes nothing. *)
Definition observer {A} (m : M A) : Prop :=
  ∀ w, (m w).2 = w.

(** A computation that throws nothing but the runtime's TypeError, from the
    world [w]. *)
Definition quiet_at {A} (m : M A) (w : World) : Prop :=
  ∀ e, (m w).1 = Throw e → e = TypeError.

Definition quiet {A} (m : M A) : Prop := ∀ w, quiet_at m w.

(** No node record carries a register: the state of the records that
    [addNode] creates. *)
Definition bare_node (d : NodeData) : Prop :=
  n_out d = None ∧ n_in d = None ∧ n_undirected d = None ∧
  n_undirectedOut d = None ∧ n_undirectedIn d = None.

Definition bare (w : World) : Prop :=
  ∀ l d, objects w !! l = Some (ONode d) → bare_node d.

(** The postcondition [Q] holds of what [m] does from [w]. *)
Definition wp {A} (m : M A) (Q : outcome A -> World -> Prop) (w : World) : Prop :=
  Q (m w).1 (m w).2.

(** The tables and counters of [w] are those of [w0]. *)
Definition same_tables (w0 w : World) : Prop :=
  _order (this w) = _order (this w0) ∧ _size (this w) = _size (this w0) ∧
  _nodes (this w) = _nodes (this w0) ∧ _edges (this w) = _edges (this w0) ∧
  _options (this w) = _options (this w0).

(** The node table and [order] of [w] are those of [w0]. *)
Definition same_nodes (w0 w : World) : Prop :=
  _order (this w) = _order (this w0) ∧ _nodes (this w) = _nodes (this w0).

(** The three kinds of error of the graph. *)
Definition graph_error (e : error) : Prop := e ≠ TypeError.

(** What a failed operation promises: thrown one of the errors of the graph,
    it leaves the world [w0] it started from. *)
Definition unchanged_on_error {A} (w0 : World) (r : outcome A) (w' : World) : Prop :=
  ∀ e, r = Throw e → graph_error e → w' = w0.

(** The attributes argument of an operation that creates a record; an omitted
    argument is [undefined]. *)
Definition supplied_attributes (op : operation) : option jsval :=
  match op with
  | op_addNode _ attributes => Some (default VUndefined attributes)
  | op_addEdgeWithKey _ _ _ a | op_addDirectedEdgeWithKey _ _ _ a
  | op_addUndirectedEdgeWithKey _ _ _ a
  | op_addEdge _ _ a | op_addDirectedEdge _ _ a | op_addUndirectedEdge _ _ a => Some a
  | _ => None
  end.

(** The key under which an operation stores the edge record it creates. *)
Definition created_edge_key (op : operation) (w : World) : option string :=
  let generate := opt_edgeKeyGenerator (_options (this w)) in
  let ty := opt_type (_options (this w)) in
  match op with
  | op_addEdgeWithKey e _ _ _ | op_addDirectedEdgeWithKey e _ _ _
  | op_addUndirectedEdgeWithKey e _ _ _ => Some e
  | op_addEdge s t a => Some (generate (bool_decide (ty = undirected_t)) s t a)
  | op_addDirectedEdge s t a | op_addUndirectedEdge s t a => Some (generate false s t a)
  | _ => None
  end.

(** The attributes held by the record that [op] created in going from [w] to
    [w']: the record stored under a key that was free in [w]. *)
Definition created_attributes (op : operation) (w w' : World) : option jsval :=
  match op with
  | op_addNode node _ =>
      match _nodes (this w) !! node with
      | Some _ => None
      | None =>
          l ← _nodes (this w') !! node;
          d ← node_at (objects w') (VObj l);
          Some (n_attributes d)
      end
  | _ =>
      edge ← created_edge_key op w;
      match _edges (this w) !! edge with
      | Some _ => None
      | None =>
          l ← _edges (this w') !! edge;
          d ← edge_at (objects w') (VObj l);
          Some (e_attributes d)
      end
  end.

(** [stored] is an object that did not exist in [w], it holds in [w'] the
    properties that [argument] had in [w], and writing to an object that
    existed in [w] does not change it. *)
Definition fresh_copy (w w' : World) (argument stored : jsval) : Prop :=
  ∃ a, stored = VObj a ∧
       objects w !! a = None ∧
       objects w' !! a = Some (OPlain (own_props (objects w) argument)) ∧
       ∀ c o, is_Some (objects w !! c) → <[c := o]> (objects w') !! a = objects w' !! a.

(** The objects of [w] that are not node records are still there in [w']. *)
Definition keeps_other_objects (w w' : World) : Prop :=
  ∀ l o, objects w !! l = Some o → (∀ d, o ≠ ONode d) → objects w' !! l = Some o.

(** ** The structure index *)

(** The entry that the record of [node] holds in its register [s] under the
    key [k]. *)
Definition entry (w : World) (node : string) (s : slot) (k : string) : option jsval :=
  l ← _nodes (this w) !! node;
  d ← node_at (objects w) (VObj l);
  r ← node_slot s d;
  r !! k.

(** The registers that the node records of a graph of a given type carry:
    [out] and [in] when it admits directed edges, [undirected] when it admits
    undirected ones. *)
Definition carries (ty : graph_type) (s : slot) : bool :=
  match s with
  | Out | In => bool_decide (ty ≠ undirected_t)
  | Undirected => bool_decide (ty ≠ directed_t)
  end.

(** The node table as [src/indices.js] expects it: every key designates a
    node record that holds that key and the registers of the graph's type. *)
Definition node_table_ok (w : World) : Prop :=
  ∀ k l, _nodes (this w) !! k = Some l →
    ∃ d, node_at (objects w) (VObj l) = Some d ∧ n_key d = VStr k ∧
         ∀ s, is_Some (node_slot s d) ↔ carries (opt_type (_options (this w))) s = true.

(** Every entry is an object of the kind of the graph: a set in multi mode,
    an edge record in simple mode. *)
Definition entries_ok (w : World) : Prop :=
  ∀ a s b v, entry w a s b = Some v →
    if opt_multi (_options (this w)) then is_Some (set_at (objects w) v)
    else is_Some (edge_at (objects w) v).

(** The two sides of a pair of distinct nodes hold the very same value. *)
Definition shared (w : World) : Prop :=
  ∀ a b, a ≠ b →
    entry w a Out b = entry w b In a ∧
    entry w a Undirected b = entry w b Undirected a.

(** A self-loop has no entry on the inbound side. *)
Definition no_inbound_self (w : World) : Prop :=
  ∀ a, entry w a In a = None.

Definition index_inv (w : World) : Prop :=
  node_table_ok w ∧ entries_ok w ∧ shared w ∧ no_inbound_self w.

Definition out_slot (undirected : bool) : slot := if undirected then Undirected else Out.
Definition in_slot (undirected : bool) : slot := if undirected then Undirected else In.

(** The calls that maintain a computed index. [updateStructureIndex] is
    called for an edge record, with the keys of two nodes and the records that
    the node table holds for them; [clearEdgeFromStructureIndex] is called for
    an edge record whose [source] and [target] are records of the node
    table. *)
Inductive index_call :=
| call_update (undirected : bool) (edgeData : loc) (source target : string)
| call_clearEdge (undirected : bool) (edgeData : loc).

Definition index_perform (c : index_call) : M unit :=
  match c with
  | call_update u e s t =>
      sourceData ← Indices.nodes_get s;
      targetData ← Indices.nodes_get t;
      Indices.updateStructureIndex (VBool u) (VObj e) (VStr s) (VStr t) sourceData targetData
  | call_clearEdge u e => Indices.clearEdgeFromStructureIndex (VBool u) (VObj e)
  end.

Definition call_ok (w : World) (c : index_call) : Prop :=
  match c with
  | call_update u e s t =>
      is_Some (edge_at (objects w) (VObj e)) ∧
      is_Some (_nodes (this w) !! s) ∧ is_Some (_nodes (this w) !! t)
  | call_clearEdge u e =>
      ∃ d s t ls lt, edge_at (objects w) (VObj e) = Some d ∧
        e_source d = VObj ls ∧ e_target d = VObj lt ∧
        _nodes (this w) !! s = Some ls ∧ _nodes (this w) !! t = Some lt
  end.

(** The worlds in which the index is computed: an index without entries,
    then any sequence of such calls. *)
Inductive maintained : World -> Prop :=
| maintained_empty w :
    node_table_ok w → (∀ a s b, entry w a s b = None) → maintained w
| maintained_call w c :
    maintained w → call_ok w c → maintained (after (index_perform c) w).

(** [w'] is [w] with the entry of [a] in [s] under [k] set to [ov]. *)
Definition retargeted (w w' : World) (a : string) (s : slot) (k : string)
    (ov : option jsval) : Prop :=
  this w' = this w ∧ node_table_ok w' ∧
  (∀ a' s' k', entry w' a' s' k'
     = if decide (a' = a ∧ s' = s ∧ k' = k) then ov else entry w a' s' k') ∧
  (∀ x, set_at (objects w') x = set_at (objects w) x) ∧
  (∀ x, edge_at (objects w') x = edge_at (objects w) x).

(** [w'] has the graph and the node records of [w] and its edge records. *)
Definition same_index (w w' : World) : Prop :=
  this w' = this w ∧
  (∀ x, node_at (objects w') x = node_at (objects w) x) ∧
  (∀ x, edge_at (objects w') x = edge_at (objects w) x).

(** The kinds of the objects that entries designate are kept. *)
Definition kinds_kept (w w' : World) : Prop :=
  (∀ x, is_Some (set_at (objects w) x) → is_Some (set_at (objects w') x)) ∧
  (∀ x, is_Some (edge_at (objects w) x) → is_Some (edge_at (objects w') x)).

(** What [updateStructureIndex] does when it is called as documented on a
    well-formed index. *)
Definition installed (u : bool) (e : loc) (s t : string) (w : World)
    (r : outcome unit) (w' : World) : Prop :=
  r = Return tt ∧ index_inv w' ∧ this w' = this w ∧ kinds_kept w w' ∧
  ∃ v, entry w' s (out_slot u) t = Some v ∧
       (s ≠ t → entry w' t (in_slot u) s = Some v) ∧
       if opt_multi (_options (this w))
       then ∃ elems, set_at (objects w') v = Some elems ∧ VObj e ∈ elems
       else entry w s (out_slot u) t = None → v = VObj e.


(** ** Upgrading a simple index to a multi one *)

(** [x] is a set that did not exist in [w0] and that holds [v] alone. *)
Definition wrapped (w0 w : World) (v x : jsval) : Prop :=
  ∃ l, x = VObj l ∧ objects w0 !! l = None ∧ set_at (objects w) x = Some [v].

(** [w'] is [w] with one more object, the set [l] that holds [v] alone, and
    with that set as the entry of [a] in [s] under [b] and as the entry of [b]
    in [s'] under [a]. *)
Definition wrapped_pair (w w' : World) (a : string) (s : slot) (b : string) (s' : slot)
    (v : jsval) (l : loc) : Prop :=
  this w' = this w ∧ node_table_ok w' ∧
  dom (objects w') = {[l]} ∪ dom (objects w) ∧ objects w !! l = None ∧
  set_at (objects w') (VObj l) = Some [v] ∧
  (∀ x, x ≠ VObj l → set_at (objects w') x = set_at (objects w) x) ∧
  (∀ x, edge_at (objects w') x = edge_at (objects w) x) ∧
  (∀ a' s'' k', entry w' a' s'' k'
     = if decide ((a' = a ∧ s'' = s ∧ k' = b) ∨ (a' = b ∧ s'' = s' ∧ k' = a))
       then Some (VObj l) else entry w a' s'' k').

(** The state of the upgrade of the index of [w0]: the pairs of [dn] have had
    their directed entry replaced, the pairs of [un] their undirected one, and
    nothing else has changed. *)
Definition upgrading (w0 : World) (dn un : string → string → Prop) (w : World) : Prop :=
  this w = this w0 ∧ node_table_ok w ∧
  (∀ a b, dn a b → ∃ v x, entry w0 a Out b = Some v ∧ wrapped w0 w v x ∧
     entry w a Out b = Some x ∧ entry w b In a = Some x) ∧
  (∀ a b, ¬ dn a b → entry w a Out b = entry w0 a Out b ∧ entry w b In a = entry w0 b In a) ∧
  (∀ a b, un a b ∨ un b a → ∃ v x, entry w0 a Undirected b = Some v ∧ wrapped w0 w v x ∧
     entry w a Undirected b = Some x ∧ entry w b Undirected a = Some x) ∧
  (∀ a b, ¬ (un a b ∨ un b a) → entry w a Undirected b = entry w0 a Undirected b) ∧
  (∀ l, objects w0 !! l = None → is_Some (objects w !! l) →
     ∃ a b, (dn a b ∧ entry w a Out b = Some (VObj l)) ∨
            (un a b ∧ entry w a Undirected b = Some (VObj l))) ∧
  (∀ l, is_Some (objects w0 !! l) → is_Some (objects w !! l)) ∧
  (∀ x, edge_at (objects w) x = edge_at (objects w0) x).

(** The pairs that the upgrade has converted once it has visited the nodes of
    [P]: every directed pair from its source, an undirected pair from the node
    that is not smaller than its neighbor. *)
Definition out_done (w0 : World) (P : string → Prop) (a b : string) : Prop :=
  P a ∧ is_Some (entry w0 a Out b).
Definition und_done (w0 : World) (P : string → Prop) (a b : string) : Prop :=
  P a ∧ String.ltb a b = false ∧ is_Some (entry w0 a Undirected b).

(** What [upgradeStructureIndexToMulti] makes of the index of [w]: every entry
    is replaced by a set of its own that holds the entry alone, the same set on
    the two sides; no other object is created, and no entry. *)
Definition upgraded (w w' : World) : Prop :=
  this w' = this w ∧ node_table_ok w' ∧
  (∀ x, edge_at (objects w') x = edge_at (objects w) x) ∧
  (∀ a b, match entry w a Out b with
          | Some v => ∃ x, wrapped w w' v x ∧
                           entry w' a Out b = Some x ∧ entry w' b In a = Some x
          | None => entry w' a Out b = None ∧ entry w' b In a = None
          end) ∧
  (∀ a b, match entry w a Undirected b with
          | Some v => ∃ x, wrapped w w' v x ∧
                           entry w' a Undirected b = Some x ∧ entry w' b Undirected a = Some x
          | None => entry w' a Undirected b = None
          end) ∧
  (∀ l, objects w !! l = None → is_Some (objects w' !! l) →
     ∃ a b, entry w' a Out b = Some (VObj l) ∨ entry w' a Undirected b = Some (VObj l)).

(** ** Clearing the index *)

(** [w'] is [w] with the register [s] of the record of [a] replaced by [r]. *)
Definition register_replaced (w w' : World) (a : string) (s : slot) (r : register) : Prop :=
  this w' = this w ∧ node_table_ok w' ∧
  (∀ a' s' k', entry w' a' s' k'
     = if decide (a' = a ∧ s' = s) then r !! k' else entry w a' s' k') ∧
  (∀ x, set_at (objects w') x = set_at (objects w) x) ∧
  (∀ x, edge_at (objects w') x = edge_at (objects w) x).

(** [w'] is [w] with the registers of the nodes of [P] emptied. *)
Definition cleared (P : string → Prop) (w w' : World) : Prop :=
  this w' = this w ∧ node_table_ok w' ∧
  (∀ a s k, P a → entry w' a s k = None) ∧
  (∀ a s k, ¬ P a → entry w' a s k = entry w a s k) ∧
  (∀ x, set_at (objects w') x = set_at (objects w) x) ∧
  (∀ x, edge_at (objects w') x = edge_at (objects w) x).

(** ** The calls of the index, entry by entry *)

(** What [updateStructureIndex] does for the edge [e] on a pair whose entry
    [v] exists: no entry changes; in simple mode nothing changes at all, in
    multi mode [e] joins the set [v]. *)
Definition joined (e : loc) (v : jsval) (w w' : World) : Prop :=
  this w' = this w ∧
  (∀ a s k, entry w' a s k = entry w a s k) ∧
  (∀ x, edge_at (objects w') x = edge_at (objects w) x) ∧
  if opt_multi (_options (this w)) then
    ∃ elems, set_at (objects w) v = Some elems ∧
      set_at (objects w') v
        = Some (if bool_decide (VObj e ∈ elems) then elems else elems ++ [VObj e]) ∧
      ∀ x, x ≠ v → set_at (objects w') x = set_at (objects w) x
  else w' = w.

(** [w'] has the graph, the entries, the edge records and the sets of [w]
    (and possibly sets that [w] did not have). *)
Definition index_restored (w w' : World) : Prop :=
  this w' = this w ∧ node_table_ok w' ∧
  (∀ a s k, entry w' a s k = entry w a s k) ∧
  (∀ x, edge_at (objects w') x = edge_at (objects w) x) ∧
  (∀ x, is_Some (set_at (objects w) x) → set_at (objects w') x = set_at (objects w) x).

(** [w'] is [w] without the entry of [s] for [t] and without the entry of
    [t] for [s]. *)
Definition pair_removed (u : bool) (s t : string) (w w' : World) : Prop :=
  this w' = this w ∧ node_table_ok w' ∧
  (∀ x, edge_at (objects w') x = edge_at (objects w) x) ∧
  (∀ x, set_at (objects w') x = set_at (objects w) x) ∧
  (∀ a s' k, entry w' a s' k
     = if decide ((a = s ∧ s' = out_slot u ∧ k = t) ∨ (a = t ∧ s' = in_slot u ∧ k = s))
       then None else entry w a s' k).

(** [w'] is [w] with [v] as the entry of [s] for [t] and, when the nodes
    differ, as the entry of [t] for [s]; in multi mode [v] is a new set that
    holds [e] alone, in simple mode it is [e]. *)
Definition pair_installed (u : bool) (e : loc) (s t : string) (v : jsval)
    (w w' : World) : Prop :=
  this w' = this w ∧ node_table_ok w' ∧
  (∀ x, edge_at (objects w') x = edge_at (objects w) x) ∧
  (∀ x, is_Some (set_at (objects w) x) → set_at (objects w') x = set_at (objects w) x) ∧
  (∀ a s' k, entry w' a s' k
     = if decide ((a = s ∧ s' = out_slot u ∧ k = t) ∨
                  (s ≠ t ∧ a = t ∧ s' = in_slot u ∧ k = s))
       then Some v else entry w a s' k) ∧
  if opt_multi (_options (this w))
  then set_at (objects w) v = None ∧ set_at (objects w') v = Some [VObj e]
  else v = VObj e.

(** What [clearEdgeFromStructureIndex] does in multi mode for the edge [e] of
    the pair [(s, t)] whose entry is the set [v] of elements [elems]: a set of
    one element goes with the two entries, any other set loses [e]. *)
Definition removed_from_set (u : bool) (e : loc) (s t : string) (v : jsval)
    (elems : list jsval) (w w' : World) : Prop :=
  if decide (length elems = 1%nat) then pair_removed u s t w w'
  else
    this w' = this w ∧ node_table_ok w' ∧
    (∀ x, edge_at (objects w') x = edge_at (objects w) x) ∧
    (∀ a s' k, entry w' a s' k = entry w a s' k) ∧
    set_at (objects w') v = Some (filter (fun y => y ≠ VObj e) elems) ∧
    (∀ x, x ≠ v → set_at (objects w') x = set_at (objects w) x).

(** ** Reading the graph *)

(** The five degree methods. *)
Definition degree_queries : list (string → option jsval → M num) :=
  [Graph.inDegree; Graph.outDegree; Graph.directedDegree; Graph.undirectedDegree;
   Graph.degree].

(** The three methods that tell whether an edge exists. *)
Definition existence_queries : list (list string → M bool) :=
  [Graph.hasDirectedEdge; Graph.hasUndirectedEdge; Graph.hasEdge].

(** The record that the edge table holds for a key. *)
Definition edge_record (w : World) (edge : string) : option EdgeData :=
  l ← _edges (this w) !! edge; edge_at (objects w) (VObj l).

(** ** The records of a graph *)

(** A counter that holds a number. *)
Definition numeric (o : option num) : Prop := ∃ z, o = Some (Fin z).

(** The counters that a node record of a graph of type [ty] carries hold
    numbers. *)
Definition counters_numeric (ty : graph_type) (d : NodeData) : Prop :=
  numeric (n_selfLoops d) ∧
  (ty ≠ undirected_t → numeric (n_inDegree d) ∧ numeric (n_outDegree d)) ∧
  (ty ≠ directed_t → numeric (n_undirectedDegree d)).

(** The kinds of edges that a graph of type [ty] admits. *)
Definition admits (ty : graph_type) (undirected : bool) : Prop :=
  if undirected then ty ≠ directed_t else ty ≠ undirected_t.

(** The records of the heap are records of this graph: node records without
    registers whose counters hold numbers, edge records of an admitted kind
    whose source and target are keys. *)
Definition records_ok (w : World) : Prop :=
  (∀ l d, objects w !! l = Some (ONode d) →
     bare_node d ∧ counters_numeric (opt_type (_options (this w))) d) ∧
  (∀ l d, objects w !! l = Some (OEdge d) →
     admits (opt_type (_options (this w))) (e_undirected d) ∧
     ∃ s t, e_source d = VStr s ∧ e_target d = VStr t).

(** The tables designate records of their kind. *)
Definition tables_ok (w : World) : Prop :=
  (∀ k l, _nodes (this w) !! k = Some l → is_Some (node_at (objects w) (VObj l))) ∧
  (∀ k l, _edges (this w) !! k = Some l → is_Some (edge_at (objects w) (VObj l))).

Definition well_formed (w : World) : Prop := records_ok w ∧ tables_ok w.

(** The heap a graph is created in holds no record of a graph. *)
Definition no_record (h : heap) : Prop :=
  ∀ l, match h !! l with Some (ONode _) | Some (OEdge _) => False | _ => True end.

(** ** Adding a node *)

(** The attributes argument of [addNode] is acceptable: omitted, or a plain
    object. *)
Definition valid_attributes (w : World) (attributes : option jsval) : Prop :=
  match attributes with
  | None => True
  | Some v => ∃ l m, v = VObj l ∧ objects w !! l = Some (OPlain m)
  end.

(** [w'] is [w] with one more node: a new record under the key [node], with
    the counters of the graph's type at zero and no register; nothing that
    existed is changed. *)
Definition node_added (node : string) (w w' : World) : Prop :=
  ∃ l d,
    objects w !! l = None ∧ objects w' !! l = Some (ONode d) ∧
    this w' = Graph.set_order (_order (this w) + 1)
                (Graph.set_nodes (<[node := l]> (_nodes (this w))) (this w)) ∧
    bare_node d ∧ n_selfLoops d = Some (Fin 0) ∧
    n_inDegree d
      = (if carries (opt_type (_options (this w))) In then Some (Fin 0) else None) ∧
    n_outDegree d
      = (if carries (opt_type (_options (this w))) Out then Some (Fin 0) else None) ∧
    n_undirectedDegree d
      = (if carries (opt_type (_options (this w))) Undirected then Some (Fin 0) else None) ∧
    ∀ l' o, objects w !! l' = Some o → objects w' !! l' = Some o.

(** ** Dropping every edge *)

(** Every node record of [w] is a node record in [w'], with the same key,
    attributes and counters. *)
Definition counters_kept (w w' : World) : Prop :=
  ∀ l d, objects w !! l = Some (ONode d) →
    ∃ d', objects w' !! l = Some (ONode d') ∧
      n_key d' = n_key d ∧ n_attributes d' = n_attributes d ∧
      n_selfLoops d' = n_selfLoops d ∧ n_inDegree d' = n_inDegree d ∧
      n_outDegree d' = n_outDegree d ∧ n_undirectedDegree d' = n_undirectedDegree d.

(** ** The degree counters *)

(** The heap [h] with [f] applied to the node record at [l], if there is
    one. *)
Definition bump (f : NodeData → NodeData) (l : loc) (h : heap) : heap :=
  match h !! l with
  | Some (ONode d) => <[l := ONode (f d)]> h
  | _ => h
  end.

(** The heap after the counters of an edge from [s] (record at [ls]) to [t]
    (record at [lt]) have been stepped: the self-loop counter for a loop, the
    undirected degree of both ends for an undirected edge, the out-degree of
    the source and the in-degree of the target for a directed one. *)
Definition degrees_stepped (step : option num → option num) (u : bool)
    (s t : string) (ls lt : loc) (h : heap) : heap :=
  if decide (s = t) then bump (Graph.set_selfLoops step) ls h
  else if u then
    bump (Graph.set_undirectedDegree step) lt (bump (Graph.set_undirectedDegree step) ls h)
  else bump (Graph.set_inDegree step) lt (bump (Graph.set_outDegree step) ls h).

(** What [dropEdge] does to the tables and the counters. *)
Definition edge_dropped (edge : string) (u : bool) (s t : string) (ls lt : loc)
    (w w' : World) : Prop :=
  objects w' = degrees_stepped decr u s t ls lt (objects w) ∧
  _edges (this w') = delete edge (_edges (this w)) ∧
  _size (this w') = _size (this w) - 1 ∧
  _nodes (this w') = _nodes (this w) ∧ _order (this w') = _order (this w) ∧
  _options (this w') = _options (this w) ∧
  structure_computed (this w') = structure_computed (this w).

(** What [_addEdge] does when it stores the edge: an attributes object [a]
    and a record [l] are created, the key is added, [size] is one more and the
    counters are stepped. *)
Definition edge_added (edge : string) (u : bool) (s t : string) (attributes : jsval)
    (w w' : World) : Prop :=
  ∃ a l ls lt,
    objects w !! a = None ∧ objects w !! l = None ∧ a ≠ l ∧
    _nodes (this w) !! s = Some ls ∧ _nodes (this w) !! t = Some lt ∧
    admits (opt_type (_options (this w))) u ∧
    objects w' = degrees_stepped incr u s t ls lt
      (<[l := OEdge (mkEdgeData u (VObj a) (VStr s) (VStr t))]>
         (<[a := OPlain (own_props (objects w) attributes)]> (objects w))) ∧
    _edges (this w') = <[edge := l]> (_edges (this w)) ∧
    _size (this w') = _size (this w) + 1 ∧
    _nodes (this w') = _nodes (this w) ∧ _order (this w') = _order (this w) ∧
    _options (this w') = _options (this w).

(** [w'] has the tables and the counters of [w], and every object of [w] as
    it was. *)
Definition graph_restored (w w' : World) : Prop :=
  _nodes (this w') = _nodes (this w) ∧ _edges (this w') = _edges (this w) ∧
  _order (this w') = _order (this w) ∧ _size (this w') = _size (this w) ∧
  _options (this w') = _options (this w) ∧
  ∀ l o, objects w !! l = Some o → objects w' !! l = Some o.
(** * Reasoning about computations *)

(** Calls are kept folded during symbolic execution and are reasoned about
    through their own lemmas. *)
#[local] Arguments Graph.hasDirectedEdge : simpl never.
#[local] Arguments Graph.hasUndirectedEdge : simpl never.
#[local] Arguments Graph.hasEdge : simpl never.
#[local] Arguments Graph.computeIndex : simpl never.
#[local] Arguments Graph._updateIndex : simpl never.
#[local] Arguments Graph._clearEdgeFromIndex : simpl never.
#[local] Arguments Graph.dropEdge : simpl never.
#[local] Arguments Graph.update_degrees : simpl never.
#[local] Arguments Graph.protect : simpl never.
#[local] Arguments Indices.updateStructureIndex : simpl never.
#[local] Arguments Indices.clearEdgeFromStructureIndex : simpl never.
#[local] Arguments for_each : simpl never.

Section monad_facts.
Context {A B : Type}.
Implicit Types (m : M A) (f : A -> M B).

Lemma bind_run m f w :
  (m ≫= f) w = match m w with
                | (Return a, w') => f a w'
                | (Throw e, w') => (Throw e, w')
                end.
Proof. reflexivity. Qed.

Lemma bind_returns m f w a w' : m w = (Return a, w') → (m ≫= f) w = f a w'.
Proof. intros E. rewrite bind_run, E. reflexivity. Qed.

Lemma bind_throws m f w e w' : m w = (Throw e, w') → (m ≫= f) w = (Throw e, w').
Proof. intros E. rewrite bind_run, E. reflexivity. Qed.

Lemma keeps_bind P m f : keeps P m → (∀ a, keeps P (f a)) → keeps P (m ≫= f).
Proof.
  intros Hm Hf w Hw. rewrite bind_run.
  specialize (Hm w Hw). destruct (m w) as [[a|e] w']; simpl in *; [|done].
  by apply Hf.
Qed.

Lemma heap_only_bind m f : heap_only m → (∀ a, heap_only (f a)) → heap_only (m ≫= f).
Proof.
  intros Hm Hf w. rewrite bind_run.
  specialize (Hm w). destruct (m w) as [[a|e] w']; simpl in *; [|done].
  by rewrite Hf.
Qed.

Lemma observer_bind m f : observer m → (∀ a, observer (f a)) → observer (m ≫= f).
Proof.
  intros Hm Hf w. rewrite bind_run.
  specialize (Hm w). destruct (m w) as [[a|e] w']; simpl in *; [|done].
  subst w'. apply Hf.
Qed.

Lemma quiet_at_bind m f w :
  quiet_at m w → (∀ a w', m w = (Return a, w') → quiet_at (f a) w') →
  quiet_at (m ≫= f) w.
Proof.
  intros Hm Hf e. rewrite bind_run. specialize (Hm e).
  destruct (m w) as [[a|e'] w'] eqn:E; simpl in *.
  - by apply Hf.
  - intros [= <-]. by apply Hm.
Qed.

Lemma quiet_bind m f : quiet m → (∀ a, quiet (f a)) → quiet (m ≫= f).
Proof. intros Hm Hf w. apply quiet_at_bind; [apply Hm|]. intros. apply Hf. Qed.
End monad_facts.

Section basic_facts.
Context {A : Type}.

Lemma keeps_ret P (a : A) : keeps P (mret a).
Proof. by intros w. Qed.
Lemma keeps_throw P e : keeps P (throw (A:=A) e).
Proof. by intros w. Qed.
Lemma keeps_gets P (f : World -> A) : keeps P (gets f).
Proof. by intros w. Qed.
Lemma keeps_heap_only P (m : M A) : of_graph P → heap_only m → keeps P m.
Proof. intros HP Hm w Hw. eapply HP; [|done]. by rewrite Hm. Qed.
Lemma keeps_observer P (m : M A) : observer m → keeps P m.
Proof. intros Hm w Hw. by rewrite Hm. Qed.

Lemma heap_only_ret (a : A) : heap_only (mret a).
Proof. by intros w. Qed.
Lemma heap_only_throw e : heap_only (throw (A:=A) e).
Proof. by intros w. Qed.
Lemma heap_only_gets (f : World -> A) : heap_only (gets f).
Proof. by intros w. Qed.
Lemma heap_only_observer (m : M A) : observer m → heap_only m.
Proof. intros Hm w. by rewrite Hm. Qed.

Lemma observer_ret (a : A) : observer (mret a).
Proof. by intros w. Qed.
Lemma observer_throw e : observer (throw (A:=A) e).
Proof. by intros w. Qed.
Lemma observer_gets (f : World -> A) : observer (gets f).
Proof. by intros w. Qed.

Lemma quiet_ret (a : A) : quiet (mret a).
Proof. by intros w e. Qed.
Lemma quiet_throw_TypeError : quiet (throw (A:=A) TypeError).
Proof. intros w e. simpl. congruence. Qed.
Lemma quiet_gets (f : World -> A) : quiet (gets f).
Proof. by intros w e. Qed.
End basic_facts.

Lemma keeps_when P b m : keeps P m → keeps P (when b m).
Proof. destruct b; [done|]. intros _. apply keeps_ret. Qed.
Lemma heap_only_when b m : heap_only m → heap_only (when b m).
Proof. destruct b; [done|]. intros _. apply heap_only_ret. Qed.
Lemma quiet_when b m : quiet m → quiet (when b m).
Proof. destruct b; [done|]. intros _. apply quiet_ret. Qed.

Lemma keeps_for_each {A} P (l : list A) body :
  (∀ x, keeps P (body x)) → keeps P (for_each l body).
Proof.
  intros Hb. induction l as [|x l IH]; simpl; [apply keeps_ret|].
  apply keeps_bind; [apply Hb|]. intros _. apply IH.
Qed.
Lemma heap_only_for_each {A} (l : list A) body :
  (∀ x, heap_only (body x)) → heap_only (for_each l body).
Proof.
  intros Hb. induction l as [|x l IH]; simpl; [apply heap_only_ret|].
  apply heap_only_bind; [apply Hb|]. intros _. apply IH.
Qed.
Lemma quiet_for_each {A} (l : list A) body :
  (∀ x, quiet (body x)) → quiet (for_each l body).
Proof.
  intros Hb. induction l as [|x l IH]; simpl; [apply quiet_ret|].
  apply quiet_bind; [apply Hb|]. intros _. apply IH.
Qed.

Lemma heap_only_alloc o : heap_only (alloc o).
Proof. by intros w. Qed.
Lemma heap_only_store l o : heap_only (store l o).
Proof. by intros w. Qed.
Lemma quiet_alloc o : quiet (alloc o).
Proof. by intros w e. Qed.
Lemma quiet_store l o : quiet (store l o).
Proof. by intros w e. Qed.
Lemma quiet_modify f : quiet (modify f).
Proof. by intros w e. Qed.

Create HintDb heap_only.
Create HintDb quiet.
Create HintDb observer.

#[local] Hint Resolve heap_only_ret heap_only_throw heap_only_gets heap_only_alloc
  heap_only_store : heap_only.
#[local] Hint Resolve quiet_ret quiet_throw_TypeError quiet_gets quiet_alloc quiet_store
  quiet_modify : quiet.
#[local] Hint Resolve observer_ret observer_throw observer_gets : observer.

(** Structural steps: one rule per construct of the monadic code. *)
Ltac heap_only_step :=
  first [ solve [eauto with heap_only]
        | lazymatch goal with
          | |- heap_only (_ ≫= _) => apply heap_only_bind; [|intros ?]
          | |- heap_only (when _ _) => apply heap_only_when
          | |- heap_only (for_each _ _) => apply heap_only_for_each; intros ?
          | |- heap_only (match _ with _ => _ end) => case_match
          end ].
Ltac heap_only_auto := repeat heap_only_step.

Ltac quiet_step :=
  first [ solve [eauto with quiet]
        | lazymatch goal with
          | |- quiet (_ ≫= _) => apply quiet_bind; [|intros ?]
          | |- quiet (when _ _) => apply quiet_when
          | |- quiet (for_each _ _) => apply quiet_for_each; intros ?
          | |- quiet (match _ with _ => _ end) => case_match
          end ].
Ltac quiet_auto := repeat quiet_step.

Ltac observer_step :=
  first [ solve [eauto with observer]
        | lazymatch goal with
          | |- observer (_ ≫= _) => apply observer_bind; [|intros ?]
          | |- observer (match _ with _ => _ end) => case_match
          end ].
Ltac observer_auto := repeat observer_step.

(** A computation written as a function of the world that returns the world
    it was given. *)
Ltac by_cases_on_world :=
  intros w; repeat (simpl; case_match); simpl; try done.

Lemma observer_read_slot data s : observer (read_slot data s).
Proof. unfold read_slot. by_cases_on_world. Qed.
Lemma quiet_read_slot data s : quiet (read_slot data s).
Proof. unfold read_slot. intros w e. repeat (simpl; case_match); simpl; congruence. Qed.
Lemma observer_read_size v : observer (read_size v).
Proof. unfold read_size. by_cases_on_world. Qed.
Lemma quiet_read_size v : quiet (read_size v).
Proof. unfold read_size. intros w e. repeat (simpl; case_match); simpl; congruence. Qed.
#[local] Hint Resolve observer_read_slot observer_read_size : observer.
#[local] Hint Resolve quiet_read_slot quiet_read_size : quiet.

Lemma observer_read_entry data s k : observer (read_entry data s k).
Proof. unfold read_entry. observer_auto. Qed.
Lemma observer_has_entry data s k : observer (has_entry data s k).
Proof. unfold has_entry. observer_auto. Qed.
#[local] Hint Resolve observer_read_entry observer_has_entry : observer.

Lemma heap_only_put_slot data s r : heap_only (put_slot data s r).
Proof. unfold put_slot. heap_only_auto. Qed.
#[local] Hint Resolve heap_only_put_slot : heap_only.
#[local] Hint Resolve heap_only_observer : heap_only.

Lemma heap_only_write_entry data s k v : heap_only (write_entry data s k v).
Proof. unfold write_entry. heap_only_auto; eauto with observer heap_only. Qed.
Lemma heap_only_delete_entry data s k : heap_only (delete_entry data s k).
Proof. unfold delete_entry. heap_only_auto; eauto with observer heap_only. Qed.
Lemma heap_only_Set_add s x : heap_only (Set_add s x).
Proof. unfold Set_add. heap_only_auto. Qed.
Lemma heap_only_Set_delete s x : heap_only (Set_delete s x).
Proof. unfold Set_delete. heap_only_auto. Qed.
Lemma heap_only_new_Set : heap_only new_Set.
Proof. apply heap_only_alloc. Qed.
#[local] Hint Resolve heap_only_write_entry heap_only_delete_entry heap_only_Set_add
  heap_only_Set_delete heap_only_new_Set : heap_only.

Lemma quiet_read_entry data s k : quiet (read_entry data s k).
Proof. unfold read_entry. quiet_auto. Qed.
Lemma quiet_has_entry data s k : quiet (has_entry data s k).
Proof. unfold has_entry. quiet_auto. Qed.
Lemma quiet_put_slot data s r : quiet (put_slot data s r).
Proof. unfold put_slot. quiet_auto. Qed.
#[local] Hint Resolve quiet_read_entry quiet_has_entry quiet_put_slot : quiet.
Lemma quiet_write_entry data s k v : quiet (write_entry data s k v).
Proof. unfold write_entry. quiet_auto. Qed.
Lemma quiet_delete_entry data s k : quiet (delete_entry data s k).
Proof. unfold delete_entry. quiet_auto. Qed.
Lemma quiet_Set_add s x : quiet (Set_add s x).
Proof. unfold Set_add. quiet_auto. Qed.
Lemma quiet_Set_delete s x : quiet (Set_delete s x).
Proof. unfold Set_delete. quiet_auto. Qed.
Lemma quiet_new_Set : quiet new_Set.
Proof. apply quiet_alloc. Qed.
#[local] Hint Resolve quiet_write_entry quiet_delete_entry quiet_Set_add quiet_Set_delete
  quiet_new_Set : quiet.

(** The index functions touch the heap only and throw nothing but TypeError. *)
Lemma heap_only_updateStructureIndex u e s t sd td :
  heap_only (Indices.updateStructureIndex u e s t sd td).
Proof. unfold Indices.updateStructureIndex. heap_only_auto; eauto with observer heap_only. Qed.

Lemma quiet_updateStructureIndex u e s t sd td :
  quiet (Indices.updateStructureIndex u e s t sd td).
Proof. unfold Indices.updateStructureIndex. quiet_auto. Qed.

Lemma observer_read_key x : observer (Indices.read_key x).
Proof. unfold Indices.read_key. by_cases_on_world. Qed.
Lemma quiet_read_key x : quiet (Indices.read_key x).
Proof. unfold Indices.read_key. intros w e. repeat (simpl; case_match); simpl; congruence. Qed.
Lemma observer_read_extremities x : observer (Indices.read_extremities x).
Proof. unfold Indices.read_extremities. by_cases_on_world. Qed.
Lemma quiet_read_extremities x : quiet (Indices.read_extremities x).
Proof.
  unfold Indices.read_extremities. intros w e.
  repeat (simpl; case_match); simpl; congruence.
Qed.
#[local] Hint Resolve observer_read_key observer_read_extremities : observer.
#[local] Hint Resolve quiet_read_key quiet_read_extremities : quiet.

Lemma heap_only_clearEdgeFromStructureIndex u e :
  heap_only (Indices.clearEdgeFromStructureIndex u e).
Proof.
  unfold Indices.clearEdgeFromStructureIndex.
  heap_only_auto; eauto with observer heap_only.
Qed.

Lemma quiet_clearEdgeFromStructureIndex u e :
  quiet (Indices.clearEdgeFromStructureIndex u e).
Proof. unfold Indices.clearEdgeFromStructureIndex. quiet_auto. Qed.

#[local] Hint Resolve heap_only_updateStructureIndex heap_only_clearEdgeFromStructureIndex
  : heap_only.
#[local] Hint Resolve quiet_updateStructureIndex quiet_clearEdgeFromStructureIndex : quiet.

(** ** Weakest preconditions *)

Section wp_facts.
Context {A : Type}.
Implicit Types (m : M A) (Q : outcome A -> World -> Prop).

Lemma wp_bind {B} m (f : A -> M B) (Q : outcome B -> World -> Prop) w :
  wp m (fun r w' => match r with
                    | Return a => wp (f a) Q w'
                    | Throw e => Q (Throw e) w'
                    end) w →
  wp (m ≫= f) Q w.
Proof. unfold wp. rewrite bind_run. by destruct (m w) as [[a|e] w']. Qed.

Lemma wp_mono m Q Q' w : wp m Q' w → (∀ r w', Q' r w' → Q r w') → wp m Q w.
Proof. unfold wp. eauto. Qed.

Lemma wp_ret (a : A) Q w : Q (Return a) w → wp (mret a) Q w.
Proof. done. Qed.
Lemma wp_throw e Q w : Q (Throw e) w → wp (throw e) Q w.
Proof. done. Qed.
Lemma wp_gets (f : World -> A) Q w : Q (Return (f w)) w → wp (gets f) Q w.
Proof. done. Qed.

Lemma wp_keeps P m w : keeps P m → P w → wp m (fun _ => P) w.
Proof. unfold wp. eauto. Qed.
Lemma wp_heap_only m w : heap_only m → wp m (fun _ w' => this w' = this w) w.
Proof. unfold wp. eauto. Qed.
Lemma wp_observer m w : observer m → wp m (fun _ w' => w' = w) w.
Proof. unfold wp. eauto. Qed.
Lemma wp_run m Q w : wp m Q w → Q (m w).1 (m w).2.
Proof. done. Qed.
End wp_facts.

Lemma wp_modify f (Q : outcome unit -> World -> Prop) w :
  Q (Return tt) (f w) → wp (modify f) Q w.
Proof. done. Qed.
Lemma wp_modify_this f (Q : outcome unit -> World -> Prop) w :
  Q (Return tt) (set_this (f (this w)) w) → wp (Graph.modify_this f) Q w.
Proof. done. Qed.
Lemma wp_alloc o (Q : outcome jsval -> World -> Prop) w :
  (∀ l, objects w !! l = None → Q (Return (VObj l)) (set_objects (<[l := o]> (objects w)) w)) →
  wp (alloc o) Q w.
Proof.
  intros H. apply H. apply not_elem_of_dom, is_fresh.
Qed.
Lemma wp_store l o (Q : outcome unit -> World -> Prop) w :
  Q (Return tt) (set_objects (<[l := o]> (objects w)) w) → wp (store l o) Q w.
Proof. done. Qed.
Lemma wp_when b m (Q : outcome unit -> World -> Prop) w :
  (b = true → wp m Q w) → (b = false → Q (Return tt) w) → wp (when b m) Q w.
Proof. destruct b; simpl; intros H1 H2; [by apply H1|by apply H2]. Qed.

(** One step of symbolic execution. *)
Ltac wp_prim :=
  first [ apply wp_ret | apply wp_throw | apply wp_gets | apply wp_modify_this
        | apply wp_modify | apply wp_store
        | apply wp_alloc; intros ? ? ].
Ltac wp_step :=
  lazymatch goal with
  | |- wp (_ ≫= _) _ _ => apply wp_bind; wp_prim; simpl
  | |- wp _ _ _ => wp_prim; simpl
  end.

(** A call, through a lemma on the callee. *)
Tactic Notation "wp_call" tactic3(lemma) :=
  lazymatch goal with
  | |- wp (_ ≫= _) _ _ => apply wp_bind; eapply wp_mono; [lemma|]
  | |- wp _ _ _ => eapply wp_mono; [lemma|]
  end.

Ltac wp_steps := repeat wp_step.

(** The test of a conditional. *)
Ltac wp_if H :=
  lazymatch goal with
  | |- wp (if ?c then _ else _) _ _ => destruct c eqn:H
  end.

(** ** The tables and the counters *)

Lemma same_tables_refl w : same_tables w w.
Proof. by repeat split. Qed.

Lemma same_tables_of_graph w0 : of_graph (same_tables w0).
Proof. intros w w' E. unfold same_tables. by rewrite E. Qed.

Lemma same_tables_this w0 w : this w = this w0 → same_tables w0 w.
Proof. intros E. unfold same_tables. by rewrite E. Qed.

Lemma same_tables_trans w0 w1 w2 : same_tables w0 w1 → same_tables w1 w2 → same_tables w0 w2.
Proof. unfold same_tables. intros (?&?&?&?&?) (?&?&?&?&?). repeat split; congruence. Qed.

Lemma same_tables_counters w0 w : same_tables w0 w → counters_ok w0 → counters_ok w.
Proof. unfold same_tables, counters_ok. intros (->&->&->&->&_). done. Qed.

Lemma keeps_same_tables_heap_only {A} w0 (m : M A) : heap_only m → keeps (same_tables w0) m.
Proof. apply keeps_heap_only, same_tables_of_graph. Qed.

Lemma heap_only__updateIndex name edge data : heap_only (Graph._updateIndex name edge data).
Proof. unfold Graph._updateIndex. heap_only_auto. Qed.
Lemma heap_only__clearEdgeFromIndex name edge data :
  heap_only (Graph._clearEdgeFromIndex name edge data).
Proof. unfold Graph._clearEdgeFromIndex. heap_only_auto. Qed.
#[local] Hint Resolve heap_only__updateIndex heap_only__clearEdgeFromIndex : heap_only.

Lemma keeps_set_structure_computed w0 b :
  keeps (same_tables w0) (Graph.modify_this (Graph.set_structure_computed b)).
Proof. by intros w. Qed.

Ltac keeps_tables_step :=
  first [ solve [apply keeps_same_tables_heap_only; eauto with heap_only observer]
        | apply keeps_set_structure_computed
        | apply keeps_ret | apply keeps_throw | apply keeps_gets
        | lazymatch goal with
          | |- keeps _ (_ ≫= _) => apply keeps_bind; [|intros ?]
          | |- keeps _ (when _ _) => apply keeps_when
          | |- keeps _ (for_each _ _) => apply keeps_for_each; intros ?
          | |- keeps _ (match _ with _ => _ end) => case_match
          end ].
Ltac keeps_tables := repeat keeps_tables_step.

Lemma keeps_tables_computeIndex w0 name : keeps (same_tables w0) (Graph.computeIndex name).
Proof. unfold Graph.computeIndex. keeps_tables. Qed.

Lemma observer_read_register data field : observer (Graph.read_register data field).
Proof. unfold Graph.read_register. by_cases_on_world. Qed.
Lemma observer_read_undirected data : observer (Graph.read_undirected data).
Proof. unfold Graph.read_undirected. by_cases_on_world. Qed.
Lemma observer_read_counter data field : observer (Graph.read_counter data field).
Proof. unfold Graph.read_counter. by_cases_on_world. Qed.
Lemma observer_read_edge data : observer (Graph.read_edge data).
Proof. unfold Graph.read_edge. by_cases_on_world. Qed.
Lemma observer_isPlainObject v : observer (isPlainObject v).
Proof. unfold isPlainObject. by_cases_on_world. Qed.
#[local] Hint Resolve observer_read_register observer_read_undirected observer_read_counter
  observer_read_edge observer_isPlainObject : observer.

Lemma observer_register_lookup r target : observer (Graph.register_lookup r target).
Proof. unfold Graph.register_lookup, Graph.map. observer_auto. Qed.
Lemma observer_has_size v : observer (Graph.has_size v).
Proof. unfold Graph.has_size. observer_auto. Qed.
#[local] Hint Resolve observer_register_lookup observer_has_size : observer.

Lemma keeps_tables_hasDirectedEdge w0 args : keeps (same_tables w0) (Graph.hasDirectedEdge args).
Proof.
  unfold Graph.hasDirectedEdge, Graph.directed, Graph.undirected, Graph.hasEdge1,
    Graph.hasNode, Graph.nodes_lookup, Graph.edges_lookup, Graph.map.
  keeps_tables; apply keeps_tables_computeIndex.
Qed.

Lemma keeps_tables_hasUndirectedEdge w0 args :
  keeps (same_tables w0) (Graph.hasUndirectedEdge args).
Proof.
  unfold Graph.hasUndirectedEdge, Graph.undirected, Graph.hasEdge1,
    Graph.hasNode, Graph.nodes_lookup, Graph.edges_lookup, Graph.map.
  keeps_tables; apply keeps_tables_computeIndex.
Qed.

Lemma heap_only_update_node data f : heap_only (Graph.update_node data f).
Proof. unfold Graph.update_node. intros w. repeat (simpl; case_match); done. Qed.
#[local] Hint Resolve heap_only_update_node : heap_only.
Lemma heap_only_update_degrees step u s t sd td :
  heap_only (Graph.update_degrees step u s t sd td).
Proof. unfold Graph.update_degrees. heap_only_auto. Qed.
Lemma heap_only_assign target source : heap_only (assign target source).
Proof. unfold assign. heap_only_auto. Qed.
#[local] Hint Resolve heap_only_update_degrees heap_only_assign : heap_only.
Lemma heap_only_protect a : heap_only (Graph.protect a).
Proof. unfold Graph.protect. heap_only_auto. Qed.
#[local] Hint Resolve heap_only_protect : heap_only.
(** * Properties *)

(** ** The concrete scenario *)

(** C2 (the code departs from it). On the graph built with [type=directed],
    [multi=false], [allowSelfLoops=false] and the nodes a and b: adding e1
    stores the edge but the call ends in a TypeError raised by the index
    update; adding e2 between the same nodes is not refused with a Usage error,
    the edge is stored as well; adding the self-loop e3 is refused with a Usage
    error; and [dropNode('a')] stops in the first [dropEdge], so that the graph
    is left with two nodes and one edge instead of [order=1], [size=0]. *)
Theorem scenario_directed_simple :
  _order (this Scenario.two_nodes) = 2 ∧
  result (Graph.addDirectedEdgeWithKey "e1" "a" "b" VUndefined) Scenario.two_nodes
    = Throw TypeError ∧
  is_Some (_edges (this Scenario.with_e1) !! "e1") ∧
  result (Graph.addDirectedEdgeWithKey "e2" "a" "b" VUndefined) Scenario.with_e1
    = Throw TypeError ∧
  is_Some (_edges (this Scenario.with_e2) !! "e2") ∧
  result (Graph.addDirectedEdgeWithKey "e3" "a" "a" VUndefined) Scenario.with_e2
    = Throw UsageGraphError ∧
  result (Graph.dropNode "a") Scenario.with_e3 = Throw TypeError ∧
  _order (this Scenario.dropped_a) = 2 ∧
  _size (this Scenario.dropped_a) = 1.
Proof. vm_compute. repeat split; eauto. Qed.

(** ** Index consistency *)

(** C1 (the code departs from it). In a mixed multi graph holding a directed
    edge d and an undirected edge u between a and b, computing the structure
    index throws a TypeError: [_updateIndex] calls [updateStructureIndex] with
    three arguments, [sourceData] is undefined. The flag [computed] is set all
    the same, and from then on both pairwise existence queries return false for
    the two edges of the Edge Table: the node records carry none of the
    registers the queries read. *)
Theorem index_queries_miss_stored_edges :
  let w := Scenario.linked false in
  let w' := after (Graph.computeIndex "structure") w in
  (edge_at (objects w) (from_option VObj VUndefined (_edges (this w) !! "d"))
     = Some (mkEdgeData false (VObj 5%positive) (VStr "a") (VStr "b"))) ∧
  (edge_at (objects w) (from_option VObj VUndefined (_edges (this w) !! "u"))
     = Some (mkEdgeData true (VObj 7%positive) (VStr "a") (VStr "b"))) ∧
  result (Graph.hasDirectedEdge ["a"; "b"]) w = Throw TypeError ∧
  result (Graph.hasUndirectedEdge ["a"; "b"]) w = Throw TypeError ∧
  result (Graph.computeIndex "structure") w = Throw TypeError ∧
  structure_computed (this w') = true ∧
  _edges (this w') = _edges (this w) ∧
  Graph.hasDirectedEdge ["a"; "b"] w' = (Return false, w') ∧
  Graph.hasUndirectedEdge ["a"; "b"] w' = (Return false, w').
Proof. vm_compute. repeat split; reflexivity. Qed.

(** ** Degree queries *)

(** C5 (the code departs from it). With a boolean flag and a node of the
    graph, [degree] adds [undirectedDegree], which a node of a directed-only
    graph does not carry, and [outDegree] and [inDegree], which a node of an
    undirected-only graph does not carry: the sum is NaN, not the sum of the
    stored counters, which is 0 for a node without edges. The same holds of
    [inDegree], [outDegree] and [directedDegree] on an undirected-only graph
    and of [undirectedDegree] on a directed-only graph. On a mixed graph the
    result is 0. *)
Theorem degree_of_isolated_node :
  result (Graph.degree "a" None) (Scenario.one_node directed_t) = Return NaN ∧
  result (Graph.degree "a" (Some (VBool false))) (Scenario.one_node directed_t) = Return NaN ∧
  result (Graph.undirectedDegree "a" None) (Scenario.one_node directed_t) = Return NaN ∧
  result (Graph.degree "a" None) (Scenario.one_node undirected_t) = Return NaN ∧
  result (Graph.inDegree "a" None) (Scenario.one_node undirected_t) = Return NaN ∧
  result (Graph.outDegree "a" None) (Scenario.one_node undirected_t) = Return NaN ∧
  result (Graph.directedDegree "a" None) (Scenario.one_node undirected_t) = Return NaN ∧
  result (Graph.degree "a" None) (Scenario.one_node mixed_t) = Return (Fin 0) ∧
  result (Graph.degree "a" (Some (VStr "yes"))) (Scenario.one_node mixed_t)
    = Throw InvalidArgumentsGraphError ∧
  result (Graph.degree "z" None) (Scenario.one_node mixed_t) = Throw NotFoundGraphError.
Proof. vm_compute. repeat split; reflexivity. Qed.

(** ** Existence of an edge by key *)

(** C7 (the code departs from it). In the one-argument form the conditional
    [this.map ? this._edges.has(edge) : edge in this._edges && this.directed(edge)]
    checks the kind of the stored record only when the graph is not in map
    mode. In map mode [hasDirectedEdge] returns true for the key of the
    undirected edge u and [hasUndirectedEdge] returns true for the key of the
    directed edge d; without map mode both return false. *)
Theorem kind_not_checked_in_map_mode :
  (edge_at (objects (Scenario.linked true))
     (from_option VObj VUndefined (_edges (this (Scenario.linked true)) !! "u"))
     = Some (mkEdgeData true (VObj 7%positive) (VStr "a") (VStr "b"))) ∧
  (edge_at (objects (Scenario.linked true))
     (from_option VObj VUndefined (_edges (this (Scenario.linked true)) !! "d"))
     = Some (mkEdgeData false (VObj 5%positive) (VStr "a") (VStr "b"))) ∧
  result (Graph.hasDirectedEdge ["u"]) (Scenario.linked true) = Return true ∧
  result (Graph.hasUndirectedEdge ["d"]) (Scenario.linked true) = Return true ∧
  result (Graph.hasDirectedEdge ["u"]) (Scenario.linked false) = Return false ∧
  result (Graph.hasUndirectedEdge ["d"]) (Scenario.linked false) = Return false.
Proof. vm_compute. repeat split; reflexivity. Qed.

(** ** Generated edge keys *)

(** C9 (the code departs from it). [addUndirectedEdge] is [_addEdge] for an
    undirected edge, with the key that the generator returns when it is called
    with [false] as first argument: the generator is told that the edge is
    directed. With a generator that writes the kind it is given into the key,
    the undirected edge added between a and b gets the key "directed:a-b". *)
Theorem addUndirectedEdge_generator_argument :
  (∀ source target attributes w,
     Graph.addUndirectedEdge source target attributes w
     = Graph._addEdge "addUndirectedEdge" true
         (opt_edgeKeyGenerator (_options (this w)) false source target attributes)
         source target attributes w) ∧
  let w := Scenario.linked false in
  let w' := after (Graph.addUndirectedEdge "a" "b" VUndefined) w in
  result (Graph.addUndirectedEdge "a" "b" VUndefined) w = Return "directed:a-b" ∧
  (e_undirected <$> edge_at (objects w')
     (from_option VObj VUndefined (_edges (this w') !! "directed:a-b"))) = Some true.
Proof. split; [reflexivity|]. vm_compute. split; reflexivity. Qed.

(** ** The counters and the tables *)

Lemma counters_insert_node w node l :
  counters_ok w → _nodes (this w) !! node = None →
  counters_ok
    (set_this (Graph.set_order (_order (this w) + 1)
                 (Graph.set_nodes (<[node := l]> (_nodes (this w))) (this w))) w).
Proof.
  intros [Ho Hs] Hn. split; simpl; [|done].
  rewrite map_size_insert_None by done. lia.
Qed.

Lemma counters_insert_edge w edge l :
  counters_ok w → _edges (this w) !! edge = None →
  counters_ok
    (set_this (Graph.set_size (_size (this w) + 1)
                 (Graph.set_edges (<[edge := l]> (_edges (this w))) (this w))) w).
Proof.
  intros [Ho Hs] Hn. split; simpl; [done|].
  rewrite map_size_insert_None by done. lia.
Qed.

Lemma counters_delete_edge w edge :
  counters_ok w → is_Some (_edges (this w) !! edge) →
  counters_ok
    (set_this (Graph.set_size (_size (this w) - 1)
                 (Graph.set_edges (delete edge (_edges (this w))) (this w))) w).
Proof.
  intros [Ho Hs] [l Hl]. split; simpl; [done|].
  pose proof (map_size_delete_Some edge (_edges (this w))) as Hd.
  assert (size (_edges (this w)) ≠ 0%nat).
  { intros E. apply map_size_empty_inv in E. rewrite E in Hl. by rewrite lookup_empty in Hl. }
  rewrite Hd by eauto. lia.
Qed.

Lemma counters_delete_node w node :
  counters_ok w → is_Some (_nodes (this w) !! node) →
  counters_ok
    (set_this (Graph.set_order (_order (this w) - 1)
                 (Graph.set_nodes (delete node (_nodes (this w))) (this w))) w).
Proof.
  intros [Ho Hs] [l Hl]. split; simpl; [|done].
  pose proof (map_size_delete_Some node (_nodes (this w))) as Hd.
  assert (size (_nodes (this w)) ≠ 0%nat).
  { intros E. apply map_size_empty_inv in E. rewrite E in Hl. by rewrite lookup_empty in Hl. }
  rewrite Hd by eauto. lia.
Qed.

Lemma counters_of_graph : of_graph counters_ok.
Proof. intros w w' E. unfold counters_ok. by rewrite E. Qed.

Lemma addNode_counters node attributes :
  keeps counters_ok (Graph.addNode node attributes).
Proof.
  intros w Hw. apply wp_run with (Q := fun _ w' => counters_ok w').
  unfold Graph.addNode.
  wp_call (apply wp_observer, observer_isPlainObject).
  intros [plain|e] ? ->; [|done].
  wp_if Hp; [done|].
  unfold Graph.hasNode. wp_step. wp_if Hn; [done|].
  apply bool_decide_eq_false in Hn.
  wp_call (apply wp_heap_only, heap_only_protect).
  intros [a|e] w1 E1; [|by eapply counters_of_graph].
  unfold Graph.type. wp_steps.
  assert (counters_ok w1) as Hw1 by (by eapply counters_of_graph).
  rewrite <-E1 in Hn.
  apply (counters_insert_node w1 node l) in Hw1.
  - eapply counters_of_graph; [|exact Hw1]. done.
  - by apply eq_None_not_Some.
Qed.

Lemma _addEdge_counters name undirected edge source target attributes :
  keeps counters_ok (Graph._addEdge name undirected edge source target attributes).
Proof.
  intros w Hw. apply wp_run with (Q := fun _ w' => counters_ok w').
  unfold Graph._addEdge, Graph.type. wp_step.
  wp_if H1; [done|]. wp_if H2; [done|].
  wp_call (apply wp_observer, observer_isPlainObject).
  intros [plain|e] ? ->; [|done].
  wp_if H3; [done|].
  unfold Graph.hasNode. wp_step. wp_if H4; [done|]. wp_step. wp_if H5; [done|].
  unfold Graph.hasEdge, Graph.hasEdge1. wp_step.
  wp_if He; [done|]. apply bool_decide_eq_false in He.
  unfold Graph.allowSelfLoops. wp_step. wp_if H6; [done|].
  unfold Graph.multi. wp_step.
  wp_call (apply (wp_keeps (same_tables w)));
    [|apply same_tables_refl|].
  {
    destruct (opt_multi _); [apply keeps_ret|].
    destruct undirected;
      [apply keeps_tables_hasUndirectedEdge | apply keeps_tables_hasDirectedEdge]. }
  intros [linked|e] w1 T1; [|by eapply same_tables_counters].
  wp_if H7; [by eapply same_tables_counters|].
  wp_call (apply wp_heap_only, heap_only_protect).
  intros [a|e] w2 E2; [|eapply same_tables_counters; [|done]];
    [|eapply same_tables_trans; [done|by apply same_tables_this]].
  wp_steps.
  unfold Graph.nodes_lookup. wp_steps.
  assert (counters_ok w2) as Hw2.
  { eapply same_tables_counters; [|done].
    eapply same_tables_trans; [done|by apply same_tables_this]. }
  assert (_edges (this w2) !! edge = None) as Hfree.
  { rewrite E2. destruct T1 as (_&_&_&->&_). by apply eq_None_not_Some. }
  apply (counters_insert_edge w2 edge l) in Hw2; [|done].
  wp_call (apply wp_heap_only, heap_only_update_degrees).
  intros [[]|e] w3 E3; [|by eapply counters_of_graph; [|exact Hw2]].
  wp_call (apply wp_heap_only, heap_only__updateIndex).
  intros [[]|e] w4 E4; [wp_steps|]; (eapply counters_of_graph; [|exact Hw2]);
    simpl in *; congruence.
Qed.

Lemma dropEdge_counters edge : keeps counters_ok (Graph.dropEdge edge).
Proof.
  intros w Hw. apply wp_run with (Q := fun _ w' => counters_ok w').
  unfold Graph.dropEdge, Graph.hasEdge, Graph.hasEdge1. wp_step.
  wp_if He; [done|]. apply negb_false_iff, bool_decide_eq_true in He.
  unfold Graph.edges_lookup. wp_steps.
  apply (counters_delete_edge w edge) in Hw; [|done].
  wp_call (apply wp_observer, observer_read_edge).
  intros [[[s t] u]|e] ? ->; [|done].
  unfold Graph.nodes_lookup_val, Graph.nodes_lookup. wp_steps.
  wp_call (apply wp_heap_only, heap_only_update_degrees).
  intros [[]|e] w3 E3; [|by eapply counters_of_graph; [|exact Hw]].
  wp_call (apply wp_heap_only, heap_only__clearEdgeFromIndex).
  intros r w4 E4. eapply counters_of_graph; [|exact Hw]. simpl in *; congruence.
Qed.

Lemma dropEdge_nodes w0 edge : keeps (same_nodes w0) (Graph.dropEdge edge).
Proof.
  assert (of_graph (same_nodes w0)) as Hg.
  { intros w w' E. unfold same_nodes. by rewrite E. }
  intros w Hw. apply wp_run with (Q := fun _ w' => same_nodes w0 w').
  unfold Graph.dropEdge, Graph.hasEdge, Graph.hasEdge1. wp_step.
  wp_if He; [done|].
  unfold Graph.edges_lookup. wp_steps.
  wp_call (apply wp_observer, observer_read_edge).
  intros [[[s t] u]|e] ? ->; [|done].
  unfold Graph.nodes_lookup_val, Graph.nodes_lookup. wp_steps.
  assert (∀ w', this w' = Graph.set_size (_size (this w) - 1)
            (Graph.set_edges (delete edge (_edges (this w))) (this w)) →
          same_nodes w0 w') as Hk.
  { intros w' E. unfold same_nodes. rewrite E. exact Hw. }
  wp_call (apply wp_heap_only, heap_only_update_degrees).
  intros [[]|e] w3 E3; [|by apply Hk].
  wp_call (apply wp_heap_only, heap_only__clearEdgeFromIndex).
  intros r w4 E4. apply Hk. simpl in *; congruence.
Qed.

Lemma dropNode_counters node : keeps counters_ok (Graph.dropNode node).
Proof.
  intros w Hw. apply wp_run with (Q := fun _ w' => counters_ok w').
  unfold Graph.dropNode, Graph.hasNode. wp_step.
  wp_if Hn; [done|]. apply negb_false_iff, bool_decide_eq_true in Hn.
  unfold Graph.edges. wp_step.
  wp_call (apply (wp_keeps (fun w' => counters_ok w' ∧ same_nodes w w')));
    [|by split|].
  { apply keeps_for_each. intros e w' [? ?].
    split; [by apply dropEdge_counters|by apply dropEdge_nodes]. }
  intros [[]|e] w1 [Hw1 [Ho Hnodes]]; [|done].
  wp_steps.
  apply (counters_delete_node w1 node) in Hw1; [done|].
  by rewrite Hnodes.
Qed.

Lemma clear_counters : keeps counters_ok Graph.clear.
Proof. intros w _. split; reflexivity. Qed.

Lemma keeps_discard {A} P (m : M A) : keeps P m → keeps P (discard m).
Proof. intros Hm. apply keeps_bind; [done|]. intros _. apply keeps_ret. Qed.

Lemma perform_counters op : keeps counters_ok (perform op).
Proof.
  destruct op; simpl; try apply keeps_discard;
    first [ apply addNode_counters | apply dropEdge_counters | apply dropNode_counters
          | apply clear_counters | idtac ].
  - apply keeps_bind; [apply keeps_gets|]. intros ?. apply _addEdge_counters.
  - apply _addEdge_counters.
  - apply _addEdge_counters.
  - apply keeps_bind; [apply keeps_gets|]. intros ?.
    apply keeps_bind; [apply keeps_gets|]. intros ?. apply _addEdge_counters.
  - apply keeps_bind; [apply keeps_gets|]. intros ?. apply _addEdge_counters.
  - apply keeps_bind; [apply keeps_gets|]. intros ?. apply _addEdge_counters.
Qed.


(** ** Node records without registers *)

Lemma bare_of_heap w w' : objects w = objects w' → bare w → bare w'.
Proof. intros E Hb l d. rewrite <-E. apply Hb. Qed.

Lemma keeps_bare_modify_this f : keeps bare (Graph.modify_this f).
Proof. intros w. by apply bare_of_heap. Qed.

Lemma bare_insert w l o :
  bare w → (∀ d, o = ONode d → bare_node d) →
  bare (set_objects (<[l := o]> (objects w)) w).
Proof.
  intros Hb Ho l' d. simpl. rewrite lookup_insert. case_decide.
  - intros [= ->]. by apply Ho.
  - apply Hb.
Qed.

Lemma keeps_bare_alloc o : (∀ d, o = ONode d → bare_node d) → keeps bare (alloc o).
Proof. intros Ho w Hb. by apply bare_insert. Qed.

Lemma keeps_bare_store l o : (∀ d, o = ONode d → bare_node d) → keeps bare (store l o).
Proof. intros Ho w Hb. by apply bare_insert. Qed.

Lemma keeps_bare_update_node data f :
  (∀ d, bare_node d → bare_node (f d)) → keeps bare (Graph.update_node data f).
Proof.
  intros Hf w Hb. unfold Graph.update_node.
  destruct data as [| | | |l]; simpl; try done.
  destruct (objects w !! l) as [[d| | | |]|] eqn:E; simpl; try done.
  apply bare_insert; [done|]. intros ? [= <-]. apply Hf. by eapply Hb.
Qed.

Lemma bare_node_at w v d : bare w → node_at (objects w) v = Some d → bare_node d.
Proof.
  intros Hb. destruct v as [| | | |l]; simpl; try done.
  destruct (objects w !! l) as [[d'| | | |]|] eqn:E; try done.
  intros [= <-]. by eapply Hb.
Qed.

Lemma bare_no_slot w v s : bare w → node_at (objects w) v ≫= node_slot s = None.
Proof.
  intros Hb. destruct (node_at (objects w) v) as [d|] eqn:E; [|done].
  apply (bare_node_at w v d Hb) in E as (?&?&?&?&?). by destruct s.
Qed.

Lemma bare_read_entry w data s k : bare w → read_entry data s k w = (Throw TypeError, w).
Proof.
  intros Hb. unfold read_entry. rewrite bind_run. unfold read_slot.
  destruct data; try done; by rewrite bare_no_slot.
Qed.

Lemma bare_has_entry w data s k : bare w → has_entry data s k w = (Throw TypeError, w).
Proof.
  intros Hb. unfold has_entry. rewrite bind_run. unfold read_slot.
  destruct data; try done; by rewrite bare_no_slot.
Qed.

(** Called on node records without registers, the two index functions throw
    before they write anything. *)
Lemma bare_updateStructureIndex w u e s t sd td :
  bare w → Indices.updateStructureIndex u e s t sd td w = (Throw TypeError, w).
Proof.
  intros Hb. unfold Indices.updateStructureIndex. rewrite bind_run. simpl.
  rewrite bind_run. by rewrite bare_read_entry.
Qed.

Lemma observer_quiet_cases {A} (m : M A) w :
  observer m → quiet m → (∃ a, m w = (Return a, w)) ∨ m w = (Throw TypeError, w).
Proof.
  intros Ho Hq. specialize (Ho w). specialize (Hq w). unfold quiet_at in Hq.
  destruct (m w) as [[a|e] w']; simpl in *; subst w'; [eauto|].
  right. by rewrite (Hq e).
Qed.

Lemma bare_clearEdgeFromStructureIndex w u e :
  bare w → Indices.clearEdgeFromStructureIndex u e w = (Throw TypeError, w).
Proof.
  intros Hb. unfold Indices.clearEdgeFromStructureIndex. rewrite bind_run. simpl.
  rewrite bind_run.
  destruct (observer_quiet_cases (Indices.read_extremities e) w) as [[[sd td] ->]| ->];
    [apply observer_read_extremities|apply quiet_read_extremities| |done].
  rewrite bind_run.
  destruct (observer_quiet_cases (Indices.read_key sd) w) as [[s ->]| ->];
    [apply observer_read_key|apply quiet_read_key| |done].
  rewrite bind_run.
  destruct (observer_quiet_cases (Indices.read_key td) w) as [[t ->]| ->];
    [apply observer_read_key|apply quiet_read_key| |done].
  rewrite bind_run. by rewrite bare_has_entry.
Qed.

Lemma bare__updateIndex w edge data :
  bare w →
  Graph._updateIndex "structure" edge data w
  = ((if structure_computed (this w) then Throw TypeError else Return tt), w).
Proof.
  intros Hb. unfold Graph._updateIndex. simpl. rewrite bind_run. simpl.
  destruct (structure_computed (this w)); simpl; [|done].
  by apply bare_updateStructureIndex.
Qed.

Lemma bare__clearEdgeFromIndex w edge data :
  bare w →
  Graph._clearEdgeFromIndex "structure" edge data w
  = ((if structure_computed (this w) then Throw TypeError else Return tt), w).
Proof.
  intros Hb. unfold Graph._clearEdgeFromIndex. simpl. rewrite bind_run. simpl.
  destruct (structure_computed (this w)); simpl; [|done].
  by apply bare_clearEdgeFromStructureIndex.
Qed.

Lemma keeps_bare__updateIndex name edge data : keeps bare (Graph._updateIndex name edge data).
Proof.
  intros w Hb. unfold Graph._updateIndex.
  repeat case_match; try done. rewrite bind_run. simpl.
  case_match; [done|]. by rewrite bare_updateStructureIndex.
Qed.

Lemma keeps_bare__clearEdgeFromIndex name edge data :
  keeps bare (Graph._clearEdgeFromIndex name edge data).
Proof.
  intros w Hb. unfold Graph._clearEdgeFromIndex.
  repeat case_match; try done. rewrite bind_run. simpl.
  case_match; [done|]. by rewrite bare_clearEdgeFromStructureIndex.
Qed.

Lemma bare_node_set_selfLoops f d : bare_node d → bare_node (Graph.set_selfLoops f d).
Proof. done. Qed.
Lemma bare_node_set_inDegree f d : bare_node d → bare_node (Graph.set_inDegree f d).
Proof. done. Qed.
Lemma bare_node_set_outDegree f d : bare_node d → bare_node (Graph.set_outDegree f d).
Proof. done. Qed.
Lemma bare_node_set_undirectedDegree f d :
  bare_node d → bare_node (Graph.set_undirectedDegree f d).
Proof. done. Qed.

Ltac keeps_bare_step :=
  first [ apply keeps_ret | apply keeps_throw | apply keeps_gets
        | apply keeps_bare_modify_this
        | apply keeps_bare__updateIndex | apply keeps_bare__clearEdgeFromIndex
        | solve [apply keeps_observer; eauto with observer]
        | solve [apply keeps_bare_alloc; intros ? [= <-]; repeat split; done]
        | solve [apply keeps_bare_alloc; done]
        | solve [apply keeps_bare_store; done]
        | apply keeps_bare_update_node;
            first [ apply bare_node_set_selfLoops | apply bare_node_set_inDegree
                  | apply bare_node_set_outDegree | apply bare_node_set_undirectedDegree ]
        | lazymatch goal with
          | |- keeps _ (_ ≫= _) => apply keeps_bind; [|intros ?]
          | |- keeps _ (when _ _) => apply keeps_when
          | |- keeps _ (for_each _ _) => apply keeps_for_each; intros ?
          | |- keeps _ (match _ with _ => _ end) => case_match
          end ].
Ltac keeps_bare := repeat keeps_bare_step.

Lemma keeps_bare_computeIndex name : keeps bare (Graph.computeIndex name).
Proof. unfold Graph.computeIndex. keeps_bare. Qed.

Lemma keeps_bare_hasDirectedEdge args : keeps bare (Graph.hasDirectedEdge args).
Proof.
  unfold Graph.hasDirectedEdge, Graph.directed, Graph.undirected, Graph.hasEdge1,
    Graph.hasNode, Graph.nodes_lookup, Graph.edges_lookup, Graph.map.
  keeps_bare; apply keeps_bare_computeIndex.
Qed.

Lemma keeps_bare_hasUndirectedEdge args : keeps bare (Graph.hasUndirectedEdge args).
Proof.
  unfold Graph.hasUndirectedEdge, Graph.undirected, Graph.hasEdge1,
    Graph.hasNode, Graph.nodes_lookup, Graph.edges_lookup, Graph.map.
  keeps_bare; apply keeps_bare_computeIndex.
Qed.

Lemma keeps_bare_protect a : keeps bare (Graph.protect a).
Proof. unfold Graph.protect, assign. keeps_bare. Qed.

Lemma keeps_bare_update_degrees step u s t sd td :
  keeps bare (Graph.update_degrees step u s t sd td).
Proof. unfold Graph.update_degrees. keeps_bare. Qed.

Lemma keeps_bare_addNode node attributes : keeps bare (Graph.addNode node attributes).
Proof.
  unfold Graph.addNode, Graph.hasNode, Graph.type.
  keeps_bare; apply keeps_bare_protect.
Qed.

Lemma keeps_bare__addEdge name u edge source target attributes :
  keeps bare (Graph._addEdge name u edge source target attributes).
Proof.
  unfold Graph._addEdge, Graph.hasNode, Graph.type, Graph.hasEdge, Graph.hasEdge1,
    Graph.allowSelfLoops, Graph.multi, Graph.nodes_lookup.
  keeps_bare;
    first [ apply keeps_bare_protect | apply keeps_bare_update_degrees
          | apply keeps_bare_hasDirectedEdge | apply keeps_bare_hasUndirectedEdge ].
Qed.

Lemma keeps_bare_dropEdge edge : keeps bare (Graph.dropEdge edge).
Proof.
  unfold Graph.dropEdge, Graph.hasEdge, Graph.hasEdge1, Graph.edges_lookup,
    Graph.nodes_lookup_val, Graph.nodes_lookup.
  keeps_bare; apply keeps_bare_update_degrees.
Qed.

Lemma keeps_bare_dropNode node : keeps bare (Graph.dropNode node).
Proof.
  unfold Graph.dropNode, Graph.hasNode, Graph.edges.
  keeps_bare; apply keeps_bare_dropEdge.
Qed.

Lemma keeps_bare_perform op : keeps bare (perform op).
Proof.
  destruct op; simpl; try apply keeps_discard;
    unfold Graph.addEdgeWithKey, Graph.addDirectedEdgeWithKey,
      Graph.addUndirectedEdgeWithKey, Graph.addEdge, Graph.addDirectedEdge,
      Graph.addUndirectedEdge, Graph.edgeKeyGenerator, Graph.type, Graph.clear;
    keeps_bare;
    first [ apply keeps_bare_addNode | apply keeps_bare__addEdge
          | apply keeps_bare_dropEdge | apply keeps_bare_dropNode ].
Qed.

Lemma bare_run ops w : bare w → bare (run ops w).
Proof.
  revert w. induction ops as [|op ops IH]; intros w Hb; simpl; [done|].
  apply IH. by apply keeps_bare_perform.
Qed.

Lemma bare_constructor options h :
  (∀ l d, h !! l ≠ Some (ONode d)) → bare (Graph.constructor options h).
Proof. intros Hh l d E. by apply Hh in E. Qed.

(** ** No partial mutation on a graph error *)

Lemma wp_of_quiet {A} (m : M A) w w0 : quiet_at m w → wp m (unchanged_on_error w0) w.
Proof. intros Hq e He Hg. by apply Hq in He. Qed.

Lemma wp_of_quiet_all {A} (m : M A) w w0 : quiet m → wp m (unchanged_on_error w0) w.
Proof. intros Hq. apply wp_of_quiet, Hq. Qed.

Lemma unchanged_on_error_here {A} w (r : outcome A) : unchanged_on_error w r w.
Proof. by intros e _ _. Qed.

Lemma unchanged_on_error_TypeError {A} w0 w : unchanged_on_error (A:=A) w0 (Throw TypeError) w.
Proof. intros e [= <-] Hg. by destruct Hg. Qed.

Lemma unchanged_on_error_Return {A} w0 w (a : A) : unchanged_on_error w0 (Return a) w.
Proof. by intros e. Qed.

#[local] Hint Resolve unchanged_on_error_here unchanged_on_error_TypeError
  unchanged_on_error_Return : core.

Lemma quiet_isPlainObject v : quiet (isPlainObject v).
Proof. unfold isPlainObject. intros w e. repeat (simpl; case_match); simpl; congruence. Qed.
Lemma quiet_assign target source : quiet (assign target source).
Proof. unfold assign. quiet_auto. Qed.
#[local] Hint Resolve quiet_isPlainObject quiet_assign : quiet.
Lemma quiet_protect a : quiet (Graph.protect a).
Proof. unfold Graph.protect. quiet_auto. Qed.
Lemma quiet_modify_this f : quiet (Graph.modify_this f).
Proof. apply quiet_modify. Qed.
Lemma quiet_update_node data f : quiet (Graph.update_node data f).
Proof. unfold Graph.update_node. intros w e. repeat (simpl; case_match); simpl; congruence. Qed.
#[local] Hint Resolve quiet_protect quiet_modify_this quiet_update_node : quiet.
Lemma quiet_update_degrees step u s t sd td : quiet (Graph.update_degrees step u s t sd td).
Proof. unfold Graph.update_degrees. quiet_auto. Qed.
Lemma quiet__updateIndex edge data : quiet (Graph._updateIndex "structure" edge data).
Proof. unfold Graph._updateIndex. simpl. quiet_auto. Qed.
Lemma quiet__clearEdgeFromIndex edge data :
  quiet (Graph._clearEdgeFromIndex "structure" edge data).
Proof. unfold Graph._clearEdgeFromIndex. simpl. quiet_auto. Qed.
Lemma quiet_read_edge data : quiet (Graph.read_edge data).
Proof. unfold Graph.read_edge. intros w e. repeat (simpl; case_match); simpl; congruence. Qed.
Lemma quiet_read_register data field : quiet (Graph.read_register data field).
Proof.
  unfold Graph.read_register. intros w e. repeat (simpl; case_match); simpl; congruence.
Qed.
#[local] Hint Resolve quiet_update_degrees quiet__updateIndex quiet__clearEdgeFromIndex
  quiet_read_edge quiet_read_register : quiet.
Lemma quiet_computeIndex : quiet (Graph.computeIndex "structure").
Proof. unfold Graph.computeIndex. simpl. quiet_auto. Qed.
#[local] Hint Resolve quiet_computeIndex : quiet.

Lemma addNode_atomic node attributes w :
  wp (Graph.addNode node attributes) (unchanged_on_error w) w.
Proof.
  unfold Graph.addNode.
  wp_call (apply wp_observer, observer_isPlainObject).
  intros [plain|e] ? ->; [|done].
  wp_if Hp; [done|].
  unfold Graph.hasNode. wp_step. wp_if Hn; [done|].
  apply wp_of_quiet_all. unfold Graph.type. quiet_auto.
Qed.

Lemma bare_register w v :
  bare w →
  node_at (objects w) v ≫= n_out = None ∧
  node_at (objects w) v ≫= n_undirectedOut = None ∧
  node_at (objects w) v ≫= n_undirectedIn = None.
Proof.
  intros Hb. destruct (node_at (objects w) v) as [d|] eqn:E; [|done].
  by apply (bare_node_at w v d Hb) in E as (?&?&?&?&?).
Qed.

Lemma wp_computeIndex_bare w :
  bare w →
  wp (Graph.computeIndex "structure")
     (fun r w' => bare w' ∧ ∀ e, r = Throw e → e = TypeError) w.
Proof.
  intros Hb. split; [by apply keeps_bare_computeIndex|]. apply quiet_computeIndex.
Qed.

(** On node records without registers the pairwise queries find nothing. *)
Lemma hasDirectedEdge_bare w source target :
  bare w →
  wp (Graph.hasDirectedEdge [source; target])
     (fun r _ => r = Return false ∨ r = Throw TypeError) w.
Proof.
  intros Hb. unfold Graph.hasDirectedEdge.
  wp_call (by apply wp_computeIndex_bare).
  intros [[]|e] w1 [Hb1 He]; [|right; by rewrite (He e)].
  unfold Graph.hasNode. wp_steps. wp_if Hc; [by left|].
  unfold Graph.nodes_lookup. wp_step.
  unfold Graph.read_register. apply wp_bind. unfold wp.
  destruct (bare_register w1 (from_option VObj VUndefined (_nodes (this w1) !! source)) Hb1)
    as (E&_&_).
  destruct (from_option VObj VUndefined (_nodes (this w1) !! source)); simpl in *;
    try rewrite E; auto.
Qed.

Lemma hasUndirectedEdge_bare w source target :
  bare w →
  wp (Graph.hasUndirectedEdge [source; target])
     (fun r _ => r = Return false ∨ r = Throw TypeError) w.
Proof.
  intros Hb. unfold Graph.hasUndirectedEdge.
  wp_call (by apply wp_computeIndex_bare).
  intros [[]|e] w1 [Hb1 He]; [|right; by rewrite (He e)].
  unfold Graph.hasNode. wp_steps. wp_if Hc; [by left|].
  unfold Graph.nodes_lookup. wp_step.
  unfold Graph.read_register. apply wp_bind. unfold wp.
  destruct (bare_register w1 (from_option VObj VUndefined (_nodes (this w1) !! source)) Hb1)
    as (_&E1&E2).
  destruct (from_option VObj VUndefined (_nodes (this w1) !! source)); simpl in *;
    rewrite ?E1; auto; cbv [mbind M_bind mret M_ret] in *; simpl in *; rewrite ?E2; auto.
Qed.

Lemma _addEdge_atomic name undirected edge source target attributes w :
  bare w →
  wp (Graph._addEdge name undirected edge source target attributes)
     (unchanged_on_error w) w.
Proof.
  intros Hb. unfold Graph._addEdge, Graph.type. wp_step.
  wp_if H1; [done|]. wp_if H2; [done|].
  wp_call (apply wp_observer, observer_isPlainObject).
  intros [plain|e] ? ->; [|done].
  wp_if H3; [done|].
  unfold Graph.hasNode. wp_step. wp_if H4; [done|]. wp_step. wp_if H5; [done|].
  unfold Graph.hasEdge, Graph.hasEdge1. wp_step. wp_if He; [done|].
  unfold Graph.allowSelfLoops. wp_step. wp_if H6; [done|].
  unfold Graph.multi. wp_step.
  apply wp_bind.
  eapply wp_mono with (Q' := fun r _ => r = Return false ∨ r = Throw TypeError).
  { destruct (opt_multi _); [by left|].
    destruct undirected; [by apply hasUndirectedEdge_bare|by apply hasDirectedEdge_bare]. }
  intros r w1 [-> | ->]; [|done].
  apply wp_of_quiet_all. unfold Graph.nodes_lookup. quiet_auto.
Qed.

Lemma dropEdge_atomic edge w : wp (Graph.dropEdge edge) (unchanged_on_error w) w.
Proof.
  unfold Graph.dropEdge, Graph.hasEdge, Graph.hasEdge1. wp_step.
  wp_if He; [done|].
  apply wp_of_quiet_all.
  unfold Graph.edges_lookup, Graph.nodes_lookup_val, Graph.nodes_lookup. quiet_auto.
Qed.

(** [dropEdge] of a stored key returns or throws a TypeError, and removes that
    key only. *)
Lemma dropEdge_stored edge w :
  is_Some (_edges (this w) !! edge) →
  wp (Graph.dropEdge edge)
     (fun r w' => _edges (this w') = delete edge (_edges (this w)) ∧
                  ∀ e, r = Throw e → e = TypeError) w.
Proof.
  intros He. unfold Graph.dropEdge, Graph.hasEdge, Graph.hasEdge1. wp_step.
  rewrite bool_decide_eq_true_2 by done. simpl.
  unfold Graph.edges_lookup. wp_steps.
  assert (∀ w', this w' = Graph.set_size (_size (this w) - 1)
            (Graph.set_edges (delete edge (_edges (this w))) (this w)) →
          _edges (this w') = delete edge (_edges (this w))) as Hk.
  { intros w' E. by rewrite E. }
  apply wp_bind.
  pose proof (observer_read_edge (from_option VObj VUndefined (_edges (this w) !! edge))) as Ho.
  pose proof (quiet_read_edge (from_option VObj VUndefined (_edges (this w) !! edge))) as Hq.
  unfold wp at 1.
  match goal with |- context [Graph.read_edge ?d ?w0] =>
    specialize (Ho w0); specialize (Hq w0); unfold quiet_at in Hq;
    destruct (Graph.read_edge d w0) as [[[[s t] u]|e] w1] end;
    simpl in *; subst w1; [|split; [by apply Hk|]; intros ? [= <-]; by apply Hq].
  unfold Graph.nodes_lookup_val, Graph.nodes_lookup. wp_steps.
  apply wp_bind.
  match goal with |- wp ?m _ ?w0 =>
    pose proof (heap_only_update_degrees decr (truthy u) s t
      (from_option VObj VUndefined (_nodes (this w0) !! to_key (objects w0) s))
      (from_option VObj VUndefined (_nodes (this w0) !! to_key (objects w0) t)) w0) as Hh;
    pose proof (quiet_update_degrees decr (truthy u) s t
      (from_option VObj VUndefined (_nodes (this w0) !! to_key (objects w0) s))
      (from_option VObj VUndefined (_nodes (this w0) !! to_key (objects w0) t)) w0) as Hq2
  end.
  unfold wp at 1. unfold quiet_at in Hq2. simpl in *.
  match goal with |- context [Graph.update_degrees ?a ?b ?c ?d ?e ?f ?w0] =>
    destruct (Graph.update_degrees a b c d e f w0) as [[[]|e'] w2] end;
    simpl in *; [|split; [by apply Hk|]; intros ? [= <-]; by apply Hq2].
  split.
  - apply Hk. rewrite heap_only__clearEdgeFromIndex. done.
  - apply quiet__clearEdgeFromIndex.
Qed.

Lemma for_each_dropEdge_quiet keys w :
  NoDup keys → (∀ k, k ∈ keys → is_Some (_edges (this w) !! k)) →
  quiet_at (for_each keys Graph.dropEdge) w.
Proof.
  revert w. induction keys as [|k keys IH]; intros w Hnd Hin; [by intros e|].
  apply NoDup_cons in Hnd as [Hk Hnd].
  change (for_each (k :: keys) Graph.dropEdge)
    with (Graph.dropEdge k ≫= fun _ => for_each keys Graph.dropEdge).
  pose proof (dropEdge_stored k w (Hin k (list_elem_of_here _ _))) as [Hd Hq].
  apply quiet_at_bind; [exact Hq|].
  intros [] w' E. apply IH; [done|].
  intros k' Hk'. rewrite E in Hd. simpl in Hd. rewrite Hd.
  rewrite lookup_delete_ne by (intros ->; done).
  apply Hin. by apply list_elem_of_further.
Qed.

Lemma edges_stored node w :
  let keys := (filter (fun entry => Graph.incident (objects w) node entry = true)
                 (map_to_list (_edges (this w)))).*1 in
  NoDup keys ∧ ∀ k, k ∈ keys → is_Some (_edges (this w) !! k).
Proof.
  simpl. split.
  - eapply NoDup_fmap_fst.
    + intros k l1 l2 H1 H2.
      apply list_elem_of_filter in H1 as [_ H1]. apply list_elem_of_filter in H2 as [_ H2].
      apply elem_of_map_to_list in H1, H2. congruence.
    + apply NoDup_filter, NoDup_map_to_list.
  - intros k Hk. apply list_elem_of_fmap in Hk as [[k' l] [-> Hk]].
    apply list_elem_of_filter in Hk as [_ Hk]. apply elem_of_map_to_list in Hk. eauto.
Qed.

Lemma dropNode_atomic node w : wp (Graph.dropNode node) (unchanged_on_error w) w.
Proof.
  unfold Graph.dropNode, Graph.hasNode. wp_step. wp_if Hn; [done|].
  unfold Graph.edges. wp_step.
  apply wp_of_quiet.
  destruct (edges_stored node w) as [Hnd Hin].
  apply quiet_at_bind; [by apply for_each_dropEdge_quiet|].
  intros [] w' _. revert w'. change (quiet (Graph.modify_this
    (fun g => Graph.set_nodes (delete node (_nodes g)) g) ≫= fun _ =>
    Graph.modify_this (fun g => Graph.set_order (_order g - 1) g))).
  quiet_auto.
Qed.

Lemma wp_discard {A} (m : M A) w0 w :
  wp m (unchanged_on_error w0) w → wp (discard m) (unchanged_on_error w0) w.
Proof.
  intros H. unfold discard. apply wp_bind. eapply wp_mono; [exact H|].
  intros [a|e] w' Hu; [by intros ?|]. intros e' [= <-] Hg. by apply (Hu e).
Qed.

Lemma perform_atomic op w : bare w → wp (perform op) (unchanged_on_error w) w.
Proof.
  intros Hb. destruct op; simpl; try apply wp_discard;
    unfold Graph.addEdgeWithKey, Graph.addDirectedEdgeWithKey,
      Graph.addUndirectedEdgeWithKey, Graph.addEdge, Graph.addDirectedEdge,
      Graph.addUndirectedEdge, Graph.edgeKeyGenerator, Graph.type;
    wp_steps;
    first [ apply addNode_atomic | by apply _addEdge_atomic | apply dropEdge_atomic
          | apply dropNode_atomic | by intros e ].
Qed.

(** C6. Take a graph with any options, created while the caller's heap holds
    no node record, and bring it to any state by a sequence of mutation
    operations. If the next mutation operation ([addNode], one of the six ways
    of adding an edge, [dropEdge], [dropNode]) throws InvalidArgument, NotFound
    or Usage, the world it leaves (tables, counters, flags of the index and
    every object of the heap) is the world it started from. *)
Theorem graph_error_leaves_the_world_unchanged options h ops op e w' :
  (∀ l d, h !! l ≠ Some (ONode d)) →
  perform op (run ops (Graph.constructor options h)) = (Throw e, w') →
  graph_error e →
  w' = run ops (Graph.constructor options h).
Proof.
  intros Hh Hrun He.
  pose proof (perform_atomic op _ (bare_run ops _ (bare_constructor options h Hh))) as H.
  unfold wp in H. rewrite Hrun in H. by apply (H e).
Qed.

(** ** The attributes of a created record *)

Lemma own_props_alloc h l v :
  h !! l = None → own_props (<[l := OPlain ∅]> h) v = own_props h v.
Proof.
  intros Hl. destruct v as [| | | |c]; simpl; try done.
  rewrite lookup_insert. case_decide as E; [|done]. subst c. simpl. by rewrite Hl.
Qed.

Lemma protect_spec a w :
  wp (Graph.protect a)
     (fun r w' => ∃ l, r = Return (VObj l) ∧ objects w !! l = None ∧
        objects w' = <[l := OPlain (own_props (objects w) a)]> (objects w) ∧
        this w' = this w) w.
Proof.
  unfold Graph.protect. wp_step. unfold assign. wp_steps.
  exists l. repeat split; try done.
  rewrite insert_insert_eq, own_props_alloc by done.
  simpl. rewrite lookup_insert_eq. simpl. by rewrite (right_id ∅ (∪)).
Qed.

Lemma keeps_other_objects_refl w : keeps_other_objects w w.
Proof. by intros l o. Qed.

Lemma keeps_other_objects_trans w1 w2 w3 :
  keeps_other_objects w1 w2 → keeps_other_objects w2 w3 → keeps_other_objects w1 w3.
Proof. intros H1 H2 l o Hl Ho. apply H2; [|done]. by apply H1. Qed.

Lemma update_node_other data f w :
  keeps_other_objects w (Graph.update_node data f w).2.
Proof.
  unfold Graph.update_node. intros l o Hl Ho.
  destruct data as [| | | |c]; simpl; try done.
  destruct (objects w !! c) as [[d| | | |]|] eqn:E; simpl; try done.
  rewrite lookup_insert_ne; [done|]. intros ->. rewrite E in Hl. by destruct (Ho d) ; congruence.
Qed.

Lemma update_degrees_other step u s t sd td w :
  keeps_other_objects w (Graph.update_degrees step u s t sd td w).2.
Proof.
  unfold Graph.update_degrees. repeat case_match; try apply update_node_other.
  all: rewrite bind_run;
    match goal with |- context [Graph.update_node ?d ?f ?w0] =>
      pose proof (update_node_other d f w0) as H1;
      destruct (Graph.update_node d f w0) as [[[]|e] w1] end; simpl in *; try done;
    eapply keeps_other_objects_trans; [exact H1|apply update_node_other].
Qed.

(** Called as [_updateIndex] calls it, [updateStructureIndex] throws on its
    first property read. *)
Lemma updateStructureIndex_undefined u e w :
  Indices.updateStructureIndex u e VUndefined VUndefined VUndefined VUndefined w
  = (Throw TypeError, w).
Proof. reflexivity. Qed.

Lemma observer__updateIndex edge data : observer (Graph._updateIndex "structure" edge data).
Proof.
  intros w. unfold Graph._updateIndex. simpl. rewrite bind_run. simpl.
  case_match; [done|]. by rewrite updateStructureIndex_undefined.
Qed.

(** The queries of [_addEdge] leave the heap alone. *)
Lemma keeps_objects_modify_this h f : keeps (fun w => objects w = h) (Graph.modify_this f).
Proof. by intros w. Qed.

Ltac keeps_objects_step :=
  first [ apply keeps_ret | apply keeps_throw | apply keeps_gets
        | apply keeps_objects_modify_this
        | solve [apply keeps_observer; eauto with observer]
        | solve [apply keeps_observer, observer__updateIndex]
        | lazymatch goal with
          | |- keeps _ (_ ≫= _) => apply keeps_bind; [|intros ?]
          | |- keeps _ (when _ _) => apply keeps_when
          | |- keeps _ (for_each _ _) => apply keeps_for_each; intros ?
          | |- keeps _ (match _ with _ => _ end) => case_match
          end ].
Ltac keeps_objects := repeat keeps_objects_step.

Lemma keeps_objects_computeIndex h :
  keeps (fun w => objects w = h) (Graph.computeIndex "structure").
Proof. unfold Graph.computeIndex. simpl. keeps_objects. Qed.

Lemma keeps_objects_hasDirectedEdge h args :
  keeps (fun w => objects w = h) (Graph.hasDirectedEdge args).
Proof.
  unfold Graph.hasDirectedEdge, Graph.directed, Graph.undirected, Graph.hasEdge1,
    Graph.hasNode, Graph.nodes_lookup, Graph.edges_lookup, Graph.map.
  keeps_objects; apply keeps_objects_computeIndex.
Qed.

Lemma keeps_objects_hasUndirectedEdge h args :
  keeps (fun w => objects w = h) (Graph.hasUndirectedEdge args).
Proof.
  unfold Graph.hasUndirectedEdge, Graph.undirected, Graph.hasEdge1,
    Graph.hasNode, Graph.nodes_lookup, Graph.edges_lookup, Graph.map.
  keeps_objects; apply keeps_objects_computeIndex.
Qed.

Lemma fresh_copy_intro w w' argument a :
  objects w !! a = None →
  objects w' !! a = Some (OPlain (own_props (objects w) argument)) →
  fresh_copy w w' argument (VObj a).
Proof.
  intros Hfresh Hstored. exists a. repeat split; try done.
  intros c o [x Hc]. rewrite lookup_insert_ne; [done|]. intros ->. congruence.
Qed.

Lemma addNode_fresh_copy node attributes w :
  _nodes (this w) !! node = None →
  wp (Graph.addNode node attributes)
     (fun _ w' => ∀ l d, _nodes (this w') !! node = Some l →
        node_at (objects w') (VObj l) = Some d →
        fresh_copy w w' (default VUndefined attributes) (n_attributes d)) w.
Proof.
  intros Hfree.
  assert (∀ l d, _nodes (this w) !! node = Some l →
     node_at (objects w) (VObj l) = Some d →
     fresh_copy w w (default VUndefined attributes) (n_attributes d)) as Hno.
  { intros l d E. congruence. }
  unfold Graph.addNode.
  wp_call (apply wp_observer, observer_isPlainObject).
  intros [plain|e] ? ->; [|done].
  wp_if Hp; [done|].
  unfold Graph.hasNode. wp_step. wp_if Hn; [done|].
  wp_call (apply protect_spec).
  intros r w1 (a & -> & Ha & Hobj & Hthis).
  unfold Graph.type. wp_steps.
  intros l' d. rewrite lookup_insert_eq. intros [= <-].
  rewrite lookup_insert_eq. intros [= <-]. simpl.
  apply fresh_copy_intro; [done|]. simpl.
  rewrite lookup_insert_ne.
  - rewrite Hobj. by rewrite lookup_insert_eq.
  - intros ->. rewrite Hobj, lookup_insert_eq in H. done.
Qed.

Lemma _addEdge_fresh_copy name undirected edge source target attributes w :
  _edges (this w) !! edge = None →
  wp (Graph._addEdge name undirected edge source target attributes)
     (fun _ w' => ∀ l d, _edges (this w') !! edge = Some l →
        edge_at (objects w') (VObj l) = Some d →
        fresh_copy w w' attributes (e_attributes d)) w.
Proof.
  intros Hfree.
  assert (∀ w', _edges (this w') = _edges (this w) →
     ∀ l d, _edges (this w') !! edge = Some l →
     edge_at (objects w') (VObj l) = Some d →
     fresh_copy w w' attributes (e_attributes d)) as Hno.
  { intros w' E l d. rewrite E. congruence. }
  unfold Graph._addEdge, Graph.type. wp_step.
  wp_if H1; [exact (Hno w eq_refl)|]. wp_if H2; [exact (Hno w eq_refl)|].
  wp_call (apply wp_observer, observer_isPlainObject).
  intros [plain|e] ? ->; [|exact (Hno w eq_refl)].
  wp_if H3; [exact (Hno w eq_refl)|].
  unfold Graph.hasNode. wp_step. wp_if H4; [exact (Hno w eq_refl)|].
  wp_step. wp_if H5; [exact (Hno w eq_refl)|].
  unfold Graph.hasEdge, Graph.hasEdge1. wp_step. wp_if He; [exact (Hno w eq_refl)|].
  unfold Graph.allowSelfLoops. wp_step. wp_if H6; [exact (Hno w eq_refl)|].
  unfold Graph.multi. wp_step.
  wp_call (apply (wp_keeps (fun w' => same_tables w w' ∧ objects w' = objects w)));
    [|by split; [apply same_tables_refl|]|].
  { destruct (opt_multi _); [apply keeps_ret|].
    destruct undirected; intros w' [T O]; split;
      first [ by apply keeps_tables_hasUndirectedEdge | by apply keeps_tables_hasDirectedEdge
            | by apply keeps_objects_hasUndirectedEdge
            | by apply keeps_objects_hasDirectedEdge ]. }
  intros [linked|e] w1 [T1 O1]; [|exact (Hno w1 (proj1 (proj2 (proj2 (proj2 T1)))))].
  wp_if H7; [exact (Hno w1 (proj1 (proj2 (proj2 (proj2 T1)))))|].
  wp_call (apply protect_spec).
  intros r w2 (a & -> & Ha & Hobj & Hthis).
  wp_steps. unfold Graph.nodes_lookup. wp_steps.
  match goal with |- wp _ _ ?w0 => set (w3 := w0) end.
  assert (objects w3 !! l = Some (OEdge (mkEdgeData undirected (VObj a) (VStr source) (VStr target))))
    as Hl by (simpl; by rewrite lookup_insert_eq).
  assert (objects w3 !! a = Some (OPlain (own_props (objects w) attributes))) as Ha3.
  { simpl. rewrite lookup_insert_ne.
    - by rewrite Hobj, lookup_insert_eq, O1.
    - intros ->. by rewrite Hobj, lookup_insert_eq in H. }
  assert (_edges (this w3) !! edge = Some l) as He3 by (simpl; by rewrite lookup_insert_eq).
  clearbody w3.
  assert (∀ w', this w' = this w3 → keeps_other_objects w3 w' →
     ∀ l' d, _edges (this w') !! edge = Some l' →
     edge_at (objects w') (VObj l') = Some d →
     fresh_copy w w' attributes (e_attributes d)) as Hyes.
  { intros w' E K l' d. rewrite E, He3. intros [= <-]. simpl.
    rewrite (K l _ Hl) by done. intros [= <-]. simpl.
    apply fresh_copy_intro; [by rewrite <-O1|].
    by apply K. }
  apply wp_bind. unfold wp at 1.
  match goal with |- context [Graph.update_degrees ?x1 ?x2 ?x3 ?x4 ?x5 ?x6 w3] =>
    pose proof (update_degrees_other x1 x2 x3 x4 x5 x6 w3) as K4;
    pose proof (heap_only_update_degrees x1 x2 x3 x4 x5 x6 w3) as E4;
    destruct (Graph.update_degrees x1 x2 x3 x4 x5 x6 w3) as [[[]|e] w4] end;
    simpl in *; [|by apply Hyes].
  wp_call (apply wp_observer, observer__updateIndex).
  intros [[]|e] ? ->; [wp_steps|]; by apply Hyes.
Qed.

Lemma after_discard {A} (m : M A) w : after (discard m) w = after m w.
Proof. unfold after, discard. rewrite bind_run. by destruct (m w) as [[a|e] w']. Qed.

Lemma created_by__addEdge name undirected edge source target attributes w stored :
  match _edges (this w) !! edge with
  | Some _ => None
  | None =>
      l ← _edges (this (after (Graph._addEdge name undirected edge source target attributes) w))
            !! edge;
      d ← edge_at (objects (after (Graph._addEdge name undirected edge source target attributes) w))
            (VObj l);
      Some (e_attributes d)
  end = Some stored →
  fresh_copy w (after (Graph._addEdge name undirected edge source target attributes) w)
    attributes stored.
Proof.
  destruct (_edges (this w) !! edge) eqn:Hfree; [done|].
  pose proof (_addEdge_fresh_copy name undirected edge source target attributes w Hfree) as H.
  unfold wp in H. unfold after. intros Hc.
  apply bind_Some in Hc as (l & El & Hc). apply bind_Some in Hc as (d & Ed & [= <-]).
  by eapply H.
Qed.

Lemma addEdgeWithKey_run edge source target attributes w :
  Graph.addEdgeWithKey edge source target attributes w
  = Graph._addEdge "addEdgeWithKey"
      (bool_decide (opt_type (_options (this w)) = undirected_t))
      edge source target attributes w.
Proof. reflexivity. Qed.

Lemma addEdge_run source target attributes w :
  Graph.addEdge source target attributes w
  = Graph._addEdge "addEdge"
      (bool_decide (opt_type (_options (this w)) = undirected_t))
      (opt_edgeKeyGenerator (_options (this w))
         (bool_decide (opt_type (_options (this w)) = undirected_t))
         source target attributes)
      source target attributes w.
Proof. reflexivity. Qed.

Lemma addDirectedEdge_run source target attributes w :
  Graph.addDirectedEdge source target attributes w
  = Graph._addEdge "addDirectedEdge" false
      (opt_edgeKeyGenerator (_options (this w)) false source target attributes)
      source target attributes w.
Proof. reflexivity. Qed.

Lemma addUndirectedEdge_run source target attributes w :
  Graph.addUndirectedEdge source target attributes w
  = Graph._addEdge "addUndirectedEdge" true
      (opt_edgeKeyGenerator (_options (this w)) false source target attributes)
      source target attributes w.
Proof. reflexivity. Qed.

(** C10. For [addNode] and for each of the six ways of adding an edge: when
    the operation stores a record under a key that was free, whether it then
    returns or throws, the attributes of that record are an object that did not
    exist before the call, so not the caller's object; this object holds the
    properties that the supplied attributes had when the call was made (none
    when the argument is omitted), and a later write to any object that existed
    before the call, the caller's among them, does not change it. *)
Theorem created_record_holds_a_fresh_copy op w argument stored :
  supplied_attributes op = Some argument →
  created_attributes op w (after (perform op) w) = Some stored →
  fresh_copy w (after (perform op) w) argument stored.
Proof.
  destruct op; simpl; try done; intros [= <-]; rewrite after_discard.
  - destruct (_nodes (this w) !! node) eqn:Hfree; [done|].
    pose proof (addNode_fresh_copy node attributes w Hfree) as H.
    unfold wp in H. unfold after. intros Hc.
    apply bind_Some in Hc as (l & El & Hc). apply bind_Some in Hc as (d & Ed & [= <-]).
    by eapply H.
  - unfold after. rewrite addEdgeWithKey_run.
    apply (created_by__addEdge "addEdgeWithKey").
  - apply (created_by__addEdge "addDirectedEdgeWithKey" false).
  - apply (created_by__addEdge "addUndirectedEdgeWithKey" true).
  - unfold after. rewrite addEdge_run. apply (created_by__addEdge "addEdge").
  - unfold after. rewrite addDirectedEdge_run.
    apply (created_by__addEdge "addDirectedEdge" false).
  - unfold after. rewrite addUndirectedEdge_run.
    apply (created_by__addEdge "addUndirectedEdge" true).
Qed.

(** ** The structure index: one value for the two sides *)

Lemma same_index_entry w w' a s k : same_index w w' → entry w' a s k = entry w a s k.
Proof.
  intros (Ht & Hn & _). unfold entry. rewrite Ht.
  destruct (_nodes (this w) !! a) as [l|]; [|done].
  specialize (Hn (VObj l)). simpl in *. by rewrite Hn.
Qed.

Lemma same_index_node_table w w' : same_index w w' → node_table_ok w → node_table_ok w'.
Proof.
  intros (Ht & Hn & _) Hok k l. rewrite Ht. intros Hl.
  destruct (Hok k l Hl) as (d & Hd & Hk & Hs). exists d. by rewrite Hn.
Qed.

Lemma node_table_inj w k1 k2 l :
  node_table_ok w → _nodes (this w) !! k1 = Some l → _nodes (this w) !! k2 = Some l → k1 = k2.
Proof.
  intros Hok H1 H2.
  destruct (Hok k1 l H1) as (d1 & Hd1 & Hk1 & _).
  destruct (Hok k2 l H2) as (d2 & Hd2 & Hk2 & _). congruence.
Qed.

Lemma node_at_Some h l d : node_at h (VObj l) = Some d ↔ h !! l = Some (ONode d).
Proof. simpl. destruct (h !! l) as [[]|]; split; congruence. Qed.

Lemma node_slot_set s s' r d :
  node_slot s' (set_node_slot s r d) = if decide (s' = s) then Some r else node_slot s' d.
Proof. destruct s, s'; by simpl. Qed.

Lemma n_key_set s r d : n_key (set_node_slot s r d) = n_key d.
Proof. by destruct s. Qed.

(** Replacing a register of the record of [a]. *)
Lemma replace_register w a l d s r0 r :
  node_table_ok w → _nodes (this w) !! a = Some l →
  node_at (objects w) (VObj l) = Some d → node_slot s d = Some r0 →
  let w' := set_objects (<[l := ONode (set_node_slot s r d)]> (objects w)) w in
  this w' = this w ∧ node_table_ok w' ∧
  (∀ a' s' k', entry w' a' s' k'
     = if decide (a' = a ∧ s' = s) then r !! k' else entry w a' s' k') ∧
  (∀ x, set_at (objects w') x = set_at (objects w) x) ∧
  (∀ x, edge_at (objects w') x = edge_at (objects w) x).
Proof.
  intros Hok Ha Hd Hs w'. apply node_at_Some in Hd.
  assert (∀ x, x ≠ l → objects w' !! x = objects w !! x) as Hother.
  { intros x Hx. subst w'. simpl. by rewrite lookup_insert_ne. }
  assert (objects w' !! l = Some (ONode (set_node_slot s r d))) as Hl.
  { subst w'. simpl. by rewrite lookup_insert_eq. }
  assert (this w' = this w) as Hthis by done.
  clearbody w'.
  split; [done|]. split; [|split; [|split]].
  - intros k l' Hk. rewrite Hthis in *.
    destruct (Hok k l' Hk) as (d' & Hd' & Hkey & Hslots).
    destruct (decide (l' = l)) as [->|Hne].
    + apply node_at_Some in Hd'. assert (d' = d) as -> by congruence.
      exists (set_node_slot s r d). split; [by apply node_at_Some|].
      split; [by rewrite n_key_set|].
      intros s'. rewrite node_slot_set. case_decide as E; [|apply Hslots].
      subst s'. rewrite <-Hslots, Hs. split; eauto.
    + exists d'. split; [|done]. apply node_at_Some. rewrite Hother by done.
      by apply node_at_Some.
  - intros a' s' k'. unfold entry. rewrite Hthis.
    destruct (_nodes (this w) !! a') as [l'|] eqn:Ha'; simpl;
      [|by case_decide as E; [destruct E as [-> _]; congruence|]].
    destruct (decide (l' = l)) as [->|Hne].
    + assert (a' = a) as -> by (by eapply node_table_inj).
      rewrite Hl, Hd. simpl. rewrite node_slot_set.
      destruct (decide (s' = s)) as [->|Hs'].
      * by rewrite decide_True.
      * rewrite decide_False by (intros [_ ?]; done). done.
    + rewrite Hother by done.
      rewrite decide_False; [done|]. intros [-> _]. congruence.
  - intros [| | | |x]; try done. simpl.
    destruct (decide (x = l)) as [->|Hne]; [by rewrite Hl, Hd|by rewrite Hother].
  - intros [| | | |x]; try done. simpl.
    destruct (decide (x = l)) as [->|Hne]; [by rewrite Hl, Hd|by rewrite Hother].
Qed.

Lemma carried_slot w a l s :
  node_table_ok w → _nodes (this w) !! a = Some l →
  carries (opt_type (_options (this w))) s = true →
  ∃ d r, node_at (objects w) (VObj l) = Some d ∧ node_slot s d = Some r.
Proof.
  intros Hok Ha Hc. destruct (Hok a l Ha) as (d & Hd & _ & Hs).
  destruct (proj2 (Hs s) Hc) as [r Hr]. eauto.
Qed.

Lemma not_carried_slot w a l s :
  node_table_ok w → _nodes (this w) !! a = Some l →
  carries (opt_type (_options (this w))) s = false →
  node_at (objects w) (VObj l) ≫= node_slot s = None.
Proof.
  intros Hok Ha Hc. destruct (Hok a l Ha) as (d & Hd & _ & Hs).
  rewrite Hd. simpl. destruct (node_slot s d) eqn:E; [|done].
  assert (carries (opt_type (_options (this w))) s = true) by (apply Hs; eauto). congruence.
Qed.

Lemma entry_carried w a l d r s k :
  _nodes (this w) !! a = Some l → node_at (objects w) (VObj l) = Some d →
  node_slot s d = Some r → entry w a s k = r !! k.
Proof. intros Ha Hd Hs. unfold entry. rewrite Ha. simpl in *. rewrite Hd. simpl. by rewrite Hs. Qed.

Ltac run_on_register Hd Hr :=
  unfold wp, read_entry, has_entry, write_entry, delete_entry, put_slot, read_slot,
    store, modify;
  cbv [mbind M_bind gets mret M_ret]; simpl;
  rewrite Hd; simpl; rewrite Hr; simpl; rewrite ?Hd; simpl.

Lemma wp_read_entry w a l s k (Q : outcome jsval -> World -> Prop) :
  node_table_ok w → _nodes (this w) !! a = Some l →
  carries (opt_type (_options (this w))) s = true →
  Q (Return (default VUndefined (entry w a s k))) w →
  wp (read_entry (VObj l) s (VStr k)) Q w.
Proof.
  intros Hok Ha Hc HQ. destruct (carried_slot w a l s Hok Ha Hc) as (d & r & Hd & Hr).
  rewrite (entry_carried w a l d r s k) in HQ by done.
  apply node_at_Some in Hd. by run_on_register Hd Hr.
Qed.

Lemma wp_has_entry w a l s k (Q : outcome bool -> World -> Prop) :
  node_table_ok w → _nodes (this w) !! a = Some l →
  carries (opt_type (_options (this w))) s = true →
  Q (Return (bool_decide (is_Some (entry w a s k)))) w →
  wp (has_entry (VObj l) s (VStr k)) Q w.
Proof.
  intros Hok Ha Hc HQ. destruct (carried_slot w a l s Hok Ha Hc) as (d & r & Hd & Hr).
  rewrite (entry_carried w a l d r s k) in HQ by done.
  apply node_at_Some in Hd. by run_on_register Hd Hr.
Qed.

Lemma wp_write_entry w a l s k v (Q : outcome unit -> World -> Prop) :
  node_table_ok w → _nodes (this w) !! a = Some l →
  carries (opt_type (_options (this w))) s = true →
  (∀ w', retargeted w w' a s k (Some v) → Q (Return tt) w') →
  wp (write_entry (VObj l) s (VStr k) v) Q w.
Proof.
  intros Hok Ha Hc HQ. destruct (carried_slot w a l s Hok Ha Hc) as (d & r & Hd & Hr).
  destruct (replace_register w a l d s r (<[k := v]> r) Hok Ha Hd Hr) as (H1&H2&H3&H4&H5).
  apply node_at_Some in Hd as Hd'. run_on_register Hd' Hr.
  apply HQ.
  repeat split; try done.
  intros a' s' k'. rewrite H3.
  destruct (decide (a' = a ∧ s' = s)) as [[-> ->]|Hne].
  - rewrite (entry_carried w a l d r s k') by done.
    destruct (decide (k' = k)) as [->|Hk].
    + rewrite decide_True by done. by rewrite lookup_insert_eq.
    + rewrite decide_False by (intros (_&_&?); done). by rewrite lookup_insert_ne.
  - rewrite decide_False; [done|]. intros (?&?&?). by apply Hne.
Qed.

Lemma wp_delete_entry w a l s k (Q : outcome unit -> World -> Prop) :
  node_table_ok w → _nodes (this w) !! a = Some l →
  carries (opt_type (_options (this w))) s = true →
  (∀ w', retargeted w w' a s k None → Q (Return tt) w') →
  wp (delete_entry (VObj l) s (VStr k)) Q w.
Proof.
  intros Hok Ha Hc HQ. destruct (carried_slot w a l s Hok Ha Hc) as (d & r & Hd & Hr).
  destruct (replace_register w a l d s r (delete k r) Hok Ha Hd Hr) as (H1&H2&H3&H4&H5).
  apply node_at_Some in Hd as Hd'. run_on_register Hd' Hr.
  apply HQ.
  repeat split; try done.
  intros a' s' k'. rewrite H3.
  destruct (decide (a' = a ∧ s' = s)) as [[-> ->]|Hne].
  - rewrite (entry_carried w a l d r s k') by done.
    destruct (decide (k' = k)) as [->|Hk].
    + rewrite decide_True by done. by rewrite lookup_delete_eq.
    + rewrite decide_False by (intros (_&_&?); done). by rewrite lookup_delete_ne.
  - rewrite decide_False; [done|]. intros (?&?&?). by apply Hne.
Qed.

Lemma same_index_refl w : same_index w w.
Proof. by repeat split. Qed.

Lemma retargeted_edges w w' a s k ov x :
  retargeted w w' a s k ov → edge_at (objects w') x = edge_at (objects w) x.
Proof. intros (_&_&_&_&H). apply H. Qed.

Lemma wp_new_Set w (Q : outcome jsval -> World -> Prop) :
  (∀ l w', objects w !! l = None → same_index w w' →
     set_at (objects w') (VObj l) = Some [] →
     (∀ x, x ≠ VObj l → set_at (objects w') x = set_at (objects w) x) →
     Q (Return (VObj l)) w') →
  wp new_Set Q w.
Proof.
  intros HQ. unfold new_Set. apply wp_alloc. intros l Hl. apply HQ; [done| | |].
  - split; [done|]. split; intros [| | | |x]; try done; simpl;
      (destruct (decide (x = l)) as [->|Hne];
         [by rewrite lookup_insert_eq, Hl|by rewrite lookup_insert_ne]).
  - simpl. by rewrite lookup_insert_eq.
  - intros [| | | |x] Hx; try done. simpl. rewrite lookup_insert_ne; [done|]. congruence.
Qed.

Lemma wp_Set_add w v x elems (Q : outcome unit -> World -> Prop) :
  set_at (objects w) v = Some elems →
  (∀ w', same_index w w' →
     set_at (objects w') v = Some (if bool_decide (x ∈ elems) then elems else elems ++ [x]) →
     (∀ y, y ≠ v → set_at (objects w') y = set_at (objects w) y) →
     Q (Return tt) w') →
  wp (Set_add v x) Q w.
Proof.
  intros Hv HQ. destruct v as [| | | |l]; try done. simpl in Hv.
  destruct (objects w !! l) as [[| |elems'| |]|] eqn:El; try done. injection Hv as ->.
  unfold wp, Set_add, store, modify. cbv [mbind M_bind gets mret M_ret]. simpl.
  rewrite El. simpl.
  apply HQ.
  - split; [done|]. split; intros [| | | |y]; try done; simpl;
      (destruct (decide (y = l)) as [->|Hne];
         [by rewrite lookup_insert_eq, El|by rewrite lookup_insert_ne]).
  - simpl. by rewrite lookup_insert_eq.
  - intros [| | | |y] Hy; try done. simpl. rewrite lookup_insert_ne; [done|]. congruence.
Qed.

Lemma wp_Set_delete w v x elems (Q : outcome unit -> World -> Prop) :
  set_at (objects w) v = Some elems →
  (∀ w', same_index w w' →
     is_Some (set_at (objects w') v) →
     (∀ y, y ≠ v → set_at (objects w') y = set_at (objects w) y) →
     Q (Return tt) w') →
  wp (Set_delete v x) Q w.
Proof.
  intros Hv HQ. destruct v as [| | | |l]; try done. simpl in Hv.
  destruct (objects w !! l) as [[| |elems'| |]|] eqn:El; try done. injection Hv as ->.
  unfold wp, Set_delete, store, modify. cbv [mbind M_bind gets mret M_ret]. simpl.
  rewrite El. simpl.
  apply HQ.
  - split; [done|]. split; intros [| | | |y]; try done; simpl;
      (destruct (decide (y = l)) as [->|Hne];
         [by rewrite lookup_insert_eq, El|by rewrite lookup_insert_ne]).
  - simpl. rewrite lookup_insert_eq. eauto.
  - intros [| | | |y] Hy; try done. simpl. rewrite lookup_insert_ne; [done|]. congruence.
Qed.

Lemma wp_read_size w v elems (Q : outcome (option nat) -> World -> Prop) :
  set_at (objects w) v = Some elems →
  Q (Return (Some (length elems))) w → wp (read_size v) Q w.
Proof.
  intros Hv HQ. unfold wp, read_size. rewrite Hv.
  destruct v; try done.
Qed.

Lemma carries_out_in ty u : carries ty (in_slot u) = carries ty (out_slot u).
Proof. by destruct u. Qed.

Lemma set_not_edge h v : is_Some (set_at h v) → edge_at h v = None.
Proof. destruct v as [| | | |l]; simpl; try done. by destruct (h !! l) as [[]|]; intros []. Qed.

Lemma entry_is_object w a s b v : entries_ok w → entry w a s b = Some v → v ≠ VUndefined.
Proof.
  intros Hok He ->. specialize (Hok a s b VUndefined He).
  destruct (opt_multi _); by destruct Hok.
Qed.

Lemma kinds_kept_refl w : kinds_kept w w.
Proof. by split. Qed.

Lemma kinds_kept_trans w1 w2 w3 : kinds_kept w1 w2 → kinds_kept w2 w3 → kinds_kept w1 w3.
Proof. intros [? ?] [? ?]. split; eauto. Qed.

Lemma retargeted_kinds w w' a s k ov : retargeted w w' a s k ov → kinds_kept w w'.
Proof. intros (_&_&_&Hs&He). split; intros x; by rewrite ?Hs, ?He. Qed.

Lemma entries_ok_kept w w' :
  this w' = this w → kinds_kept w w' →
  (∀ a s b v, entry w' a s b = Some v →
     entry w a s b = Some v ∨
     if opt_multi (_options (this w)) then is_Some (set_at (objects w') v)
     else is_Some (edge_at (objects w') v)) →
  entries_ok w → entries_ok w'.
Proof.
  intros Ht [Ks Ke] Hstep Hok a s b v Hv. rewrite Ht.
  destruct (Hstep a s b v Hv) as [Hold|Hnew]; [|done].
  specialize (Hok a s b v Hold). destruct (opt_multi _); eauto.
Qed.

Lemma inv_same_entries w w' :
  index_inv w → node_table_ok w' → this w' = this w → kinds_kept w w' →
  (∀ a s k, entry w' a s k = entry w a s k) →
  index_inv w'.
Proof.
  intros (Hok & Hent & Hsh & Hns) Hok' Ht Hk He. split; [done|]. split; [|split].
  - eapply entries_ok_kept; eauto. intros a s b v. rewrite He. eauto.
  - intros a b Hab. rewrite !He. by apply Hsh.
  - intros a. rewrite He. apply Hns.
Qed.

Lemma inv_install_loop w w' u s x :
  index_inv w → node_table_ok w' → this w' = this w → kinds_kept w w' →
  (if opt_multi (_options (this w)) then is_Some (set_at (objects w') x)
   else is_Some (edge_at (objects w') x)) →
  (∀ a s' k, entry w' a s' k
     = if decide (a = s ∧ s' = out_slot u ∧ k = s) then Some x else entry w a s' k) →
  index_inv w'.
Proof.
  intros (Hok & Hent & Hsh & Hns) Hok' Ht Hk Hx He. split; [done|]. split; [|split].
  - eapply entries_ok_kept; eauto. intros a s' b v. rewrite He.
    case_decide; [intros [= <-]; by right|by left].
  - intros a b Hab. rewrite !He.
    rewrite !decide_False by (intros (?&?&?); congruence). by apply Hsh.
  - intros a. rewrite He. rewrite decide_False; [apply Hns|].
    intros (_&?&_). by destruct u.
Qed.

Lemma inv_install_pair w w' u s t x :
  index_inv w → node_table_ok w' → this w' = this w → kinds_kept w w' →
  s ≠ t → entry w s (out_slot u) t = None →
  (if opt_multi (_options (this w)) then is_Some (set_at (objects w') x)
   else is_Some (edge_at (objects w') x)) →
  (∀ a s' k, entry w' a s' k
     = if decide (a = t ∧ s' = in_slot u ∧ k = s) then Some x
       else if decide (a = s ∧ s' = out_slot u ∧ k = t) then Some x
       else entry w a s' k) →
  index_inv w'.
Proof.
  intros (Hok & Hent & Hsh & Hns) Hok' Ht Hk Hst Hnone Hx He. split; [done|]. split; [|split].
  - eapply entries_ok_kept; eauto. intros a s' b v. rewrite He.
    repeat case_decide; try (intros [= <-]; by right). by left.
  - intros a b Hab. destruct (Hsh a b Hab) as [H1 H2]. rewrite !He.
    destruct u; simpl in *; repeat case_decide; destruct_and?; simplify_eq; try done;
      try (split; done); exfalso; naive_solver.
  - intros a. rewrite He.
    rewrite !decide_False; [apply Hns| |]; intros (?&?&?); destruct u; simplify_eq.
Qed.

Lemma same_index_kinds w w' :
  same_index w w' → (∀ x, is_Some (set_at (objects w) x) → is_Some (set_at (objects w') x)) →
  kinds_kept w w'.
Proof. intros (_&_&He) Hs. split; [done|]. intros x. by rewrite He. Qed.

Lemma installed_intro u e s t w w' v :
  index_inv w' → this w' = this w → kinds_kept w w' →
  entry w' s (out_slot u) t = Some v →
  (s ≠ t → entry w' t (in_slot u) s = Some v) →
  (if opt_multi (_options (this w))
   then ∃ elems, set_at (objects w') v = Some elems ∧ VObj e ∈ elems
   else entry w s (out_slot u) t = None → v = VObj e) →
  installed u e s t w (Return tt) w'.
Proof. intros. split; [done|]. repeat (split; [done|]). by exists v. Qed.

Lemma update_spec w u e s t ls lt :
  index_inv w → is_Some (edge_at (objects w) (VObj e)) →
  _nodes (this w) !! s = Some ls → _nodes (this w) !! t = Some lt →
  carries (opt_type (_options (this w))) (out_slot u) = true →
  wp (Indices.updateStructureIndex (VBool u) (VObj e) (VStr s) (VStr t) (VObj ls) (VObj lt))
     (installed u e s t w) w.
Proof.
  intros Hinv He Hs Ht Hc. pose proof Hinv as (Hok & Hent & Hsh & Hns).
  unfold Indices.updateStructureIndex. wp_step.
  change (if u then Undirected else Out) with (out_slot u).
  change (if u then Undirected else In) with (in_slot u).
  apply wp_bind. eapply wp_read_entry; [done..|].
  destruct (entry w s (out_slot u) t) as [v|] eqn:Efound; simpl.
  - (* an entry is there *)
    pose proof (entry_is_object _ _ _ _ _ Hent Efound) as Hv.
    rewrite decide_False by done. wp_step.
    pose proof (Hent _ _ _ _ Efound) as Hkind.
    destruct (opt_multi (_options (this w))) eqn:Hmulti; simpl.
    + destruct Hkind as [elems Helems].
      apply wp_bind. eapply wp_Set_add; [done|]. intros w1 Hsame Hset Hothers.
      assert (kinds_kept w w1) as Hk1.
      { apply same_index_kinds; [done|]. intros x Hx.
        destruct (decide (x = v)) as [->|Hne]; [by rewrite Hset|by rewrite Hothers]. }
      assert (index_inv w1) as Hinv1.
      { eapply inv_same_entries; [done|by eapply same_index_node_table|apply Hsame|done|].
        intros. by apply same_index_entry. }
      assert (entry w1 s (out_slot u) t = Some v) as E1 by (by erewrite same_index_entry).
      assert (∃ elems', set_at (objects w1) v = Some elems' ∧ VObj e ∈ elems') as Hin.
      { eexists. split; [done|]. case_bool_decide; [done|].
        apply elem_of_app. right. by apply list_elem_of_singleton. }
      destruct (decide (VStr s = VStr t)) as [Est|Est]; [apply wp_ret|].
      * apply (installed_intro _ _ _ _ _ _ v);
          [exact Hinv1|apply Hsame|exact Hk1|exact E1|intros ?; congruence|by rewrite Hmulti].
      * assert (s ≠ t) as Hst by congruence.
        assert (entry w1 t (in_slot u) s = Some v) as E2.
        { erewrite same_index_entry by done. destruct (Hsh s t Hst) as [H1 H2].
          destruct u; simpl in *; congruence. }
        apply wp_bind. eapply wp_read_entry;
          [apply Hinv1| by rewrite (proj1 Hsame) | by rewrite (proj1 Hsame), carries_out_in |].
        rewrite E2. simpl. rewrite bool_decide_eq_false_2 by done. simpl.
        apply (installed_intro _ _ _ _ _ _ v);
          [exact Hinv1|apply Hsame|exact Hk1|exact E1|done|by rewrite Hmulti].
    + wp_step.
      destruct (decide (VStr s = VStr t)) as [Est|Est]; [apply wp_ret|].
      * apply (installed_intro _ _ _ _ _ _ v);
          [exact Hinv|done|apply kinds_kept_refl|exact Efound|intros ?; congruence|].
        rewrite Hmulti. congruence.
      * assert (s ≠ t) as Hst by congruence.
        assert (entry w t (in_slot u) s = Some v) as E2.
        { destruct (Hsh s t Hst) as [H1 H2]. destruct u; simpl in *; congruence. }
        apply wp_bind. eapply wp_read_entry; [done|done|by rewrite carries_out_in|].
        rewrite E2. simpl. rewrite bool_decide_eq_false_2 by done. simpl.
        apply (installed_intro _ _ _ _ _ _ v);
          [exact Hinv|done|apply kinds_kept_refl|exact Efound|done|].
        rewrite Hmulti. congruence.
  - (* no entry yet *)
    destruct (opt_multi (_options (this w))) eqn:Hmulti; simpl.
    + apply wp_bind. apply wp_bind. apply wp_new_Set. intros ln w1 Hfresh Hsame1 Hset1 Hothers1.
      assert (node_table_ok w1) as Hok1 by (by eapply same_index_node_table).
      apply wp_bind. eapply wp_write_entry;
        [done|by rewrite (proj1 Hsame1)|by rewrite (proj1 Hsame1)|].
      intros w2 Hre2. wp_step.
      apply wp_bind. eapply wp_Set_add.
      { destruct Hre2 as (_&_&_&Hs2&_). by rewrite Hs2. }
      intros w3 Hsame3 Hset3 Hothers3.
      rewrite bool_decide_eq_false_2 in Hset3 by apply not_elem_of_nil.
      change ([] ++ [VObj e]) with [VObj e] in Hset3.
      assert (this w3 = this w) as Hthis3.
      { rewrite (proj1 Hsame3). destruct Hre2 as (->&_). apply Hsame1. }
      assert (node_table_ok w3) as Hok3.
      { eapply same_index_node_table; [done|]. apply Hre2. }
      assert (kinds_kept w w3) as Hk3.
      { eapply kinds_kept_trans; [|eapply kinds_kept_trans].
        - apply same_index_kinds; [done|]. intros x Hx.
          destruct (decide (x = VObj ln)) as [->|Hne]; [by rewrite Hset1|by rewrite Hothers1].
        - by eapply retargeted_kinds.
        - apply same_index_kinds; [done|]. intros x Hx.
          destruct (decide (x = VObj ln)) as [->|Hne]; [by rewrite Hset3|by rewrite Hothers3]. }
      assert (∀ a s' k, entry w3 a s' k
         = if decide (a = s ∧ s' = out_slot u ∧ k = t) then Some (VObj ln)
           else entry w a s' k) as He3.
      { intros a s' k. erewrite same_index_entry by done.
        destruct Hre2 as (_&_&->&_). case_decide; [done|]. by apply same_index_entry. }
      assert (VObj e ∈ [VObj e]) as Hin by (by apply list_elem_of_singleton).
      destruct (decide (VStr s = VStr t)) as [Est|Est]; [apply wp_ret|].
      * injection Est as <-.
        apply (installed_intro _ _ _ _ _ _ (VObj ln)); [|exact Hthis3|exact Hk3| |done|].
        -- eapply (inv_install_loop w w3 u s (VObj ln)); try done.
           rewrite Hmulti, Hset3. eauto.
        -- by rewrite He3, decide_True.
        -- rewrite Hmulti. eauto.
      * assert (s ≠ t) as Hst by congruence.
        assert (entry w3 t (in_slot u) s = None) as E2.
        { rewrite He3. rewrite decide_False by (intros (?&?&?); congruence).
          destruct (Hsh s t Hst) as [H1 H2]. destruct u; simpl in *; congruence. }
        apply wp_bind. eapply wp_read_entry;
          [done| by rewrite Hthis3 | by rewrite Hthis3, carries_out_in |].
        rewrite E2. simpl.
        eapply wp_write_entry; [done| by rewrite Hthis3 | by rewrite Hthis3, carries_out_in |].
        intros w4 Hre4.
        assert (this w4 = this w) as Hthis4 by (destruct Hre4 as (->&_); done).
        assert (kinds_kept w w4) as Hk4.
        { eapply kinds_kept_trans; [done|]. by eapply retargeted_kinds. }
        assert (∀ a s' k, entry w4 a s' k
           = if decide (a = t ∧ s' = in_slot u ∧ k = s) then Some (VObj ln)
             else if decide (a = s ∧ s' = out_slot u ∧ k = t) then Some (VObj ln)
             else entry w a s' k) as He4.
        { intros a s' k. destruct Hre4 as (_&_&->&_). by rewrite He3. }
        assert (set_at (objects w4) (VObj ln) = Some [VObj e]) as Hset4.
        { destruct Hre4 as (_&_&_&->&_). done. }
        apply (installed_intro _ _ _ _ _ _ (VObj ln)); [|exact Hthis4|exact Hk4| | |].
        -- eapply (inv_install_pair w w4 u s t (VObj ln)); try done; [apply Hre4|].
           rewrite Hmulti, Hset4. eauto.
        -- rewrite He4. rewrite decide_False by (intros (?&?&?); congruence).
           by rewrite decide_True.
        -- intros _. by rewrite He4, decide_True.
        -- rewrite Hmulti. eauto.
    + apply wp_bind. wp_step.
      apply wp_bind. eapply wp_write_entry; [done..|].
      intros w2 Hre2. wp_step. wp_step.
      assert (this w2 = this w) as Hthis2 by (destruct Hre2 as (->&_); done).
      assert (node_table_ok w2) as Hok2 by apply Hre2.
      assert (kinds_kept w w2) as Hk2 by (by eapply retargeted_kinds).
      assert (∀ a s' k, entry w2 a s' k
         = if decide (a = s ∧ s' = out_slot u ∧ k = t) then Some (VObj e)
           else entry w a s' k) as He2 by apply Hre2.
      destruct (decide (VStr s = VStr t)) as [Est|Est]; [apply wp_ret|].
      * injection Est as <-.
        apply (installed_intro _ _ _ _ _ _ (VObj e)); [|exact Hthis2|exact Hk2| |done|].
        -- eapply (inv_install_loop w w2 u s (VObj e)); try done.
           rewrite Hmulti. by apply Hk2.
        -- by rewrite He2, decide_True.
        -- by rewrite Hmulti.
      * assert (s ≠ t) as Hst by congruence.
        assert (entry w2 t (in_slot u) s = None) as E2.
        { rewrite He2. rewrite decide_False by (intros (?&?&?); congruence).
          destruct (Hsh s t Hst) as [H1 H2]. destruct u; simpl in *; congruence. }
        apply wp_bind. eapply wp_read_entry;
          [done| by rewrite Hthis2 | by rewrite Hthis2, carries_out_in |].
        rewrite E2. simpl.
        eapply wp_write_entry; [done| by rewrite Hthis2 | by rewrite Hthis2, carries_out_in |].
        intros w4 Hre4.
        assert (this w4 = this w) as Hthis4 by (destruct Hre4 as (->&_); done).
        assert (kinds_kept w w4) as Hk4.
        { eapply kinds_kept_trans; [done|]. by eapply retargeted_kinds. }
        assert (∀ a s' k, entry w4 a s' k
           = if decide (a = t ∧ s' = in_slot u ∧ k = s) then Some (VObj e)
             else if decide (a = s ∧ s' = out_slot u ∧ k = t) then Some (VObj e)
             else entry w a s' k) as He4.
        { intros a s' k. destruct Hre4 as (_&_&->&_). by rewrite He2. }
        apply (installed_intro _ _ _ _ _ _ (VObj e)); [|exact Hthis4|exact Hk4| | |].
        -- eapply (inv_install_pair w w4 u s t (VObj e)); try done; [apply Hre4|].
           rewrite Hmulti. by apply Hk4.
        -- rewrite He4. rewrite decide_False by (intros (?&?&?); congruence).
           by rewrite decide_True.
        -- intros _. by rewrite He4, decide_True.
        -- by rewrite Hmulti.
Qed.

Lemma inv_remove w w' u s t :
  index_inv w → node_table_ok w' → this w' = this w → kinds_kept w w' →
  (∀ a s' k, entry w' a s' k
     = if decide (a = t ∧ s' = in_slot u ∧ k = s) then None
       else if decide (a = s ∧ s' = out_slot u ∧ k = t) then None
       else entry w a s' k) →
  index_inv w'.
Proof.
  intros (Hok & Hent & Hsh & Hns) Hok' Ht Hk He. split; [done|]. split; [|split].
  - eapply entries_ok_kept; eauto. intros a s' b v. rewrite He.
    repeat case_decide; try done. by left.
  - intros a b Hab. destruct (Hsh a b Hab) as [H1 H2]. rewrite !He.
    destruct u; simpl in *; repeat case_decide; destruct_and?; simplify_eq; try done;
      try (split; done); exfalso; naive_solver.
  - intros a. rewrite He. repeat case_decide; try done.
Qed.

Lemma has_entry_not_carried w a l s k :
  node_table_ok w → _nodes (this w) !! a = Some l →
  carries (opt_type (_options (this w))) s = false →
  has_entry (VObj l) s (VStr k) w = (Throw TypeError, w).
Proof.
  intros Hok Ha Hc. pose proof (not_carried_slot w a l s Hok Ha Hc) as Hn.
  unfold has_entry, read_slot. rewrite bind_run. by rewrite Hn.
Qed.

Lemma read_entry_not_carried w a l s k :
  node_table_ok w → _nodes (this w) !! a = Some l →
  carries (opt_type (_options (this w))) s = false →
  read_entry (VObj l) s (VStr k) w = (Throw TypeError, w).
Proof.
  intros Hok Ha Hc. pose proof (not_carried_slot w a l s Hok Ha Hc) as Hn.
  unfold read_entry, read_slot. rewrite bind_run. by rewrite Hn.
Qed.

(** What the two index functions keep, whether they return or throw. *)
Lemma update_keeps_inv w u e s t :
  index_inv w → call_ok w (call_update u e s t) →
  index_inv (after (index_perform (call_update u e s t)) w).
Proof.
  intros Hinv (He & [ls Hs] & [lt Ht]). unfold after, index_perform, Indices.nodes_get.
  cbv [mbind M_bind gets]. rewrite Hs, Ht. simpl.
  destruct (carries (opt_type (_options (this w))) (out_slot u)) eqn:Hc.
  - by destruct (update_spec w u e s t ls lt Hinv He Hs Ht Hc) as (_ & H & _).
  - unfold Indices.updateStructureIndex. cbv [mbind M_bind gets]. simpl.
    change (if u then Undirected else Out) with (out_slot u).
    rewrite (read_entry_not_carried w s ls) by (done || apply Hinv). done.
Qed.

Lemma wp_bind_returns {A B} (m : M A) (f : A -> M B) Q w a w' :
  m w = (Return a, w') → wp (f a) Q w' → wp (m ≫= f) Q w.
Proof. intros E H. unfold wp. by rewrite (bind_returns m f w a w' E). Qed.

Lemma wp_bind_throws {A B} (m : M A) (f : A -> M B) (Q : outcome B -> World -> Prop) w e w' :
  m w = (Throw e, w') → Q (Throw e) w' → wp (m ≫= f) Q w.
Proof. intros E H. unfold wp. by rewrite (bind_throws m f w e w' E). Qed.

Lemma read_extremities_edge w e d :
  edge_at (objects w) (VObj e) = Some d →
  Indices.read_extremities (VObj e) w = (Return (e_source d, e_target d), w).
Proof. intros H. unfold Indices.read_extremities. by rewrite H. Qed.

Lemma read_key_node w l d :
  node_at (objects w) (VObj l) = Some d →
  Indices.read_key (VObj l) w = (Return (n_key d), w).
Proof. intros H. unfold Indices.read_key. by rewrite H. Qed.

Lemma clearEdge_spec w u e d s t ls lt :
  index_inv w → edge_at (objects w) (VObj e) = Some d →
  e_source d = VObj ls → e_target d = VObj lt →
  _nodes (this w) !! s = Some ls → _nodes (this w) !! t = Some lt →
  wp (Indices.clearEdgeFromStructureIndex (VBool u) (VObj e))
     (fun _ w' => index_inv w' ∧ this w' = this w ∧ kinds_kept w w') w.
Proof.
  intros Hinv Hd Hsrc Htgt Hs Ht. pose proof Hinv as (Hok & Hent & Hsh & Hns).
  destruct (Hok s ls Hs) as (ds & Hds & Hks & _).
  destruct (Hok t lt Ht) as (dt & Hdt & Hkt & _).
  unfold Indices.clearEdgeFromStructureIndex. wp_step.
  eapply wp_bind_returns; [by apply read_extremities_edge|]. rewrite Hsrc, Htgt.
  eapply wp_bind_returns; [by apply read_key_node|]. rewrite Hks.
  eapply wp_bind_returns; [by apply read_key_node|]. rewrite Hkt.
  change (if u then Undirected else Out) with (out_slot u).
  change (if u then Undirected else In) with (in_slot u).
  destruct (carries (opt_type (_options (this w))) (out_slot u)) eqn:Hc.
  2:{ eapply wp_bind_throws; [by eapply has_entry_not_carried|].
      split; [done|]. split; [done|apply kinds_kept_refl]. }
  assert (carries (opt_type (_options (this w))) (in_slot u) = true) as Hc'
    by (by rewrite carries_out_in).
  apply wp_bind. eapply wp_has_entry; [done..|].
  assert (∀ w1, retargeted w w1 s (out_slot u) t None →
    wp (delete_entry (VObj lt) (in_slot u) (VStr s))
       (fun _ w' => index_inv w' ∧ this w' = this w ∧ kinds_kept w w') w1) as Hboth.
  { intros w1 Hre1.
    assert (this w1 = this w) as Hthis1 by apply Hre1.
    eapply wp_delete_entry; [apply Hre1|by rewrite Hthis1|by rewrite Hthis1|].
    intros w2 Hre2.
    assert (this w2 = this w) as Hthis2 by (destruct Hre2 as (->&_); done).
    assert (kinds_kept w w2) as Hk2.
    { eapply kinds_kept_trans; by eapply retargeted_kinds. }
    split; [|done].
    eapply (inv_remove w w2 u s t); [done|apply Hre2|done|done|].
    intros a s' k. destruct Hre2 as (_&_&->&_). destruct Hre1 as (_&_&->&_). done. }
  assert (entry w s (out_slot u) t = None →
    wp (delete_entry (VObj lt) (in_slot u) (VStr s))
       (fun _ w' => index_inv w' ∧ this w' = this w ∧ kinds_kept w w') w) as Honly.
  { intros Hnone.
    eapply wp_delete_entry; [done..|].
    intros w2 Hre2.
    assert (this w2 = this w) as Hthis2 by apply Hre2.
    assert (kinds_kept w w2) as Hk2 by (by eapply retargeted_kinds).
    split; [|done].
    eapply (inv_remove w w2 u s t); [done|apply Hre2|done|done|].
    intros a s' k. destruct Hre2 as (_&_&->&_).
    case_decide; [done|]. case_decide as E; [|done].
    destruct E as (->&->&->). done. }
  destruct (entry w s (out_slot u) t) as [v|] eqn:Efound; simpl.
  - pose proof (Hent _ _ _ _ Efound) as Hkind.
    destruct (opt_multi (_options (this w))) eqn:Hmulti; simpl.
    + destruct Hkind as [elems Helems].
      apply wp_bind. apply wp_bind. eapply wp_read_entry; [done..|].
      rewrite Efound. simpl.
      apply wp_bind. eapply wp_read_size; [done|]. simpl.
      destruct (decide (Some (length elems) = Some 1%nat)) as [E1|E1].
      * apply wp_bind. eapply wp_delete_entry; [done..|]. intros w1 Hre1.
        eapply wp_mono; [by apply Hboth|]. intros [[]|err] w2 H2; [wp_step|]; exact H2.
      * eapply wp_Set_delete; [done|]. intros w1 Hsame Hset Hothers. wp_step.
        assert (kinds_kept w w1) as Hk1.
        { apply same_index_kinds; [done|]. intros x Hx.
          destruct (decide (x = v)) as [->|Hne]; [done|by rewrite Hothers]. }
        split; [|split; [apply Hsame|done]].
        eapply inv_same_entries; [done|by eapply same_index_node_table|apply Hsame|done|].
        intros. by apply same_index_entry.
    + apply wp_bind. eapply wp_delete_entry; [done..|]. intros w1 Hre1.
      by apply Hboth.
  - wp_step.
    destruct (opt_multi (_options (this w))) eqn:Hmulti; simpl.
    + wp_step. split; [done|]. split; [done|apply kinds_kept_refl].
    + by apply Honly.
Qed.

Lemma perform_keeps_inv w c :
  index_inv w → call_ok w c → index_inv (after (index_perform c) w).
Proof.
  intros Hinv Hc. destruct c as [u e s t|u e].
  - by apply update_keeps_inv.
  - destruct Hc as (d & s & t & ls & lt & Hd & Hsrc & Htgt & Hs & Ht).
    by destruct (clearEdge_spec w u e d s t ls lt Hinv Hd Hsrc Htgt Hs Ht) as [H _].
Qed.

Lemma maintained_inv w : maintained w → index_inv w.
Proof.
  induction 1 as [w Hok Hempty|w c _ IH Hc].
  - split; [done|]. split; [|split].
    + intros a s b v. by rewrite Hempty.
    + intros a b _. by rewrite !Hempty.
    + intros a. apply Hempty.
  - by apply perform_keeps_inv.
Qed.

(** ** Upgrading a simple index to a multi one *)

Lemma ltb_total a b : String.ltb a b = false → String.ltb b a = false → a = b.
Proof.
  unfold String.ltb. intros Hab Hba.
  destruct (String.compare a b) eqn:E; [by apply String.compare_eq_iff|done|].
  rewrite String.compare_antisym, E in Hba. done.
Qed.

Lemma wp_with {A} (m : M A) (P Q : outcome A -> World -> Prop) w :
  P (m w).1 (m w).2 → wp m (fun r w' => P r w' → Q r w') w → wp m Q w.
Proof. unfold wp. auto. Qed.

Lemma dom_put_slot data s r w : dom (objects (put_slot data s r w).2) = dom (objects w).
Proof.
  unfold put_slot. destruct data as [| | | |l]; try done.
  cbv [mbind M_bind gets mret M_ret]. simpl.
  destruct (objects w !! l) as [[]|] eqn:E; try done. simpl.
  rewrite dom_insert_L. apply elem_of_dom_2 in E. clear -E. set_solver.
Qed.

Lemma dom_write_entry data s k v w :
  dom (objects (write_entry data s k v w).2) = dom (objects w).
Proof.
  unfold write_entry. rewrite bind_run.
  destruct (read_slot data s w) as [[[r|]|e] w1] eqn:E.
  - assert (w1 = w) as -> by (by rewrite <-(observer_read_slot data s w), E).
    rewrite bind_run. simpl. apply dom_put_slot.
  - by rewrite <-(observer_read_slot data s w), E.
  - by rewrite <-(observer_read_slot data s w), E.
Qed.

Lemma dom_Set_add s x w : dom (objects (Set_add s x w).2) = dom (objects w).
Proof.
  unfold Set_add. cbv [mbind M_bind gets mret M_ret]. simpl.
  destruct s as [| | | |l]; try done. simpl.
  destruct (objects w !! l) as [[]|] eqn:E; try done. simpl.
  rewrite dom_insert_L. apply elem_of_dom_2 in E. clear -E. set_solver.
Qed.

Lemma wp_fresh_Set w (Q : outcome jsval -> World -> Prop) :
  (∀ l w', objects w !! l = None → same_index w w' →
     dom (objects w') = {[l]} ∪ dom (objects w) →
     set_at (objects w') (VObj l) = Some [] →
     (∀ x, x ≠ VObj l → set_at (objects w') x = set_at (objects w) x) →
     Q (Return (VObj l)) w') →
  wp new_Set Q w.
Proof.
  intros HQ. unfold new_Set. apply wp_alloc. intros l Hl. apply HQ; [done| | | |].
  - split; [done|]. split; intros [| | | |x]; try done; simpl;
      (destruct (decide (x = l)) as [->|Hne];
         [by rewrite lookup_insert_eq, Hl|by rewrite lookup_insert_ne]).
  - simpl. by rewrite dom_insert_L.
  - simpl. by rewrite lookup_insert_eq.
  - intros [| | | |x] Hx; try done. simpl. rewrite lookup_insert_ne; [done|]. congruence.
Qed.

(** The body that the two loops share: a new set around the entry, stored on
    the two sides. *)
Lemma wrap_spec w a la b lb s s' v (Q : outcome unit -> World -> Prop) :
  node_table_ok w →
  _nodes (this w) !! a = Some la → _nodes (this w) !! b = Some lb →
  carries (opt_type (_options (this w))) s = true →
  carries (opt_type (_options (this w))) s' = true →
  entry w a s b = Some v →
  (∀ l w', wrapped_pair w w' a s b s' v l → Q (Return tt) w') →
  wp (edges ← new_Set;
      entry ← read_entry (VObj la) s (VStr b);
      Set_add edges entry;;
      write_entry (VObj la) s (VStr b) edges;;
      other ← Indices.nodes_get b;
      write_entry other s' (VStr a) edges) Q w.
Proof.
  intros Hok Ha Hb Hs Hs' Hv HQ.
  apply wp_bind, wp_fresh_Set. intros l w1 Hl H1 Hd1 Hset1 Hsets1.
  destruct H1 as (Ht1 & Hn1 & He1).
  assert (same_index w w1) as Hsame1 by done.
  pose proof (same_index_node_table w w1 Hsame1 Hok) as Hok1.
  apply wp_bind. apply (wp_read_entry w1 a); [done|by rewrite Ht1|by rewrite Ht1|].
  rewrite (same_index_entry w w1) by done. rewrite Hv. simpl.
  apply wp_bind.
  apply (wp_with _ (fun _ w' => dom (objects w') = dom (objects w1))); [apply dom_Set_add|].
  eapply wp_Set_add; [done|]. intros w2 Hsame2 Hset2 Hsets2 Hd2. simpl in Hset2.
  pose proof (same_index_node_table w1 w2 Hsame2 Hok1) as Hok2.
  destruct Hsame2 as (Ht2 & Hn2 & He2).
  assert (same_index w1 w2) as Hsame2 by done.
  apply wp_bind.
  apply (wp_with _ (fun _ w' => dom (objects w') = dom (objects w2))); [apply dom_write_entry|].
  apply (wp_write_entry w2 a); [done|by rewrite Ht2, Ht1|by rewrite Ht2, Ht1|].
  intros w3 (Ht3 & Hok3 & Hent3 & Hsets3 & He3) Hd3.
  apply wp_bind. unfold Indices.nodes_get. apply wp_gets.
  rewrite Ht3, Ht2, Ht1, Hb. simpl.
  apply (wp_with _ (fun _ w' => dom (objects w') = dom (objects w3))); [apply dom_write_entry|].
  apply (wp_write_entry w3 b); [done|by rewrite Ht3, Ht2, Ht1|by rewrite Ht3, Ht2, Ht1|].
  intros w4 (Ht4 & Hok4 & Hent4 & Hsets4 & He4) Hd4.
  apply (HQ l). unfold wrapped_pair.
  split; [congruence|]. split; [done|].
  split; [congruence|]. split; [done|].
  split; [by rewrite Hsets4, Hsets3|].
  split; [intros x Hx; by rewrite Hsets4, Hsets3, Hsets2, Hsets1|].
  split; [intros x; by rewrite He4, He3, He2, He1|].
  intros a' s'' k'. rewrite Hent4, Hent3.
  rewrite (same_index_entry w1 w2), (same_index_entry w w1) by done.
  destruct (decide (a' = b ∧ s'' = s' ∧ k' = a)) as [E1|E1];
    destruct (decide (a' = a ∧ s'' = s ∧ k' = b)) as [E2|E2];
    case_decide as E3; try done; exfalso; tauto.
Qed.

Lemma upgrading_start w : node_table_ok w → upgrading w (fun _ _ => False) (fun _ _ => False) w.
Proof.
  intros Hok. unfold upgrading. repeat split; try done; try tauto.
  intros l Hl [o Ho]. congruence.
Qed.

Lemma upgrading_proper w0 dn dn' un un' w :
  (∀ a b, dn a b ↔ dn' a b) → (∀ a b, un a b ↔ un' a b) →
  upgrading w0 dn un w → upgrading w0 dn' un' w.
Proof.
  intros Hdn Hun (H1 & H2 & H3 & H4 & H5 & H6 & H7 & H8 & H9).
  split; [done|]. split; [done|].
  split; [intros a b Hab; apply H3; by apply Hdn|].
  split; [intros a b Hab; apply H4; by rewrite Hdn|].
  split; [intros a b Hab; apply H5; by rewrite !Hun|].
  split; [intros a b Hab; apply H6; by rewrite !Hun|].
  split; [|done].
  intros l Hl Hl'. destruct (H7 l Hl Hl') as (a & b & [[? ?]|[? ?]]); exists a, b.
  - left. split; [by apply Hdn|done].
  - right. split; [by apply Hun|done].
Qed.

Lemma wrapped_kept w0 w w' v x l :
  wrapped w0 w v x → objects w !! l = None →
  (∀ y, y ≠ VObj l → set_at (objects w') y = set_at (objects w) y) →
  wrapped w0 w' v x.
Proof.
  intros (l' & -> & Hl' & Hset) Hl Hsets. exists l'. split; [done|]. split; [done|].
  rewrite Hsets; [done|]. intros [= ->]. simpl in Hset. by rewrite Hl in Hset.
Qed.

Lemma fresh_before w0 w l :
  (∀ l', is_Some (objects w0 !! l') → is_Some (objects w !! l')) →
  objects w !! l = None → objects w0 !! l = None.
Proof.
  intros Hgrow Hl. destruct (objects w0 !! l) eqn:E; [|done].
  destruct (Hgrow l) as [o' Ho]; [by eauto|congruence].
Qed.

Lemma new_object w w' l l' :
  dom (objects w') = {[l]} ∪ dom (objects w) →
  is_Some (objects w' !! l') → l' = l ∨ is_Some (objects w !! l').
Proof.
  intros Hd Hl'. apply elem_of_dom in Hl'. rewrite Hd in Hl'.
  apply elem_of_union in Hl' as [Hl'|Hl']; [left; set_solver|right; by apply elem_of_dom].
Qed.

Lemma old_object w w' l l' :
  dom (objects w') = {[l]} ∪ dom (objects w) →
  is_Some (objects w !! l') → is_Some (objects w' !! l').
Proof. intros Hd Hl'. apply elem_of_dom. rewrite Hd. apply elem_of_dom in Hl'. set_solver. Qed.

(** Converting one directed pair. *)
Lemma upgrading_wrap_out w0 dn un w w' a b v l :
  upgrading w0 dn un w → ¬ dn a b → entry w0 a Out b = Some v →
  wrapped_pair w w' a Out b In v l →
  upgrading w0 (fun x y => dn x y ∨ (x = a ∧ y = b)) un w'.
Proof.
  intros (H1 & H2 & H3 & H4 & H5 & H6 & H7 & H8 & H9) Hab Hv
    (P1 & P2 & P3 & P4 & P5 & P6 & P7 & P8).
  assert (∀ c s d, ¬ (c = a ∧ d = b) → s ≠ Undirected →
            (s = Out → entry w' c s d = entry w c s d) ∧
            (s = In → entry w' d s c = entry w d s c)) as Hother.
  { intros c s d Hcd Hs. split; intros ->; rewrite P8;
      (rewrite decide_False; [done|]); intros [(?&?&?)|(?&?&?)]; try done; tauto. }
  assert (∀ c d, entry w' c Undirected d = entry w c Undirected d) as Hund.
  { intros c d. rewrite P8. rewrite decide_False; [done|].
    intros [(?&?&?)|(?&?&?)]; done. }
  split; [congruence|]. split; [done|].
  split; [|split; [|split; [|split; [|split; [|split]]]]].
  - intros c d [Hcd|[-> ->]].
    + destruct (H3 c d Hcd) as (v' & x & Hv' & Hw & Ho & Hi).
      assert (¬ (c = a ∧ d = b)) as Hne by (intros [-> ->]; done).
      exists v', x. split; [done|]. split; [by eapply wrapped_kept|].
      destruct (Hother c Out d Hne) as [Eo _]; [done|].
      destruct (Hother c In d Hne) as [_ Ei]; [done|].
      by rewrite Eo, Ei.
    + exists v, (VObj l). split; [done|]. split.
      * exists l. split; [done|]. split; [by eapply fresh_before|done].
      * split; rewrite P8; rewrite decide_True; tauto.
  - intros c d Hcd.
    assert (¬ (c = a ∧ d = b)) as Hne by tauto.
    destruct (Hother c Out d Hne) as [Eo _]; [done|].
    destruct (Hother c In d Hne) as [_ Ei]; [done|].
    rewrite Eo, Ei by done. apply H4. tauto.
  - intros c d Hcd. destruct (H5 c d Hcd) as (v' & x & Hv' & Hw & Ho & Hi).
    exists v', x. split; [done|]. split; [by eapply wrapped_kept|]. by rewrite !Hund.
  - intros c d Hcd. rewrite Hund. by apply H6.
  - intros l' Hl' Hin. destruct (new_object w w' l l' P3 Hin) as [->|Hold].
    + exists a, b. left. split; [tauto|]. rewrite P8. rewrite decide_True; tauto.
    + destruct (H7 l' Hl' Hold) as (c & d & [[Hcd He]|[Hcd He]]); exists c, d.
      * left. split; [tauto|].
        assert (¬ (c = a ∧ d = b)) as Hne by (intros [-> ->]; done).
        destruct (Hother c Out d Hne) as [Eo _]; [done|]. by rewrite Eo.
      * right. split; [done|]. by rewrite Hund.
  - intros l' Hl'. eapply old_object; [done|]. by apply H8.
  - intros x. by rewrite P7.
Qed.

(** Converting one undirected pair. *)
Lemma upgrading_wrap_und w0 dn un w w' a b v l :
  upgrading w0 dn un w → ¬ (un a b ∨ un b a) →
  entry w0 a Undirected b = Some v → entry w0 b Undirected a = Some v →
  wrapped_pair w w' a Undirected b Undirected v l →
  upgrading w0 dn (fun x y => un x y ∨ (x = a ∧ y = b)) w'.
Proof.
  intros (H1 & H2 & H3 & H4 & H5 & H6 & H7 & H8 & H9) Hab Hv Hv'
    (P1 & P2 & P3 & P4 & P5 & P6 & P7 & P8).
  assert (∀ c s d, s ≠ Undirected → entry w' c s d = entry w c s d) as Hdir.
  { intros c s d Hs. rewrite P8. rewrite decide_False; [done|].
    intros [(?&?&?)|(?&?&?)]; done. }
  assert (∀ c d, ¬ (c = a ∧ d = b) → ¬ (c = b ∧ d = a) →
            entry w' c Undirected d = entry w c Undirected d) as Hother.
  { intros c d Hn1 Hn2. rewrite P8. rewrite decide_False; [done|].
    intros [(?&?&?)|(?&?&?)]; tauto. }
  assert (entry w' a Undirected b = Some (VObj l)) as Hnew1.
  { rewrite P8. rewrite decide_True; tauto. }
  assert (entry w' b Undirected a = Some (VObj l)) as Hnew2.
  { rewrite P8. rewrite decide_True; tauto. }
  assert (wrapped w0 w' v (VObj l)) as Hwrapped.
  { exists l. split; [done|]. split; [by eapply fresh_before|done]. }
  split; [congruence|]. split; [done|].
  split; [|split; [|split; [|split; [|split; [|split]]]]].
  - intros c d Hcd. destruct (H3 c d Hcd) as (v' & x & Hv0 & Hw & Ho & Hi).
    exists v', x. split; [done|]. split; [by eapply wrapped_kept|].
    by rewrite !Hdir.
  - intros c d Hcd. rewrite !Hdir by done. by apply H4.
  - intros c d [[Hcd|[-> ->]]|[Hcd|[-> ->]]].
    + destruct (H5 c d) as (v' & x & Hv0 & Hw & Ho & Hi); [tauto|].
      exists v', x. split; [done|]. split; [by eapply wrapped_kept|].
      rewrite !Hother; [done|intros [-> ->]; tauto..].
    + by exists v, (VObj l).
    + destruct (H5 c d) as (v' & x & Hv0 & Hw & Ho & Hi); [tauto|].
      exists v', x. split; [done|]. split; [by eapply wrapped_kept|].
      rewrite !Hother; [done|intros [-> ->]; tauto..].
    + by exists v, (VObj l).
  - intros c d Hcd. rewrite Hother; [apply H6; tauto|tauto..].
  - intros l' Hl' Hin. destruct (new_object w w' l l' P3 Hin) as [->|Hold].
    + exists a, b. right. split; [tauto|done].
    + destruct (H7 l' Hl' Hold) as (c & d & [[Hcd He]|[Hcd He]]); exists c, d.
      * left. split; [done|]. by rewrite Hdir.
      * right. split; [tauto|].
        rewrite Hother; [done|intros [-> ->]; tauto..].
  - intros l' Hl'. eapply old_object; [done|]. by apply H8.
  - intros x. by rewrite P7.
Qed.

Lemma for_each_cons {A} (x : A) l body :
  for_each (x :: l) body = (body x ≫= fun _ => for_each l body).
Proof. reflexivity. Qed.

Lemma entry_node w a s b v : entry w a s b = Some v → is_Some (_nodes (this w) !! a).
Proof. unfold entry. destruct (_nodes (this w) !! a); [eauto|done]. Qed.

(** The loop over the outbound register of [a]. *)
Lemma out_loop w0 a la un ks : ∀ dn w,
  NoDup ks → upgrading w0 dn un w →
  _nodes (this w0) !! a = Some la →
  carries (opt_type (_options (this w0))) Out = true →
  (∀ b, b ∈ ks → ¬ dn a b ∧ is_Some (entry w0 a Out b) ∧ is_Some (_nodes (this w0) !! b)) →
  wp (for_each ks (Indices.upgrade_out (VObj la) a))
     (fun r w' => r = Return tt ∧ upgrading w0 (fun x y => dn x y ∨ (x = a ∧ y ∈ ks)) un w') w.
Proof.
  induction ks as [|b ks IH]; intros dn w Hnd Hup Ha Hc Hks.
  - split; [done|]. eapply upgrading_proper; [| |exact Hup]; [|done].
    intros x y. split; [tauto|]. intros [?|[_ H]]; [done|]. by apply not_elem_of_nil in H.
  - rewrite for_each_cons. apply NoDup_cons in Hnd as [Hb Hnd].
    destruct (Hks b) as (Hdn & [v Hv] & [lb Hlb]); [left|].
    pose proof Hup as (Ht & Hok & _ & Hkeep & _).
    apply wp_bind. unfold Indices.upgrade_out.
    apply (wrap_spec w a la b lb Out In v); try (by rewrite Ht); [done| |].
    { destruct (Hkeep a b Hdn) as [-> _]. done. }
    intros l w1 Hpair.
    pose proof (upgrading_wrap_out w0 dn un w w1 a b v l Hup Hdn Hv Hpair) as Hup1.
    eapply wp_mono; [apply (IH _ w1 Hnd Hup1 Ha Hc)|].
    + intros b' Hb'. destruct (Hks b') as (? & ? & ?); [by right|].
      split; [|done]. intros [?|[_ ->]]; done.
    + intros r w2 [-> Hup2]. split; [done|].
      eapply upgrading_proper; [| |exact Hup2]; [|done].
      intros x y. rewrite elem_of_cons. tauto.
Qed.

(** The loop over the undirected register of [a]: a neighbor greater than
    [a] is passed over. *)
Lemma und_loop w0 a la dn ks : ∀ un w,
  NoDup ks → upgrading w0 dn un w → shared w0 →
  _nodes (this w0) !! a = Some la →
  carries (opt_type (_options (this w0))) Undirected = true →
  (∀ b, b ∈ ks → is_Some (entry w0 a Undirected b) ∧ is_Some (_nodes (this w0) !! b) ∧
                 (String.ltb a b = false → ¬ (un a b ∨ un b a))) →
  wp (for_each ks (Indices.upgrade_undirected (VObj la) a))
     (fun r w' => r = Return tt ∧
        upgrading w0 dn (fun x y => un x y ∨ (x = a ∧ y ∈ ks ∧ String.ltb a y = false)) w') w.
Proof.
  induction ks as [|b ks IH]; intros un w Hnd Hup Hsh Ha Hc Hks.
  - split; [done|]. eapply upgrading_proper; [| |exact Hup]; [done|].
    intros x y. split; [tauto|]. intros [?|(_ & H & _)]; [done|]. by apply not_elem_of_nil in H.
  - rewrite for_each_cons. apply NoDup_cons in Hnd as [Hb Hnd].
    destruct (Hks b) as ([v Hv] & [lb Hlb] & Hun); [left|].
    pose proof Hup as (Ht & Hok & _ & _ & _ & Hkeep & _).
    apply wp_bind. unfold Indices.upgrade_undirected.
    destruct (String.ltb a b) eqn:Hlt.
    + apply wp_ret.
      eapply wp_mono; [apply (IH _ w Hnd Hup Hsh Ha Hc)|].
      * intros b' Hb'. destruct (Hks b') as (? & ? & ?); [by right|]. done.
      * intros r w2 [-> Hup2]. split; [done|].
        eapply upgrading_proper; [| |exact Hup2]; [done|].
        intros x y. rewrite elem_of_cons. split; [tauto|].
        intros [?|(-> & [->|?] & ?)]; [tauto|congruence|tauto].
    + specialize (Hun eq_refl).
      assert (entry w0 b Undirected a = Some v) as Hv'.
      { destruct (decide (a = b)) as [->|Hne]; [done|].
        destruct (Hsh a b Hne) as [_ <-]. done. }
      apply (wrap_spec w a la b lb Undirected Undirected v); try (by rewrite Ht); [done| |].
      { by rewrite (Hkeep a b Hun). }
      intros l w1 Hpair.
      pose proof (upgrading_wrap_und w0 dn un w w1 a b v l Hup Hun Hv Hv' Hpair) as Hup1.
      eapply wp_mono; [apply (IH _ w1 Hnd Hup1 Hsh Ha Hc)|].
      * intros b' Hb'. destruct (Hks b') as (? & ? & Hun'); [by right|].
        split; [done|]. split; [done|]. intros Hlt' [[?|[_ ->]]|[?|[-> ?]]].
        -- apply Hun'; tauto.
        -- done.
        -- apply Hun'; tauto.
        -- subst. done.
      * intros r w2 [-> Hup2]. split; [done|].
        eapply upgrading_proper; [| |exact Hup2]; [done|].
        intros x y. rewrite elem_of_cons. split; [|tauto].
        intros [[?|[-> ->]]|?]; [tauto| |tauto]. right. tauto.
Qed.

Lemma ltb_asym a b : String.ltb a b = true → String.ltb b a = false.
Proof.
  unfold String.ltb. rewrite (String.compare_antisym a b).
  by destruct (String.compare b a).
Qed.

Lemma keys_spec (keys : register -> list string) (r : register) :
  keys r ≡ₚ (map_to_list r).*1 →
  NoDup (keys r) ∧ ∀ b, b ∈ keys r ↔ is_Some (r !! b).
Proof.
  intros Hk. split.
  - rewrite Hk. apply NoDup_fst_map_to_list.
  - intros b. rewrite Hk, list_elem_of_fmap. split.
    + intros ([b' v] & -> & Hin). apply elem_of_map_to_list in Hin. eauto.
    + intros [v Hv]. exists (b, v). split; [done|]. by apply elem_of_map_to_list.
Qed.

Lemma wp_read_slot w a l s (Q : outcome (option register) -> World -> Prop) :
  node_table_ok w → _nodes (this w) !! a = Some l →
  (∀ o, match o with
        | Some r => carries (opt_type (_options (this w))) s = true ∧
                    ∀ k, entry w a s k = r !! k
        | None => carries (opt_type (_options (this w))) s = false ∧
                  ∀ k, entry w a s k = None
        end → Q (Return o) w) →
  wp (read_slot (VObj l) s) Q w.
Proof.
  intros Hok Ha HQ. unfold wp, read_slot. simpl.
  destruct (Hok a l Ha) as (d & Hd & _ & Hs). simpl in Hd.
  apply HQ. unfold entry. rewrite Ha. simpl. destruct (objects w !! l) as [[]|]; try done.
  injection Hd as ->. simpl.
  destruct (node_slot s d) as [r|] eqn:Er.
  - split; [|done]. apply Hs. eauto.
  - split; [|done]. destruct (carries _ s) eqn:Ec; [|done].
    apply Hs in Ec. rewrite Er in Ec. by destruct Ec.
Qed.

Lemma und_entry_iff w0 dn un w a b :
  upgrading w0 dn un w → (un a b ∨ un b a) ∨ ¬ (un a b ∨ un b a) →
  is_Some (entry w a Undirected b) ↔ is_Some (entry w0 a Undirected b).
Proof.
  intros (_ & _ & _ & _ & H5 & H6 & _) [Hd|Hd].
  - destruct (H5 a b Hd) as (v & x & -> & _ & -> & _). split; eauto.
  - by rewrite (H6 a b Hd).
Qed.

(** The first half of the body: the outbound register of [a]. *)
Lemma node_out keys w0 a la (P : string -> Prop) un w :
  (∀ r, keys r ≡ₚ (map_to_list r).*1) → shared w0 →
  upgrading w0 (out_done w0 P) un w → ¬ P a → _nodes (this w0) !! a = Some la →
  wp (o ← read_slot (VObj la) Out;
      match o with
      | Some r => for_each (keys r) (Indices.upgrade_out (VObj la) a)
      | None => mret tt
      end)
     (fun r w' => r = Return tt ∧ upgrading w0 (out_done w0 (fun x => P x ∨ x = a)) un w') w.
Proof.
  intros Hkeys Hsh Hup HP Ha.
  pose proof Hup as (Ht & Hok & _ & Hkeep & _).
  assert (∀ b, entry w a Out b = entry w0 a Out b) as Hsame.
  { intros b. apply Hkeep. intros [? _]. done. }
  apply wp_bind. apply (wp_read_slot w a); [done|by rewrite Ht|].
  intros [r|] [Hc Hr]; simpl.
  - destruct (keys_spec keys r (Hkeys r)) as [Hnd Hin].
    eapply wp_mono; [apply (out_loop w0 a la un (keys r) _ w Hnd Hup Ha)|].
    + by rewrite <-Ht.
    + intros b Hb. split; [intros [? _]; done|].
      assert (is_Some (entry w0 a Out b)) as Hsome.
      { rewrite <-Hsame, Hr. by apply Hin. }
      split; [done|].
      destruct (decide (a = b)) as [<-|Hne]; [eauto|].
      destruct (Hsh a b Hne) as [E _]. rewrite E in Hsome. destruct Hsome as [v Hv].
      by eapply entry_node.
    + intros res w1 [-> Hup1]. split; [done|].
      eapply upgrading_proper; [| |exact Hup1]; [|done].
      intros x y. unfold out_done. split.
      * intros [[? ?]|[-> Hy]]; [tauto|]. split; [tauto|].
        rewrite <-Hsame, Hr. by apply Hin.
      * intros [[? | ->] Hs]; [tauto|]. right. split; [done|].
        apply Hin. by rewrite <-Hr, Hsame.
  - apply wp_ret. split; [done|].
    eapply upgrading_proper; [| |exact Hup]; [|done].
    intros x y. unfold out_done. split; [tauto|].
    intros [[? | ->] Hs]; [tauto|]. rewrite <-Hsame, Hr in Hs. by destruct Hs.
Qed.

(** The second half: the undirected register of [a]. *)
Lemma node_und keys w0 a la (P : string -> Prop) dn w :
  (∀ r, keys r ≡ₚ (map_to_list r).*1) → shared w0 → (∀ x, P x ∨ ¬ P x) →
  upgrading w0 dn (und_done w0 P) w → ¬ P a → _nodes (this w0) !! a = Some la →
  wp (u ← read_slot (VObj la) Undirected;
      match u with
      | Some r => for_each (keys r) (Indices.upgrade_undirected (VObj la) a)
      | None => mret tt
      end)
     (fun r w' => r = Return tt ∧ upgrading w0 dn (und_done w0 (fun x => P x ∨ x = a)) w') w.
Proof.
  intros Hkeys Hsh Hdec Hup HP Ha.
  pose proof Hup as (Ht & Hok & _).
  assert (∀ b, String.ltb a b = false → ¬ (und_done w0 P a b ∨ und_done w0 P b a)) as Hnot.
  { intros b Hlt [[? _]|(Hb & Hlt' & _)]; [done|].
    assert (a = b) as -> by (by apply ltb_total). done. }
  assert (∀ b, is_Some (entry w a Undirected b) ↔ is_Some (entry w0 a Undirected b)) as Hsame.
  { intros b. eapply und_entry_iff; [done|].
    destruct (Hdec b) as [Hb|Hb].
    - destruct (String.ltb b a) eqn:Hlt.
      + right. intros [[? _]|(_ & ? & _)]; [done|congruence].
      + destruct (entry w0 b Undirected a) eqn:E.
        * left. right. split; [done|]. split; [done|]. eauto.
        * right. intros [[? _]|(_ & _ & [? ?])]; [done|congruence].
    - right. intros [[? _]|[? _]]; done. }
  apply wp_bind. apply (wp_read_slot w a); [done|by rewrite Ht|].
  intros [r|] [Hc Hr]; simpl.
  - destruct (keys_spec keys r (Hkeys r)) as [Hnd Hin].
    eapply wp_mono; [apply (und_loop w0 a la dn (keys r) _ w Hnd Hup Hsh Ha)|].
    + by rewrite <-Ht.
    + intros b Hb.
      assert (is_Some (entry w0 a Undirected b)) as Hsome.
      { apply Hsame. rewrite Hr. by apply Hin. }
      split; [done|]. split; [|by apply Hnot].
      destruct (decide (a = b)) as [<-|Hne]; [eauto|].
      destruct (Hsh a b Hne) as [_ E]. rewrite E in Hsome. destruct Hsome as [v Hv].
      by eapply entry_node.
    + intros res w1 [-> Hup1]. split; [done|].
      eapply upgrading_proper; [| |exact Hup1]; [done|].
      intros x y. unfold und_done. split.
      * intros [(? & ? & ?)|(-> & Hy & Hlt)]; [tauto|]. split; [tauto|]. split; [done|].
        apply Hsame. rewrite Hr. by apply Hin.
      * intros ([? | ->] & Hlt & Hs); [tauto|]. right. split; [done|]. split; [|done].
        apply Hin. rewrite <-Hr. by apply Hsame.
  - apply wp_ret. split; [done|].
    eapply upgrading_proper; [| |exact Hup]; [done|].
    intros x y. unfold und_done. split; [tauto|].
    intros ([? | ->] & Hlt & Hs); [tauto|]. apply Hsame in Hs. rewrite Hr in Hs. by destruct Hs.
Qed.

Lemma upgrading_visited w0 (P P' : string -> Prop) w :
  (∀ x, P x ↔ P' x) →
  upgrading w0 (out_done w0 P) (und_done w0 P) w →
  upgrading w0 (out_done w0 P') (und_done w0 P') w.
Proof.
  intros HP. apply upgrading_proper; intros a b; unfold out_done, und_done; by rewrite HP.
Qed.

Lemma wp_assoc {A B C} (m : M A) (f : A -> M B) (g : B -> M C) Q w :
  wp ((m ≫= f) ≫= g) Q w → wp (m ≫= fun a => f a ≫= g) Q w.
Proof. unfold wp. rewrite !bind_run. by destruct (m w) as [[a|e] w1]. Qed.

(** The body of the [forEach], for a node that has not been visited. *)
Lemma upgrade_node_spec keys w0 a la (P : string -> Prop) w :
  (∀ r, keys r ≡ₚ (map_to_list r).*1) → shared w0 → (∀ x, P x ∨ ¬ P x) →
  upgrading w0 (out_done w0 P) (und_done w0 P) w → ¬ P a →
  _nodes (this w0) !! a = Some la →
  wp (Indices.upgrade_node keys (VObj la) a)
     (fun r w' => r = Return tt ∧
        upgrading w0 (out_done w0 (fun x => P x ∨ x = a))
                     (und_done w0 (fun x => P x ∨ x = a)) w') w.
Proof.
  intros Hkeys Hsh Hdec Hup HP Ha. unfold Indices.upgrade_node.
  apply wp_assoc.
  apply wp_bind. eapply wp_mono; [by apply (node_out keys w0 a la P)|].
  intros r w1 [-> Hup1]. simpl.
  by apply (node_und keys w0 a la P).
Qed.

(** The [forEach] over the node table. *)
Lemma order_loop keys w0 order : ∀ (P : string -> Prop) w,
  (∀ r, keys r ≡ₚ (map_to_list r).*1) → shared w0 → (∀ x, P x ∨ ¬ P x) →
  NoDup order.*1 →
  (∀ a l, (a, l) ∈ order → _nodes (this w0) !! a = Some l ∧ ¬ P a) →
  upgrading w0 (out_done w0 P) (und_done w0 P) w →
  wp (for_each order (fun '(node, l) => Indices.upgrade_node keys (VObj l) node))
     (fun r w' => r = Return tt ∧
        upgrading w0 (out_done w0 (fun x => P x ∨ x ∈ order.*1))
                     (und_done w0 (fun x => P x ∨ x ∈ order.*1)) w') w.
Proof.
  induction order as [|[a la] order IH]; intros P w Hkeys Hsh Hdec Hnd Hin Hup.
  - split; [done|]. eapply upgrading_visited; [|exact Hup].
    intros x. split; [tauto|]. intros [?|H]; [done|]. by apply not_elem_of_nil in H.
  - rewrite for_each_cons. simpl in Hnd. apply NoDup_cons in Hnd as [Ha Hnd].
    destruct (Hin a la) as [Hla HPa]; [left|].
    apply wp_bind. eapply wp_mono; [by apply (upgrade_node_spec keys w0 a la P)|].
    intros r w1 [-> Hup1]. simpl.
    eapply wp_mono; [apply (IH (fun x => P x ∨ x = a) w1 Hkeys Hsh)|]; [| | | |].
    + intros x. destruct (Hdec x) as [?|?]; [tauto|].
      destruct (decide (x = a)) as [->|?]; tauto.
    + done.
    + intros b lb Hb. destruct (Hin b lb) as [? ?]; [by right|]. split; [done|].
      intros [? | ->]; [done|]. apply Ha. apply list_elem_of_fmap. by exists (a, lb).
    + done.
    + intros r w2 [-> Hup2]. split; [done|]. eapply upgrading_visited; [|exact Hup2].
      intros x. simpl. rewrite elem_of_cons. tauto.
Qed.

(** C8. Running the upgrade of [src/indices.js] on a simple structure index,
    whatever the order in which the node table and the registers are
    enumerated, returns normally and replaces every entry by a set created for
    it that holds that entry alone: the directed entry of a pair by one set
    that the source holds in [out] and the target in [in], the undirected entry
    of a pair by one set that the two nodes hold in [undirected], the pair
    being converted from the side that is not smaller than the other. No other
    object is created and no other entry, so that one undirected edge yields
    exactly one set, of one element. *)
Theorem upgrade_wraps_each_entry_once keys order w :
  opt_map (_options (this w)) = true →
  node_table_ok w → shared w → no_inbound_self w →
  order ≡ₚ map_to_list (_nodes (this w)) →
  (∀ r, keys r ≡ₚ (map_to_list r).*1) →
  result (Indices.upgrade_in_order keys order) w = Return tt ∧
  upgraded w (after (Indices.upgrade_in_order keys order) w).
Proof.
  intros Hmap Hok Hsh Hns Horder Hkeys.
  assert (NoDup order.*1) as Hnd.
  { rewrite Horder. apply NoDup_fst_map_to_list. }
  assert (∀ a l, (a, l) ∈ order ↔ _nodes (this w) !! a = Some l) as Hin.
  { intros a l. rewrite Horder. apply elem_of_map_to_list. }
  assert (∀ a, a ∈ order.*1 ↔ is_Some (_nodes (this w) !! a)) as Hin'.
  { intros a. rewrite list_elem_of_fmap. split.
    - intros ([a' l] & -> & H). apply Hin in H. eauto.
    - intros [l Hl]. exists (a, l). split; [done|]. by apply Hin. }
  change (wp (Indices.upgrade_in_order keys order)
            (fun r w' => r = Return tt ∧ upgraded w w') w).
  unfold Indices.upgrade_in_order, Indices.nodes_forEach.
  apply wp_bind, wp_gets. rewrite Hmap.
  eapply wp_mono;
    [apply (order_loop keys w order (fun _ => False) w Hkeys Hsh)|]; [| | | |].
  - tauto.
  - done.
  - intros a l Hal. split; [by apply Hin|tauto].
  - eapply upgrading_proper; [| |by apply upgrading_start].
    + intros a b. unfold out_done. tauto.
    + intros a b. unfold und_done. tauto.
  - intros r w' [-> (H1 & H2 & H3 & H4 & H5 & H6 & H7 & H8 & H9)]. split; [done|].
    assert (∀ a s b v, entry w a s b = Some v → False ∨ a ∈ order.*1) as Hvisited.
    { intros a s b v Hv. right. apply Hin'. by eapply entry_node. }
    split; [done|]. split; [done|]. split; [done|].
    split; [|split].
    + intros a b. destruct (entry w a Out b) as [v|] eqn:Hv.
      * destruct (H3 a b) as (v' & x & Hv' & Hw & Ho & Hi).
        { split; [by eapply Hvisited|]. rewrite Hv. eauto. }
        assert (v' = v) as -> by congruence. by exists x.
      * destruct (H4 a b) as [Ho Hi].
        { intros [_ [? ?]]. congruence. }
        rewrite Ho, Hi. split; [done|].
        destruct (decide (a = b)) as [->|Hne]; [apply Hns|].
        destruct (Hsh a b Hne) as [E _]. by rewrite <-E.
    + intros a b. destruct (entry w a Undirected b) as [v|] eqn:Hv.
      * destruct (H5 a b) as (v' & x & Hv' & Hw & Ho & Hi).
        { destruct (String.ltb a b) eqn:Hlt.
          - right. assert (a ≠ b) as Hne.
            { intros ->. pose proof (ltb_asym b b Hlt). congruence. }
            destruct (Hsh a b Hne) as [_ E]. rewrite Hv in E.
            split; [by eapply Hvisited|]. split; [by apply ltb_asym|]. rewrite <-E. eauto.
          - left. split; [by eapply Hvisited|]. split; [done|]. rewrite Hv. eauto. }
        assert (v' = v) as -> by congruence. by exists x.
      * rewrite (H6 a b); [done|].
        intros [(_ & _ & [? ?])|(_ & _ & [x Hx])]; [congruence|].
        destruct (decide (a = b)) as [->|Hne]; [congruence|].
        destruct (Hsh a b Hne) as [_ E]. congruence.
    + intros l Hl Hl'. destruct (H7 l Hl Hl') as (a & b & [[_ ?]|[_ ?]]); exists a, b; tauto.
Qed.

(** * The theorems at concrete graphs *)

Lemma indexed_node_table m : node_table_ok (Scenario.indexed m).
Proof.
  intros k l Hk. simpl in Hk.
  apply lookup_insert_Some in Hk as [[<- <-]|[_ Hk]];
    [|apply lookup_singleton_Some in Hk as [<- <-]];
    (eexists; split; [vm_compute; reflexivity|]; split; [reflexivity|]);
    intros []; simpl; split; eauto.
Qed.

Lemma indexed_no_entry m a s b : entry (Scenario.indexed m) a s b = None.
Proof.
  unfold entry. simpl.
  destruct ((_ : gmap string loc) !! a) as [l|] eqn:Hk; [|done].
  apply lookup_insert_Some in Hk as [[<- <-]|[_ Hk]];
    [|apply lookup_singleton_Some in Hk as [<- <-]];
    by destruct s.
Qed.

Lemma indexed_maintained m : maintained (Scenario.indexed m).
Proof. apply maintained_empty; [apply indexed_node_table|apply indexed_no_entry]. Qed.

Lemma linked_maintained :
  maintained (after (index_perform (call_update true 3%positive "a" "b")) (Scenario.indexed false)).
Proof.
  apply maintained_call; [apply indexed_maintained|].
  split; [by eexists|]. split; by eexists.
Qed.


Lemma upgrade_wraps_each_entry_once_at_linked :
  let w := after (index_perform (call_update true 3%positive "a" "b")) (Scenario.indexed false) in
  let keys := fun r : register => (map_to_list r).*1 in
  let order := map_to_list (_nodes (this w)) in
  result (Indices.upgrade_in_order keys order) w = Return tt ∧
  upgraded w (after (Indices.upgrade_in_order keys order) w).
Proof.
  intros w keys order.
  pose proof (maintained_inv w linked_maintained) as (Hok & _ & Hsh & Hns).
  apply (upgrade_wraps_each_entry_once keys order w); [reflexivity|done..].
Defined.

Lemma graph_error_leaves_the_world_unchanged_at_duplicate :
  after (perform (op_addNode "a" None))
        (run [op_addNode "a" None] (Graph.constructor Scenario.simple_directed ∅))
  = run [op_addNode "a" None] (Graph.constructor Scenario.simple_directed ∅).
Proof.
  apply (graph_error_leaves_the_world_unchanged Scenario.simple_directed ∅
           [op_addNode "a" None] (op_addNode "a" None) UsageGraphError).
  - intros l d. by rewrite lookup_empty.
  - vm_compute. reflexivity.
  - discriminate.
Defined.

Lemma created_record_holds_a_fresh_copy_at_addNode :
  let w := Scenario.with_attributes in
  let op := op_addNode "a" (Some (VObj 1%positive)) in
  fresh_copy w (after (perform op) w) (VObj 1%positive) (VObj 2%positive).
Proof.
  intros w op.
  apply (created_record_holds_a_fresh_copy op w (VObj 1%positive) (VObj 2%positive));
    vm_compute; reflexivity.
Defined.

(** * Further properties of src/indices.js *)

(** ** Clearing the whole index *)

#[local] Arguments put_slot : simpl never.

Lemma wp_put_slot w a l s r (Q : outcome unit -> World -> Prop) :
  node_table_ok w → _nodes (this w) !! a = Some l →
  carries (opt_type (_options (this w))) s = true →
  (∀ w', register_replaced w w' a s r → Q (Return tt) w') →
  wp (put_slot (VObj l) s r) Q w.
Proof.
  intros Hok Ha Hc HQ. destruct (carried_slot w a l s Hok Ha Hc) as (d & r0 & Hd & Hr).
  pose proof (replace_register w a l d s r0 r Hok Ha Hd Hr) as H.
  apply node_at_Some in Hd.
  unfold wp, put_slot, store, modify. cbv [mbind M_bind gets mret M_ret]. simpl.
  rewrite Hd. simpl. by apply HQ.
Qed.

Lemma cleared_nothing w : node_table_ok w → cleared (fun _ => False) w w.
Proof. intros Hok. by repeat split. Qed.

(** The body of the [forEach]. *)
Lemma clear_node_spec w0 (P : string -> Prop) w a l :
  cleared P w0 w → _nodes (this w0) !! a = Some l →
  wp (Indices.clear_node (VObj l))
     (fun r w' => r = Return tt ∧ cleared (fun x => P x ∨ x = a) w0 w') w.
Proof.
  intros (Ht & Hok & Hcl & Hkeep & Hsets & Hedges) Ha.
  assert (_nodes (this w) !! a = Some l) as Ha' by (by rewrite Ht).
  unfold Indices.clear_node.
  apply wp_bind, (wp_read_slot w a); [done..|].
  assert (∀ w1, this w1 = this w → node_table_ok w1 →
            (∀ a' s' k', entry w1 a' s' k'
               = if decide (a' = a ∧ s' ≠ Undirected) then None else entry w a' s' k') →
            (∀ x, set_at (objects w1) x = set_at (objects w) x) →
            (∀ x, edge_at (objects w1) x = edge_at (objects w) x) →
            wp (u ← read_slot (VObj l) Undirected;
                when (bool_decide (is_Some u)) (put_slot (VObj l) Undirected ∅))
               (fun r w' => r = Return tt ∧ cleared (fun x => P x ∨ x = a) w0 w') w1) as Hsecond.
  { intros w1 Ht1 Hok1 Hent1 Hsets1 Hedges1.
    assert (∀ w2, this w2 = this w → node_table_ok w2 →
              (∀ a' s' k', entry w2 a' s' k'
                 = if decide (a' = a) then None else entry w a' s' k') →
              (∀ x, set_at (objects w2) x = set_at (objects w) x) →
              (∀ x, edge_at (objects w2) x = edge_at (objects w) x) →
              cleared (fun x => P x ∨ x = a) w0 w2) as Hdone.
    { intros w2 Ht2 Hok2 Hent2 Hsets2 Hedges2.
      split; [congruence|]. split; [done|].
      split; [|split; [|split]].
      - intros a' s' k' [HP| ->]; rewrite Hent2; [|by rewrite decide_True].
        case_decide; [done|by apply Hcl].
      - intros a' s' k' HP. rewrite Hent2, decide_False by tauto. apply Hkeep. tauto.
      - intros x. by rewrite Hsets2.
      - intros x. by rewrite Hedges2. }
    apply wp_bind, (wp_read_slot w1 a); [done|by rewrite Ht1|].
    intros [r|] [Hc Hr]; simpl.
    - apply (wp_put_slot w1 a); [done|by rewrite Ht1|done|].
      intros w2 (Ht2 & Hok2 & Hent2 & Hsets2 & Hedges2).
      split; [done|]. apply Hdone; [congruence|done| |intros x; congruence..].
      intros a' s' k'. rewrite Hent2, Hent1.
      destruct (decide (a' = a)) as [->|Hne].
      + destruct s'; repeat case_decide; rewrite ?lookup_empty; try done; naive_solver.
      + rewrite !decide_False by tauto. done.
    - apply wp_ret. split; [done|]. apply Hdone; try done.
      intros a' s' k'. rewrite Hent1.
      destruct (decide (a' = a)) as [->|Hne]; [|by rewrite decide_False by tauto].
      destruct s'; [by rewrite decide_True..|].
      rewrite <-(Hent1 a Undirected k'). apply Hr. }
  intros [r|] [Hc Hr]; simpl.
  - apply wp_bind, wp_bind. apply (wp_put_slot w a); [done..|].
    intros w1 (Ht1 & Hok1 & Hent1 & Hsets1 & Hedges1).
    apply (wp_put_slot w1 a); [done|by rewrite Ht1|by rewrite Ht1|].
    intros w2 (Ht2 & Hok2 & Hent2 & Hsets2 & Hedges2).
    apply Hsecond; [congruence|done| |intros x; congruence..].
    intros a' s' k'. rewrite Hent2, Hent1.
    destruct (decide (a' = a)) as [->|Hne].
    + destruct s'; repeat case_decide; rewrite ?lookup_empty; try done; naive_solver.
    + rewrite !decide_False by tauto. done.
  - apply wp_bind, wp_ret. apply Hsecond; try done.
    intros a' s' k'.
    destruct (decide (a' = a ∧ s' ≠ Undirected)) as [[-> Hs]|Hne]; [|done].
    destruct s'; [| |done].
    + assert (carries (opt_type (_options (this w))) Out = false) as Hc' by done.
      destruct (Hok a l Ha') as (d & Hd & _ & Hslots).
      unfold entry. rewrite Ha'. simpl in *. rewrite Hd. simpl.
      destruct (n_out d) as [r|] eqn:E; [|done].
      assert (carries (opt_type (_options (this w))) Out = true) as Hc''
        by (apply Hslots; simpl; rewrite E; eauto).
      simpl in Hc''. congruence.
    + apply Hr.
Qed.

Lemma cleared_proper (P P' : string -> Prop) w0 w :
  (∀ x, P x ↔ P' x) → cleared P w0 w → cleared P' w0 w.
Proof.
  intros HP (H1 & H2 & H3 & H4 & H5 & H6). repeat split; try done.
  - intros a s k Ha. apply H3. by apply HP.
  - intros a s k Ha. apply H4. by rewrite HP.
Qed.

Lemma clear_loop w0 order : ∀ (P : string -> Prop) w,
  cleared P w0 w →
  (∀ a l, (a, l) ∈ order → _nodes (this w0) !! a = Some l) →
  wp (for_each order (fun '(node, l) => Indices.clear_node (VObj l)))
     (fun r w' => r = Return tt ∧ cleared (fun x => P x ∨ x ∈ order.*1) w0 w') w.
Proof.
  induction order as [|[a l] order IH]; intros P w Hcl Hin.
  - split; [done|]. eapply cleared_proper; [|exact Hcl].
    intros x. split; [tauto|]. intros [?|H]; [done|]. by apply not_elem_of_nil in H.
  - rewrite for_each_cons. apply wp_bind.
    eapply wp_mono; [apply (clear_node_spec w0 P w a l Hcl)|].
    { apply Hin. left. }
    intros r w1 [-> Hcl1]. simpl.
    eapply wp_mono; [apply (IH (fun x => P x ∨ x = a) w1 Hcl1)|].
    { intros b lb Hb. apply Hin. by right. }
    intros r w2 [-> Hcl2]. split; [done|]. eapply cleared_proper; [|exact Hcl2].
    intros x. simpl. rewrite elem_of_cons. tauto.
Qed.

(** [clearStructureIndex] on a graph whose node table is a [Map] of records
    that carry the registers of the graph's type: the call returns, after it
    no node holds an entry in any register, the node table is as well formed
    as before, the graph instance and every set and edge record are untouched;
    the index is again one that [updateStructureIndex] can fill. *)
Theorem clearStructureIndex_empties_the_registers w :
  opt_map (_options (this w)) = true → node_table_ok w →
  result Indices.clearStructureIndex w = Return tt ∧
  this (after Indices.clearStructureIndex w) = this w ∧
  (∀ a s k, entry (after Indices.clearStructureIndex w) a s k = None) ∧
  (∀ x, set_at (objects (after Indices.clearStructureIndex w)) x = set_at (objects w) x) ∧
  (∀ x, edge_at (objects (after Indices.clearStructureIndex w)) x = edge_at (objects w) x) ∧
  maintained (after Indices.clearStructureIndex w).
Proof.
  intros Hmap Hok.
  change (wp Indices.clearStructureIndex
            (fun r w' => r = Return tt ∧ this w' = this w ∧
               (∀ a s k, entry w' a s k = None) ∧
               (∀ x, set_at (objects w') x = set_at (objects w) x) ∧
               (∀ x, edge_at (objects w') x = edge_at (objects w) x) ∧
               maintained w') w).
  unfold Indices.clearStructureIndex, Indices.nodes_forEach.
  apply wp_bind, wp_gets. apply wp_bind, wp_gets. rewrite Hmap.
  eapply wp_mono;
    [apply (clear_loop w (map_to_list (_nodes (this w))) (fun _ => False) w)|].
  - by apply cleared_nothing.
  - intros a l. apply elem_of_map_to_list.
  - intros r w' [-> (Ht & Hok' & Hcl & Hkeep & Hsets & Hedges)].
    assert (∀ a s k, entry w' a s k = None) as Hnone.
    { intros a s k. destruct (_nodes (this w) !! a) as [l|] eqn:Ha.
      - apply Hcl. right. apply list_elem_of_fmap. exists (a, l). split; [done|].
        by apply elem_of_map_to_list.
      - unfold entry. by rewrite Ht, Ha. }
    split; [done|]. split; [done|]. split; [done|]. split; [done|]. split; [done|].
    by apply maintained_empty.
Qed.

Lemma clearStructureIndex_empties_the_registers_at_linked :
  let w := after (index_perform (call_update true 3%positive "a" "b")) (Scenario.indexed false) in
  result Indices.clearStructureIndex w = Return tt ∧
  this (after Indices.clearStructureIndex w) = this w ∧
  (∀ a s k, entry (after Indices.clearStructureIndex w) a s k = None) ∧
  (∀ x, set_at (objects (after Indices.clearStructureIndex w)) x = set_at (objects w) x) ∧
  (∀ x, edge_at (objects (after Indices.clearStructureIndex w)) x = edge_at (objects w) x) ∧
  maintained (after Indices.clearStructureIndex w).
Proof.
  intros w. apply (clearStructureIndex_empties_the_registers w); [reflexivity|].
  apply (maintained_inv w linked_maintained).
Defined.

(** ** The calls of the index, entry by entry *)

(** [updateStructureIndex] on a pair that already has an entry: the first
    edge of a pair keeps the entry in simple mode, where the call changes
    nothing at all; in multi mode the edge joins the set of the pair, and no
    set is created. *)
Theorem updateStructureIndex_on_an_occupied_pair w u e s t ls lt v :
  index_inv w →
  _nodes (this w) !! s = Some ls → _nodes (this w) !! t = Some lt →
  carries (opt_type (_options (this w))) (out_slot u) = true →
  entry w s (out_slot u) t = Some v →
  result (Indices.updateStructureIndex (VBool u) (VObj e) (VStr s) (VStr t) (VObj ls) (VObj lt)) w
    = Return tt ∧
  joined e v w
    (after (Indices.updateStructureIndex (VBool u) (VObj e) (VStr s) (VStr t) (VObj ls) (VObj lt)) w).
Proof.
  intros Hinv Hs Ht Hc Efound. pose proof Hinv as (Hok & Hent & Hsh & Hns).
  change (wp (Indices.updateStructureIndex (VBool u) (VObj e) (VStr s) (VStr t) (VObj ls) (VObj lt))
            (fun r w' => r = Return tt ∧ joined e v w w') w).
  unfold Indices.updateStructureIndex. wp_step.
  change (if u then Undirected else Out) with (out_slot u).
  change (if u then Undirected else In) with (in_slot u).
  apply wp_bind. eapply wp_read_entry; [done..|].
  rewrite Efound. simpl.
  pose proof (entry_is_object _ _ _ _ _ Hent Efound) as Hv.
  rewrite decide_False by done. wp_step.
  pose proof (Hent _ _ _ _ Efound) as Hkind.
  unfold joined.
  destruct (opt_multi (_options (this w))) eqn:Hmulti; simpl.
  - destruct Hkind as [elems Helems].
    apply wp_bind. eapply wp_Set_add; [done|]. intros w1 Hsame Hset Hothers.
    assert (r_ok : Return tt = Return tt ∧ this w1 = this w ∧
              (∀ a s0 k, entry w1 a s0 k = entry w a s0 k) ∧
              (∀ x, edge_at (objects w1) x = edge_at (objects w) x) ∧
              ∃ elems0, Some elems = Some elems0 ∧
                set_at (objects w1) v
                  = Some (if bool_decide (VObj e ∈ elems0) then elems0 else elems0 ++ [VObj e]) ∧
                ∀ x, x ≠ v → set_at (objects w1) x = set_at (objects w) x).
    { split; [done|]. split; [apply Hsame|]. split; [intros; by apply same_index_entry|].
      split; [apply Hsame|]. by exists elems. }
    rewrite Helems.
    destruct (decide (VStr s = VStr t)) as [Est|Est]; [by apply wp_ret|].
    assert (s ≠ t) as Hst by congruence.
    apply wp_bind. eapply (wp_read_entry w1 t);
      [by eapply same_index_node_table|by rewrite (proj1 Hsame)
      |by rewrite (proj1 Hsame), carries_out_in|].
    rewrite (same_index_entry w w1) by done.
    assert (entry w t (in_slot u) s = Some v) as ->.
    { destruct (Hsh s t Hst) as [H1 H2]. destruct u; simpl in *; congruence. }
    simpl. rewrite bool_decide_eq_false_2 by done. done.
  - wp_step.
    destruct (decide (VStr s = VStr t)) as [Est|Est]; [by apply wp_ret|].
    assert (s ≠ t) as Hst by congruence.
    apply wp_bind. eapply (wp_read_entry w t); [done|done|by rewrite carries_out_in|].
    assert (entry w t (in_slot u) s = Some v) as ->.
    { destruct (Hsh s t Hst) as [H1 H2]. destruct u; simpl in *; congruence. }
    simpl. rewrite bool_decide_eq_false_2 by done. done.
Qed.

Lemma wp_Set_remove w v x elems (Q : outcome unit -> World -> Prop) :
  set_at (objects w) v = Some elems →
  (∀ w', same_index w w' →
     set_at (objects w') v = Some (filter (fun y => y ≠ x) elems) →
     (∀ y, y ≠ v → set_at (objects w') y = set_at (objects w) y) →
     Q (Return tt) w') →
  wp (Set_delete v x) Q w.
Proof.
  intros Hv HQ. destruct v as [| | | |l]; try done. simpl in Hv.
  destruct (objects w !! l) as [[| |elems'| |]|] eqn:El; try done. injection Hv as ->.
  unfold wp, Set_delete, store, modify. cbv [mbind M_bind gets mret M_ret]. simpl.
  rewrite El. simpl.
  apply HQ.
  - split; [done|]. split; intros [| | | |y]; try done; simpl;
      (destruct (decide (y = l)) as [->|Hne];
         [by rewrite lookup_insert_eq, El|by rewrite lookup_insert_ne]).
  - simpl. by rewrite lookup_insert_eq.
  - intros [| | | |y] Hy; try done. simpl. rewrite lookup_insert_ne; [done|]. congruence.
Qed.

(** The two deletions that end [clearEdgeFromStructureIndex]. *)
Lemma delete_pair w u s t ls lt (Q : outcome unit -> World -> Prop) :
  node_table_ok w →
  _nodes (this w) !! s = Some ls → _nodes (this w) !! t = Some lt →
  carries (opt_type (_options (this w))) (out_slot u) = true →
  (∀ w', pair_removed u s t w w' → Q (Return tt) w') →
  wp (delete_entry (VObj ls) (out_slot u) (VStr t);;
      delete_entry (VObj lt) (in_slot u) (VStr s)) Q w.
Proof.
  intros Hok Hs Ht Hc HQ.
  apply wp_bind. eapply wp_delete_entry; [done..|].
  intros w1 (Ht1 & Hok1 & Hent1 & Hsets1 & Hedges1).
  eapply wp_delete_entry; [done|by rewrite Ht1|by rewrite Ht1, carries_out_in|].
  intros w2 (Ht2 & Hok2 & Hent2 & Hsets2 & Hedges2).
  apply HQ. split; [congruence|]. split; [done|].
  split; [intros x; congruence|]. split; [intros x; congruence|].
  intros a s' k. rewrite Hent2, Hent1.
  repeat case_decide; try done; exfalso; tauto.
Qed.

Lemma clearEdge_simple_spec w u e d s t ls lt (Q : outcome unit -> World -> Prop) :
  node_table_ok w → opt_multi (_options (this w)) = false →
  edge_at (objects w) (VObj e) = Some d →
  e_source d = VObj ls → e_target d = VObj lt →
  _nodes (this w) !! s = Some ls → _nodes (this w) !! t = Some lt →
  carries (opt_type (_options (this w))) (out_slot u) = true →
  (∀ w', pair_removed u s t w w' → Q (Return tt) w') →
  wp (Indices.clearEdgeFromStructureIndex (VBool u) (VObj e)) Q w.
Proof.
  intros Hok Hmulti Hd Hsrc Htgt Hs Ht Hc HQ.
  destruct (Hok s ls Hs) as (ds & Hds & Hks & _).
  destruct (Hok t lt Ht) as (dt & Hdt & Hkt & _).
  unfold Indices.clearEdgeFromStructureIndex. wp_step. rewrite Hmulti.
  eapply wp_bind_returns; [by apply read_extremities_edge|]. rewrite Hsrc, Htgt.
  eapply wp_bind_returns; [by apply read_key_node|]. rewrite Hks.
  eapply wp_bind_returns; [by apply read_key_node|]. rewrite Hkt.
  change (if u then Undirected else Out) with (out_slot u).
  change (if u then Undirected else In) with (in_slot u).
  apply wp_bind. eapply wp_has_entry; [done..|].
  destruct (entry w s (out_slot u) t) as [v|] eqn:Efound; simpl.
  - by apply (delete_pair w u s t ls lt).
  - wp_step.
    eapply wp_delete_entry; [done|done|by rewrite carries_out_in|].
    intros w2 (Ht2 & Hok2 & Hent2 & Hsets2 & Hedges2).
    apply HQ. split; [done|]. split; [done|]. split; [done|]. split; [done|].
    intros a s' k. rewrite Hent2.
    repeat case_decide; try done; try (exfalso; tauto).
    destruct_or?; destruct_and?; simplify_eq; [done|tauto].
Qed.

Lemma clearEdge_multi_spec w u e d s t ls lt v elems (Q : outcome unit -> World -> Prop) :
  node_table_ok w → opt_multi (_options (this w)) = true →
  edge_at (objects w) (VObj e) = Some d →
  e_source d = VObj ls → e_target d = VObj lt →
  _nodes (this w) !! s = Some ls → _nodes (this w) !! t = Some lt →
  carries (opt_type (_options (this w))) (out_slot u) = true →
  entry w s (out_slot u) t = Some v → set_at (objects w) v = Some elems →
  (∀ w', removed_from_set u e s t v elems w w' → Q (Return tt) w') →
  wp (Indices.clearEdgeFromStructureIndex (VBool u) (VObj e)) Q w.
Proof.
  intros Hok Hmulti Hd Hsrc Htgt Hs Ht Hc Efound Hset HQ.
  destruct (Hok s ls Hs) as (ds & Hds & Hks & _).
  destruct (Hok t lt Ht) as (dt & Hdt & Hkt & _).
  unfold Indices.clearEdgeFromStructureIndex. wp_step. rewrite Hmulti.
  eapply wp_bind_returns; [by apply read_extremities_edge|]. rewrite Hsrc, Htgt.
  eapply wp_bind_returns; [by apply read_key_node|]. rewrite Hks.
  eapply wp_bind_returns; [by apply read_key_node|]. rewrite Hkt.
  change (if u then Undirected else Out) with (out_slot u).
  change (if u then Undirected else In) with (in_slot u).
  apply wp_bind. eapply wp_has_entry; [done..|].
  rewrite Efound. simpl.
  apply wp_bind. apply wp_bind. eapply wp_read_entry; [done..|].
  rewrite Efound. simpl.
  apply wp_bind. eapply wp_read_size; [done|]. simpl.
  destruct (decide (Some (length elems) = Some 1%nat)) as [E1|E1].
  - apply (delete_pair w u s t ls lt); try done.
    intros w' Hw'. wp_step. apply HQ. unfold removed_from_set.
    by rewrite decide_True by congruence.
  - eapply wp_Set_remove; [done|]. intros w1 Hsame Hset1 Hothers. wp_step.
    apply HQ. unfold removed_from_set. rewrite decide_False by congruence.
    split; [apply Hsame|]. split; [by eapply same_index_node_table|].
    split; [apply Hsame|]. split; [|done].
    intros a s' k. by apply same_index_entry.
Qed.

(** Case analysis on the tests of the goal. *)
Ltac goal_decide :=
  match goal with |- context [decide ?P] => destruct (decide P) end.

Lemma update_free_pair w u e s t ls lt (Q : outcome unit -> World -> Prop) :
  index_inv w →
  _nodes (this w) !! s = Some ls → _nodes (this w) !! t = Some lt →
  carries (opt_type (_options (this w))) (out_slot u) = true →
  entry w s (out_slot u) t = None →
  (∀ v w', pair_installed u e s t v w w' → Q (Return tt) w') →
  wp (Indices.updateStructureIndex (VBool u) (VObj e) (VStr s) (VStr t) (VObj ls) (VObj lt)) Q w.
Proof.
  intros Hinv Hs Ht Hc Efound HQ. pose proof Hinv as (Hok & Hent & Hsh & Hns).
  assert (s ≠ t → entry w t (in_slot u) s = None) as Hmirror.
  { intros Hst. destruct (Hsh s t Hst) as [H1 H2]. destruct u; simpl in *; congruence. }
  unfold Indices.updateStructureIndex. wp_step.
  change (if u then Undirected else Out) with (out_slot u).
  change (if u then Undirected else In) with (in_slot u).
  apply wp_bind. eapply wp_read_entry; [done..|].
  rewrite Efound. simpl.
  unfold pair_installed in HQ.
  destruct (opt_multi (_options (this w))) eqn:Hmulti; simpl.
  - apply wp_bind. apply wp_bind. apply wp_new_Set. intros ln w1 Hfresh Hsame1 Hset1 Hothers1.
    assert (node_table_ok w1) as Hok1 by (by eapply same_index_node_table).
    destruct Hsame1 as (Ht1 & Hn1 & He1). assert (same_index w w1) as Hsame1 by done.
    apply wp_bind. eapply wp_write_entry; [done|by rewrite Ht1|by rewrite Ht1|].
    intros w2 (Ht2 & Hok2 & Hent2 & Hsets2 & Hedges2). wp_step.
    apply wp_bind. eapply wp_Set_add; [by rewrite Hsets2|].
    intros w3 Hsame3 Hset3 Hothers3.
    rewrite bool_decide_eq_false_2 in Hset3 by apply not_elem_of_nil.
    change ([] ++ [VObj e]) with [VObj e] in Hset3.
    assert (node_table_ok w3) as Hok3 by (by eapply same_index_node_table).
    destruct Hsame3 as (Ht3 & Hn3 & He3). assert (same_index w2 w3) as Hsame3 by done.
    assert (this w3 = this w) as Hthis3 by congruence.
    assert (set_at (objects w) (VObj ln) = None) as Hnew by (simpl; by rewrite Hfresh).
    assert (∀ x, is_Some (set_at (objects w) x) →
              set_at (objects w3) x = set_at (objects w) x) as Hold3.
    { intros x Hx. assert (x ≠ VObj ln) by (intros ->; rewrite Hnew in Hx; by destruct Hx).
      by rewrite Hothers3, Hsets2, Hothers1. }
    assert (∀ a s' k, entry w3 a s' k
       = if decide (a = s ∧ s' = out_slot u ∧ k = t) then Some (VObj ln)
         else entry w a s' k) as Hent3.
    { intros a s' k. rewrite (same_index_entry w2 w3) by done. rewrite Hent2.
      goal_decide; [done|]. by apply same_index_entry. }
    destruct (decide (VStr s = VStr t)) as [Est|Est]; [apply wp_ret|].
    + injection Est as <-. apply (HQ (VObj ln)).
      split; [done|]. split; [done|]. split; [intros x; congruence|]. split; [done|].
      split; [|done]. intros a s' k. rewrite Hent3.
      repeat goal_decide; try done; exfalso; tauto.
    + assert (s ≠ t) as Hst by congruence.
      apply wp_bind. eapply wp_read_entry;
        [done|by rewrite Hthis3|by rewrite Hthis3, carries_out_in|].
      rewrite Hent3. rewrite decide_False by (intros (?&?&?); congruence).
      rewrite (Hmirror Hst). simpl.
      eapply wp_write_entry; [done|by rewrite Hthis3|by rewrite Hthis3, carries_out_in|].
      intros w4 (Ht4 & Hok4 & Hent4 & Hsets4 & Hedges4).
      apply (HQ (VObj ln)).
      split; [congruence|]. split; [done|]. split; [intros x; congruence|].
      split; [intros x Hx; rewrite Hsets4; by apply Hold3|].
      split; [|by rewrite Hsets4].
      intros a s' k. rewrite Hent4, Hent3.
      repeat goal_decide; try done; exfalso; tauto.
  - apply wp_bind. wp_step.
    apply wp_bind. eapply wp_write_entry; [done..|].
    intros w2 (Ht2 & Hok2 & Hent2 & Hsets2 & Hedges2). wp_step. wp_step.
    destruct (decide (VStr s = VStr t)) as [Est|Est]; [apply wp_ret|].
    + injection Est as <-. apply (HQ (VObj e)).
      split; [done|]. split; [done|]. split; [done|]. split; [by intros x _|].
      split; [|done]. intros a s' k. rewrite Hent2.
      repeat goal_decide; try done; exfalso; tauto.
    + assert (s ≠ t) as Hst by congruence.
      apply wp_bind. eapply wp_read_entry;
        [done|by rewrite Ht2|by rewrite Ht2, carries_out_in|].
      rewrite Hent2. rewrite decide_False by (intros (?&?&?); congruence).
      rewrite (Hmirror Hst). simpl.
      eapply wp_write_entry; [done|by rewrite Ht2|by rewrite Ht2, carries_out_in|].
      intros w4 (Ht4 & Hok4 & Hent4 & Hsets4 & Hedges4).
      apply (HQ (VObj e)).
      split; [congruence|]. split; [done|]. split; [intros x; congruence|].
      split; [intros x _; congruence|].
      split; [|done].
      intros a s' k. rewrite Hent4, Hent2.
      repeat goal_decide; try done; exfalso; tauto.
Qed.


(** [clearEdgeFromStructureIndex] in simple mode, for an edge record whose
    source and target are records of the node table: the call returns and
    deletes the entry of the source for the target and the entry of the target
    for the source, whatever these entries hold; nothing else changes. *)
Theorem clearEdgeFromStructureIndex_in_simple_mode w u e d s t ls lt :
  node_table_ok w → opt_multi (_options (this w)) = false →
  edge_at (objects w) (VObj e) = Some d →
  e_source d = VObj ls → e_target d = VObj lt →
  _nodes (this w) !! s = Some ls → _nodes (this w) !! t = Some lt →
  carries (opt_type (_options (this w))) (out_slot u) = true →
  result (Indices.clearEdgeFromStructureIndex (VBool u) (VObj e)) w = Return tt ∧
  pair_removed u s t w (after (Indices.clearEdgeFromStructureIndex (VBool u) (VObj e)) w).
Proof.
  intros Hok Hmulti Hd Hsrc Htgt Hs Ht Hc.
  by apply (clearEdge_simple_spec w u e d s t ls lt
              (fun r w' => r = Return tt ∧ pair_removed u s t w w')).
Qed.

(** [clearEdgeFromStructureIndex] in multi mode, for a pair whose entry is a
    set: when the set has exactly one element, the two entries of the pair are
    deleted and the set is left as it is; otherwise no entry changes and the
    edge is removed from the set, which keeps its other elements in their
    order. *)
Theorem clearEdgeFromStructureIndex_in_multi_mode w u e d s t ls lt v elems :
  node_table_ok w → opt_multi (_options (this w)) = true →
  edge_at (objects w) (VObj e) = Some d →
  e_source d = VObj ls → e_target d = VObj lt →
  _nodes (this w) !! s = Some ls → _nodes (this w) !! t = Some lt →
  carries (opt_type (_options (this w))) (out_slot u) = true →
  entry w s (out_slot u) t = Some v → set_at (objects w) v = Some elems →
  result (Indices.clearEdgeFromStructureIndex (VBool u) (VObj e)) w = Return tt ∧
  removed_from_set u e s t v elems w
    (after (Indices.clearEdgeFromStructureIndex (VBool u) (VObj e)) w).
Proof.
  intros Hok Hmulti Hd Hsrc Htgt Hs Ht Hc Hv Hset.
  by apply (clearEdge_multi_spec w u e d s t ls lt v elems
              (fun r w' => r = Return tt ∧ removed_from_set u e s t v elems w w')).
Qed.


Lemma linked_multi_maintained :
  maintained (after (index_perform (call_update true 3%positive "a" "b")) (Scenario.indexed true)).
Proof.
  apply maintained_call; [apply indexed_maintained|].
  split; [by eexists|]. split; by eexists.
Qed.

Lemma updateStructureIndex_on_an_occupied_pair_at_linked :
  let w := after (index_perform (call_update true 3%positive "a" "b")) (Scenario.indexed true) in
  let call := Indices.updateStructureIndex (VBool true) (VObj 3%positive) (VStr "a") (VStr "b")
                (VObj 1%positive) (VObj 2%positive) in
  result call w = Return tt ∧ joined 3%positive (VObj 4%positive) w (after call w).
Proof.
  intros w call.
  apply (updateStructureIndex_on_an_occupied_pair w true 3%positive "a" "b"
           1%positive 2%positive (VObj 4%positive));
    [apply (maintained_inv w linked_multi_maintained)|vm_compute; reflexivity..].
Defined.


Lemma clearEdgeFromStructureIndex_in_simple_mode_at_linked :
  let w := after (index_perform (call_update true 3%positive "a" "b")) (Scenario.indexed false) in
  let call := Indices.clearEdgeFromStructureIndex (VBool true) (VObj 3%positive) in
  result call w = Return tt ∧ pair_removed true "a" "b" w (after call w).
Proof.
  intros w call.
  apply (clearEdgeFromStructureIndex_in_simple_mode w true 3%positive
           (mkEdgeData true VUndefined (VObj 1%positive) (VObj 2%positive))
           "a" "b" 1%positive 2%positive);
    [apply (maintained_inv w linked_maintained)|vm_compute; reflexivity..].
Defined.

Lemma clearEdgeFromStructureIndex_in_multi_mode_at_linked :
  let w := after (index_perform (call_update true 3%positive "a" "b")) (Scenario.indexed true) in
  let call := Indices.clearEdgeFromStructureIndex (VBool true) (VObj 3%positive) in
  result call w = Return tt ∧
  removed_from_set true 3%positive "a" "b" (VObj 4%positive) [VObj 3%positive] w (after call w).
Proof.
  intros w call.
  apply (clearEdgeFromStructureIndex_in_multi_mode w true 3%positive
           (mkEdgeData true VUndefined (VObj 1%positive) (VObj 2%positive))
           "a" "b" 1%positive 2%positive (VObj 4%positive) [VObj 3%positive]);
    [apply (maintained_inv w linked_multi_maintained)|vm_compute; reflexivity..].
Defined.


(** * Further properties of the Graph class *)

(** ** Reading *)

Lemma observer_loops_term selfLoops data : observer (Graph.loops_term selfLoops data).
Proof. unfold Graph.loops_term. observer_auto. Qed.
#[local] Hint Resolve observer_loops_term : observer.

Lemma observer_degree_query query node selfLoops :
  query ∈ degree_queries → observer (query node selfLoops).
Proof.
  unfold degree_queries. rewrite !elem_of_cons, elem_of_nil.
  intros [->|[->|[->|[->|[->|[]]]]]];
    unfold Graph.inDegree, Graph.outDegree, Graph.directedDegree, Graph.undirectedDegree,
      Graph.degree, Graph.hasNode, Graph.nodes_lookup;
    observer_auto.
Qed.



(** ** Existence of an edge *)

(** Called with no argument or with more than two, [hasDirectedEdge],
    [hasUndirectedEdge] and [hasEdge] throw an InvalidArguments error and
    change nothing. *)
Theorem existence_queries_check_their_arity query arguments w :
  query ∈ existence_queries →
  length arguments ≠ 1%nat → length arguments ≠ 2%nat →
  query arguments w = (Throw InvalidArgumentsGraphError, w).
Proof.
  unfold existence_queries. rewrite !elem_of_cons, elem_of_nil.
  intros [->|[->|[->|[]]]] H1 H2;
    destruct arguments as [|a1 [|a2 [|a3 rest]]]; simpl in *; try done;
    unfold Graph.hasDirectedEdge, Graph.hasUndirectedEdge, Graph.hasEdge; done.
Qed.

Lemma existence_queries_check_their_arity_at_linked :
  Graph.hasEdge ["a"; "b"; "c"] (Scenario.linked true)
  = (Throw InvalidArgumentsGraphError, Scenario.linked true).
Proof.
  apply (existence_queries_check_their_arity Graph.hasEdge ["a"; "b"; "c"]);
    [unfold existence_queries; rewrite !elem_of_cons; tauto|simpl; lia..].
Defined.

Lemma edge_record_Some w edge d :
  edge_record w edge = Some d →
  ∃ l, _edges (this w) !! edge = Some l ∧ edge_at (objects w) (VObj l) = Some d.
Proof.
  unfold edge_record. destruct (_edges (this w) !! edge) as [l|]; [|done]. eauto.
Qed.

Lemma by_key_spec w edge :
  opt_map (_options (this w)) = false →
  (is_Some (_edges (this w) !! edge) → is_Some (edge_record w edge)) →
  Graph.hasEdge [edge] w = (Return (bool_decide (is_Some (edge_record w edge))), w) ∧
  Graph.hasDirectedEdge [edge] w
    = (Return (from_option (fun d => negb (e_undirected d)) false (edge_record w edge)), w) ∧
  Graph.hasUndirectedEdge [edge] w
    = (Return (from_option e_undirected false (edge_record w edge)), w).
Proof.
  intros Hmap Hrec.
  unfold Graph.hasEdge, Graph.hasDirectedEdge, Graph.hasUndirectedEdge, Graph.map,
    Graph.hasEdge1, Graph.directed, Graph.undirected, Graph.hasEdge1, Graph.edges_lookup.
  cbv [mbind M_bind gets mret M_ret]. rewrite Hmap.
  destruct (_edges (this w) !! edge) as [l|] eqn:Hl.
  - destruct Hrec as [d Hd]; [eauto|]. rewrite Hd.
    apply edge_record_Some in Hd as (l' & Hl' & Hd).
    assert (l' = l) as -> by congruence.
    assert (objects w !! l = Some (OEdge d)) as Hobj.
    { simpl in Hd. destruct (objects w !! l) as [[]|]; congruence. }
    rewrite ?Hl. rewrite !bool_decide_eq_true_2 by eauto. simpl.
    unfold Graph.read_undirected. repeat (rewrite ?Hl, ?Hobj; simpl).
    by destruct (e_undirected d).
  - unfold edge_record. rewrite ?Hl. simpl.
    rewrite ?bool_decide_eq_false_2 by (by intros []). done.
Qed.



(** ** The extremities of an edge *)

Lemma extremities_spec w edge d :
  edge_record w edge = Some d →
  Graph.source edge w = (Return (e_source d), w) ∧
  Graph.target edge w = (Return (e_target d), w) ∧
  Graph.extremities edge w = (Return (e_source d, e_target d), w).
Proof.
  intros Hd. apply edge_record_Some in Hd as (l & Hl & Hd).
  assert (objects w !! l = Some (OEdge d)) as Hobj.
  { simpl in Hd. destruct (objects w !! l) as [[]|]; congruence. }
  assert (Graph.source edge w = (Return (e_source d), w)) as Hs.
  { unfold Graph.source, Graph.hasEdge, Graph.hasEdge1, Graph.edges_lookup,
      Graph.read_extremity.
    cbv [mbind M_bind gets mret M_ret]. rewrite ?Hl. simpl.
    rewrite ?bool_decide_eq_true_2 by eauto. simpl. rewrite ?Hl. simpl. by rewrite Hobj. }
  assert (Graph.target edge w = (Return (e_target d), w)) as Ht.
  { unfold Graph.target, Graph.hasEdge, Graph.hasEdge1, Graph.edges_lookup,
      Graph.read_extremity.
    cbv [mbind M_bind gets mret M_ret]. rewrite ?Hl. simpl.
    rewrite ?bool_decide_eq_true_2 by eauto. simpl. rewrite ?Hl. simpl. by rewrite Hobj. }
  split; [done|]. split; [done|].
  unfold Graph.extremities. rewrite bind_run.
  unfold Graph.hasEdge at 1, Graph.hasEdge1, gets. rewrite Hl.
  rewrite bool_decide_eq_true_2 by eauto. simpl.
  rewrite bind_run, Hs. rewrite bind_run, Ht. done.
Qed.





(** ** The records of a graph *)

Lemma wf_bare w : well_formed w → bare w.
Proof. intros [[Hn _] _] l d Hl. by apply (Hn l d). Qed.

(** Changing the graph instance without adding a key. *)
Lemma keeps_wf_modify_this f :
  (∀ g, _options (f g) = _options g ∧
        (∀ k l, _nodes (f g) !! k = Some l → _nodes g !! k = Some l) ∧
        (∀ k l, _edges (f g) !! k = Some l → _edges g !! k = Some l)) →
  keeps well_formed (Graph.modify_this f).
Proof.
  intros Hf w [[Hn He] [Tn Te]]. destruct (Hf (this w)) as (Ho & Hns & Hes).
  split; split; simpl; rewrite ?Ho; try done.
  - intros k l Hk. apply (Tn k). by apply Hns.
  - intros k l Hk. apply (Te k). by apply Hes.
Qed.

(** A new object. *)
Lemma wf_insert_fresh w l o :
  well_formed w → objects w !! l = None →
  match o with
  | ONode d => bare_node d ∧ counters_numeric (opt_type (_options (this w))) d
  | OEdge d => admits (opt_type (_options (this w))) (e_undirected d) ∧
               ∃ s t, e_source d = VStr s ∧ e_target d = VStr t
  | _ => True
  end →
  well_formed (set_objects (<[l := o]> (objects w)) w).
Proof.
  intros [[Hn He] [Tn Te]] Hl Ho. split; split; simpl.
  - intros l' d. rewrite lookup_insert_Some. intros [[<- ->]|[_ H]]; [done|by eapply Hn].
  - intros l' d. rewrite lookup_insert_Some. intros [[<- ->]|[_ H]]; [done|by eapply He].
  - intros k l' Hk. destruct (Tn k l' Hk) as [d Hd]. exists d. simpl in *.
    rewrite lookup_insert_ne; [done|]. intros <-. by rewrite Hl in Hd.
  - intros k l' Hk. destruct (Te k l' Hk) as [d Hd]. exists d. simpl in *.
    rewrite lookup_insert_ne; [done|]. intros <-. by rewrite Hl in Hd.
Qed.

Lemma keeps_wf_protect a : keeps well_formed (Graph.protect a).
Proof.
  intros w Hwf. pose proof (protect_spec a w) as (l & _ & Hl & Hobj & Hthis).
  pose proof (wf_insert_fresh w l (OPlain (own_props (objects w) a)) Hwf Hl I) as H.
  destruct H as [[Hn He] [Tn Te]].
  split; split; rewrite ?Hthis, ?Hobj; done.
Qed.

Lemma numeric_incr o : numeric o → numeric (incr o).
Proof. intros [z ->]. by eexists. Qed.
Lemma numeric_decr o : numeric o → numeric (decr o).
Proof. intros [z ->]. by eexists. Qed.

Lemma keeps_wf_update_node data f :
  (∀ ty d, bare_node d → counters_numeric ty d →
     bare_node (f d) ∧ counters_numeric ty (f d)) →
  keeps well_formed (Graph.update_node data f).
Proof.
  intros Hf w [[Hn He] [Tn Te]]. unfold Graph.update_node.
  destruct data as [| | | |l]; simpl; try done.
  destruct (objects w !! l) as [[d| | | |]|] eqn:E; simpl; try done.
  split; split; simpl.
  - intros l' d'. rewrite lookup_insert_Some. intros [[<- [= <-]]|[_ H]]; [|by eapply Hn].
    destruct (Hn l d E). by apply Hf.
  - intros l' d'. rewrite lookup_insert_Some. intros [[<- ?]|[_ H]]; [done|by eapply He].
  - intros k l' Hk. destruct (Tn k l' Hk) as [d' Hd]. simpl in *.
    destruct (decide (l' = l)) as [->|Hne];
      [rewrite lookup_insert_eq; eauto|rewrite lookup_insert_ne by done; eauto].
  - intros k l' Hk. destruct (Te k l' Hk) as [d' Hd]. simpl in *.
    rewrite lookup_insert_ne; [eauto|]. intros <-. by rewrite E in Hd.
Qed.

Lemma keeps_wf_update_degrees step u s t sd td :
  (∀ o, numeric o → numeric (step o)) →
  keeps well_formed (Graph.update_degrees step u s t sd td).
Proof.
  intros Hstep. unfold Graph.update_degrees.
  repeat case_match; repeat (apply keeps_bind; [|intros ?]);
    apply keeps_wf_update_node; intros ty d Hb (H1 & H2 & H3);
    (split; [done|]); repeat split; simpl; intros;
    first [tauto | apply Hstep; naive_solver | naive_solver].
Qed.

Lemma keeps_wf__clearEdgeFromIndex name edge data :
  keeps well_formed (Graph._clearEdgeFromIndex name edge data).
Proof.
  intros w Hwf. unfold Graph._clearEdgeFromIndex.
  repeat case_match; try done. rewrite bind_run. simpl.
  case_match; [done|]. by rewrite bare_clearEdgeFromStructureIndex by (by apply wf_bare).
Qed.

Lemma keeps_wf__updateIndex name edge data :
  keeps well_formed (Graph._updateIndex name edge data).
Proof.
  intros w Hwf. unfold Graph._updateIndex.
  repeat case_match; try done. rewrite bind_run. simpl.
  case_match; [done|]. by rewrite updateStructureIndex_undefined.
Qed.

Ltac keeps_wf_step :=
  first [ apply keeps_ret | apply keeps_throw | apply keeps_gets
        | solve [apply keeps_observer; eauto with observer]
        | apply keeps_wf__updateIndex
        | apply keeps_wf__clearEdgeFromIndex
        | apply keeps_wf_protect
        | solve [apply keeps_wf_update_degrees; first [apply numeric_incr|apply numeric_decr]]
        | solve [apply keeps_wf_modify_this; intros ?; simpl;
                 (split; [done|]); split; intros ? ?;
                 rewrite ?lookup_delete_Some, ?lookup_empty; naive_solver]
        | lazymatch goal with
          | |- keeps _ (_ ≫= _) => apply keeps_bind; [|intros ?]
          | |- keeps _ (when _ _) => apply keeps_when
          | |- keeps _ (for_each _ _) => apply keeps_for_each; intros ?
          | |- keeps _ (match _ with _ => _ end) => case_match
          end ].
Ltac keeps_wf := repeat keeps_wf_step.

Lemma keeps_wf_computeIndex name : keeps well_formed (Graph.computeIndex name).
Proof. unfold Graph.computeIndex. keeps_wf. Qed.

Lemma keeps_wf_hasDirectedEdge args : keeps well_formed (Graph.hasDirectedEdge args).
Proof.
  unfold Graph.hasDirectedEdge, Graph.directed, Graph.undirected, Graph.hasEdge1,
    Graph.hasNode, Graph.nodes_lookup, Graph.edges_lookup, Graph.map.
  keeps_wf; apply keeps_wf_computeIndex.
Qed.

Lemma keeps_wf_hasUndirectedEdge args : keeps well_formed (Graph.hasUndirectedEdge args).
Proof.
  unfold Graph.hasUndirectedEdge, Graph.undirected, Graph.hasEdge1,
    Graph.hasNode, Graph.nodes_lookup, Graph.edges_lookup, Graph.map.
  keeps_wf; apply keeps_wf_computeIndex.
Qed.

Lemma keeps_wf_dropEdge edge : keeps well_formed (Graph.dropEdge edge).
Proof.
  unfold Graph.dropEdge, Graph.hasEdge, Graph.hasEdge1, Graph.edges_lookup,
    Graph.nodes_lookup_val, Graph.nodes_lookup.
  keeps_wf.
Qed.

Lemma keeps_wf_dropNode node : keeps well_formed (Graph.dropNode node).
Proof.
  unfold Graph.dropNode, Graph.hasNode, Graph.edges.
  keeps_wf; apply keeps_wf_dropEdge.
Qed.

Lemma keeps_wf_clear : keeps well_formed Graph.clear.
Proof. unfold Graph.clear. keeps_wf. Qed.

(** New tables over the same heap. *)
Lemma wf_set_this w w' :
  well_formed w → objects w' = objects w →
  _options (this w') = _options (this w) →
  (∀ k l, _nodes (this w') !! k = Some l → is_Some (node_at (objects w) (VObj l))) →
  (∀ k l, _edges (this w') !! k = Some l → is_Some (edge_at (objects w) (VObj l))) →
  well_formed w'.
Proof.
  intros [[Hn He] [Tn Te]] Ho Hopt Hnodes Hedges.
  split; split; rewrite ?Ho, ?Hopt; done.
Qed.

Lemma numeric_zero : numeric (Some (Fin 0)).
Proof. by eexists. Qed.

Lemma keeps_wf_addNode node attributes : keeps well_formed (Graph.addNode node attributes).
Proof.
  intros w Hw. apply wp_run with (Q := fun _ w' => well_formed w').
  unfold Graph.addNode.
  wp_call (apply wp_observer, observer_isPlainObject).
  intros [plain|e] ? ->; [|done].
  wp_if Hp; [done|].
  unfold Graph.hasNode. wp_step. wp_if Hn; [done|].
  wp_call (apply (wp_keeps well_formed); [apply keeps_wf_protect|done]).
  intros [a|e] w1 Hw1; [|done].
  unfold Graph.type. wp_steps.
  match goal with |- context [set_objects (<[l := ?o]> _) w1] =>
    assert (well_formed (set_objects (<[l := o]> (objects w1)) w1)) as Hw2 end.
  { apply wf_insert_fresh; [done|done|].
    split; [done|]. pose proof numeric_zero.
    destruct (opt_type (_options (this w1))); repeat split; simpl; try done. }
  eapply wf_set_this; [apply Hw2| done | done | |].
  - intros k l' Hk. simpl in Hk. apply lookup_insert_Some in Hk as [[_ <-]|[_ Hk]].
    + simpl. rewrite lookup_insert_eq. eauto.
    + destruct Hw2 as [_ [Tn _]]. by apply (Tn k).
  - intros k l' Hk. destruct Hw2 as [_ [_ Te]]. by apply (Te k).
Qed.

Lemma keeps_wf__addEdge name undirected edge source target attributes :
  keeps well_formed (Graph._addEdge name undirected edge source target attributes).
Proof.
  intros w Hw. apply wp_run with (Q := fun _ w' => well_formed w').
  unfold Graph._addEdge, Graph.type. wp_step.
  wp_if H1; [done|]. wp_if H2; [done|].
  assert (admits (opt_type (_options (this w))) undirected) as Hadmits.
  { unfold admits. destruct undirected; simpl in *.
    - by apply bool_decide_eq_false in H2.
    - by apply bool_decide_eq_false in H1. }
  wp_call (apply wp_observer, observer_isPlainObject).
  intros [plain|e] ? ->; [|done].
  wp_if H3; [done|].
  unfold Graph.hasNode. wp_step. wp_if H4; [done|]. wp_step. wp_if H5; [done|].
  unfold Graph.hasEdge, Graph.hasEdge1. wp_step. wp_if He; [done|].
  unfold Graph.allowSelfLoops. wp_step. wp_if H6; [done|].
  unfold Graph.multi. wp_step.
  wp_call (apply (wp_keeps (fun w' => well_formed w' ∧ same_tables w w')));
    [|split; [done|apply same_tables_refl]|].
  { destruct (opt_multi _); [apply keeps_ret|].
    destruct undirected; intros w' [? ?]; split;
      first [ by apply keeps_wf_hasUndirectedEdge | by apply keeps_wf_hasDirectedEdge
            | by apply keeps_tables_hasUndirectedEdge
            | by apply keeps_tables_hasDirectedEdge ]. }
  intros [linked|e] w1 [Hw1 T1]; [|done].
  wp_if H7; [done|].
  wp_call (apply (wp_keeps (fun w' => well_formed w' ∧ this w' = this w1)));
    [|by split|].
  { intros w' [? E]. split; [by apply keeps_wf_protect|].
    by rewrite heap_only_protect. }
  intros [a|e] w2 [Hw2 E2]; [|done].
  wp_steps. unfold Graph.nodes_lookup. wp_steps.
  match goal with |- wp _ _ ?w0 => assert (well_formed w0) as Hw3 end.
  { match goal with |- context [set_objects (<[l := ?o]> _) w2] =>
      assert (well_formed (set_objects (<[l := o]> (objects w2)) w2)) as Hw' end.
    { apply wf_insert_fresh; [done|done|]. simpl.
      destruct T1 as (_&_&_&_&Hopt). rewrite E2, Hopt. split; [done|]. eauto. }
    eapply wf_set_this; [apply Hw'|done|done| |].
    - intros k l' Hk. destruct Hw' as [_ [Tn _]]. by apply (Tn k).
    - intros k l' Hk. simpl in Hk. apply lookup_insert_Some in Hk as [[_ <-]|[_ Hk]].
      + simpl. rewrite lookup_insert_eq. eauto.
      + destruct Hw' as [_ [_ Te]]. by apply (Te k). }
  wp_call (apply (wp_keeps well_formed);
             [apply keeps_wf_update_degrees, numeric_incr|done]).
  intros [[]|e] w4 Hw4; [|done].
  wp_call (apply (wp_keeps well_formed); [apply keeps_wf__updateIndex|done]).
  intros [[]|e] w5 Hw5; [|done]. by wp_steps.
Qed.

Lemma keeps_wf_perform op : keeps well_formed (perform op).
Proof.
  destruct op; simpl; try apply keeps_discard;
    first [ apply keeps_wf_addNode | apply keeps_wf_dropEdge | apply keeps_wf_dropNode
          | apply keeps_wf_clear | idtac ].
  - apply keeps_bind; [apply keeps_gets|]. intros ?. apply keeps_wf__addEdge.
  - apply keeps_wf__addEdge.
  - apply keeps_wf__addEdge.
  - apply keeps_bind; [apply keeps_gets|]. intros ?.
    apply keeps_bind; [apply keeps_gets|]. intros ?. apply keeps_wf__addEdge.
  - apply keeps_bind; [apply keeps_gets|]. intros ?. apply keeps_wf__addEdge.
  - apply keeps_bind; [apply keeps_gets|]. intros ?. apply keeps_wf__addEdge.
Qed.

Lemma wf_constructor options h : no_record h → well_formed (Graph.constructor options h).
Proof.
  intros Hh. split; split; simpl.
  - intros l d Hl. specialize (Hh l). by rewrite Hl in Hh.
  - intros l d Hl. specialize (Hh l). by rewrite Hl in Hh.
  - intros k l. by rewrite lookup_empty.
  - intros k l. by rewrite lookup_empty.
Qed.

Lemma wf_run ops w : well_formed w → well_formed (run ops w).
Proof.
  revert w. induction ops as [|op ops IH]; intros w Hw; simpl; [done|].
  apply IH. by apply keeps_wf_perform.
Qed.

(** The options of a graph never change. *)
Lemma options_of_graph o : of_graph (fun w => _options (this w) = o).
Proof. intros w w' E. by rewrite E. Qed.

Lemma keeps_options_modify_this o f :
  (∀ g, _options (f g) = _options g) →
  keeps (fun w => _options (this w) = o) (Graph.modify_this f).
Proof. intros Hf w. simpl. by rewrite Hf. Qed.

Ltac keeps_options_step :=
  first [ apply keeps_ret | apply keeps_throw | apply keeps_gets
        | solve [apply keeps_heap_only; [apply options_of_graph|eauto with heap_only observer]]
        | solve [apply keeps_options_modify_this; done]
        | lazymatch goal with
          | |- keeps _ (_ ≫= _) => apply keeps_bind; [|intros ?]
          | |- keeps _ (when _ _) => apply keeps_when
          | |- keeps _ (for_each _ _) => apply keeps_for_each; intros ?
          | |- keeps _ (match _ with _ => _ end) => case_match
          end ].
Ltac keeps_options := repeat keeps_options_step.

Lemma keeps_options_computeIndex o name :
  keeps (fun w => _options (this w) = o) (Graph.computeIndex name).
Proof. unfold Graph.computeIndex. keeps_options. Qed.

Lemma keeps_options_hasDirectedEdge o args :
  keeps (fun w => _options (this w) = o) (Graph.hasDirectedEdge args).
Proof.
  unfold Graph.hasDirectedEdge, Graph.directed, Graph.undirected, Graph.hasEdge1,
    Graph.hasNode, Graph.nodes_lookup, Graph.edges_lookup, Graph.map.
  keeps_options; apply keeps_options_computeIndex.
Qed.

Lemma keeps_options_hasUndirectedEdge o args :
  keeps (fun w => _options (this w) = o) (Graph.hasUndirectedEdge args).
Proof.
  unfold Graph.hasUndirectedEdge, Graph.undirected, Graph.hasEdge1,
    Graph.hasNode, Graph.nodes_lookup, Graph.edges_lookup, Graph.map.
  keeps_options; apply keeps_options_computeIndex.
Qed.

Lemma keeps_options_addNode o node attributes :
  keeps (fun w => _options (this w) = o) (Graph.addNode node attributes).
Proof. unfold Graph.addNode, Graph.hasNode, Graph.type. keeps_options. Qed.

Lemma keeps_options__addEdge o name u edge source target attributes :
  keeps (fun w => _options (this w) = o)
    (Graph._addEdge name u edge source target attributes).
Proof.
  unfold Graph._addEdge, Graph.hasNode, Graph.type, Graph.hasEdge, Graph.hasEdge1,
    Graph.allowSelfLoops, Graph.multi, Graph.nodes_lookup.
  keeps_options;
    first [ apply keeps_options_hasDirectedEdge | apply keeps_options_hasUndirectedEdge ].
Qed.

Lemma keeps_options_dropEdge o edge :
  keeps (fun w => _options (this w) = o) (Graph.dropEdge edge).
Proof.
  unfold Graph.dropEdge, Graph.hasEdge, Graph.hasEdge1, Graph.edges_lookup,
    Graph.nodes_lookup_val, Graph.nodes_lookup.
  keeps_options.
Qed.

Lemma keeps_options_dropNode o node :
  keeps (fun w => _options (this w) = o) (Graph.dropNode node).
Proof.
  unfold Graph.dropNode, Graph.hasNode, Graph.edges.
  keeps_options; apply keeps_options_dropEdge.
Qed.

Lemma keeps_options_perform o op : keeps (fun w => _options (this w) = o) (perform op).
Proof.
  destruct op; simpl; try apply keeps_discard;
    first [ apply keeps_options_addNode | apply keeps_options_dropEdge
          | apply keeps_options_dropNode | idtac ].
  - apply keeps_bind; [apply keeps_gets|]. intros ?. apply keeps_options__addEdge.
  - apply keeps_options__addEdge.
  - apply keeps_options__addEdge.
  - apply keeps_bind; [apply keeps_gets|]. intros ?.
    apply keeps_bind; [apply keeps_gets|]. intros ?. apply keeps_options__addEdge.
  - apply keeps_bind; [apply keeps_gets|]. intros ?. apply keeps_options__addEdge.
  - apply keeps_bind; [apply keeps_gets|]. intros ?. apply keeps_options__addEdge.
  - unfold Graph.clear. keeps_options.
Qed.

Lemma run_options ops w : _options (this (run ops w)) = _options (this w).
Proof.
  revert w. induction ops as [|op ops IH]; intros w; simpl; [done|].
  rewrite IH. by apply (keeps_options_perform (_options (this w)) op w).
Qed.

(** ** The graphs that the operations reach *)

(** Whatever the options, from a graph created in a heap that holds no record
    of a graph, along every sequence of mutation operations (returning or
    throwing), in every world the caller observes: the options are those given
    to the constructor; every key of the node table designates a node record
    and every key of the edge table an edge record; every node record is
    without index registers and the counters that the graph's type gives it
    hold numbers; every edge record is of a kind that the graph's type admits,
    and its source and target are keys. *)
Theorem reachable_graphs_are_well_formed options h ops :
  no_record h →
  Forall (fun w => well_formed w ∧ _options (this w) = options)
    (trace ops (Graph.constructor options h)).
Proof.
  intros Hh.
  assert (well_formed (Graph.constructor options h) ∧
          _options (this (Graph.constructor options h)) = options) as H0.
  { split; [by apply wf_constructor|done]. }
  revert H0. generalize (Graph.constructor options h) as w.
  induction ops as [|op ops IH]; intros w [Hw Ho]; simpl.
  - by constructor.
  - constructor; [done|]. apply IH. split; [by apply keeps_wf_perform|].
    by apply (keeps_options_perform options op w).
Qed.

Lemma no_record_empty : no_record ∅.
Proof. intros l. by rewrite lookup_empty. Qed.

Lemma reachable_graphs_are_well_formed_at_linked :
  Forall (fun w => well_formed w ∧ _options (this w) = Scenario.mixed_multi true)
    (trace [op_addNode "a" None; op_addNode "b" None;
            op_addDirectedEdgeWithKey "d" "a" "b" VUndefined;
            op_addUndirectedEdgeWithKey "u" "a" "b" VUndefined]
       (Graph.constructor (Scenario.mixed_multi true) ∅)).
Proof. apply reachable_graphs_are_well_formed, no_record_empty. Defined.

Lemma wf_node w node l :
  well_formed w → _nodes (this w) !! node = Some l →
  ∃ d, objects w !! l = Some (ONode d) ∧
       counters_numeric (opt_type (_options (this w))) d.
Proof.
  intros [[Hn _] [Tn _]] Hl. destruct (Tn node l Hl) as [d Hd].
  apply node_at_Some in Hd. exists d. split; [done|]. by apply (Hn l d).
Qed.

Lemma wf_edge w edge l :
  well_formed w → _edges (this w) !! edge = Some l →
  ∃ d, objects w !! l = Some (OEdge d) ∧ edge_record w edge = Some d ∧
       admits (opt_type (_options (this w))) (e_undirected d) ∧
       ∃ s t, e_source d = VStr s ∧ e_target d = VStr t.
Proof.
  intros [[_ He] [_ Te]] Hl. destruct (Te edge l Hl) as [d Hd].
  assert (objects w !! l = Some (OEdge d)) as Hobj.
  { simpl in Hd. destruct (objects w !! l) as [[]|]; congruence. }
  exists d. split; [done|]. split; [unfold edge_record; by rewrite Hl|].
  by apply (He l d).
Qed.

Lemma degree_numeric w query node selfLoops l :
  well_formed w → opt_type (_options (this w)) = mixed_t →
  query ∈ degree_queries →
  Graph.is_boolean (Graph.default_true selfLoops) = true →
  _nodes (this w) !! node = Some l →
  ∃ z, query node selfLoops w = (Return (Fin z), w).
Proof.
  intros Hw Hty Hq Hb Hl.
  destruct (wf_node w node l Hw Hl) as (d & Hd & H1 & H2 & H3). rewrite Hty in *.
  destruct H1 as [z1 E1]. destruct H2 as [[z2 E2] [z3 E3]]; [done|].
  destruct H3 as [z4 E4]; [done|].
  revert Hq. unfold degree_queries. rewrite !elem_of_cons, elem_of_nil.
  intros [->|[->|[->|[->|[->|[]]]]]];
    unfold Graph.inDegree, Graph.outDegree, Graph.directedDegree, Graph.undirectedDegree,
      Graph.degree, Graph.hasNode, Graph.nodes_lookup, Graph.loops_term, Graph.read_counter;
    rewrite Hb; simpl; cbv [mbind M_bind gets mret M_ret]; rewrite ?Hl; simpl;
    rewrite ?bool_decide_eq_true_2 by eauto; simpl; rewrite ?Hl; simpl; rewrite ?Hd; simpl;
    rewrite ?E1, ?E2, ?E3, ?E4; simpl;
    destruct (truthy (Graph.default_true selfLoops)); simpl;
    rewrite ?Hl; simpl; rewrite ?Hd; simpl; rewrite ?E1; simpl; eauto.
Qed.

(** On a graph of type mixed, in every state that the operations reach, each
    of the five degree methods, called for a key of the node table with a
    boolean flag (or without flag), returns a number and changes nothing: the
    counters it adds are all carried by the record. *)
Theorem degrees_of_a_mixed_graph_are_numbers options h ops query node selfLoops :
  no_record h → opt_type options = mixed_t →
  query ∈ degree_queries →
  Graph.is_boolean (Graph.default_true selfLoops) = true →
  is_Some (_nodes (this (run ops (Graph.constructor options h))) !! node) →
  ∃ z, query node selfLoops (run ops (Graph.constructor options h))
       = (Return (Fin z), run ops (Graph.constructor options h)).
Proof.
  intros Hh Hty Hq Hb [l Hl].
  apply (degree_numeric _ query node selfLoops l); try done.
  - by apply wf_run, wf_constructor.
  - by rewrite run_options.
Qed.

Lemma degrees_of_a_mixed_graph_are_numbers_at_linked :
  ∃ z, Graph.degree "a" None (Scenario.linked true) = (Return (Fin z), Scenario.linked true).
Proof.
  apply (degrees_of_a_mixed_graph_are_numbers (Scenario.mixed_multi true) ∅
           [op_addNode "a" None; op_addNode "b" None;
            op_addDirectedEdgeWithKey "d" "a" "b" VUndefined;
            op_addUndirectedEdgeWithKey "u" "a" "b" VUndefined]
           Graph.degree "a" None);
    [apply no_record_empty|reflexivity
    |unfold degree_queries; rewrite !elem_of_cons; tauto|reflexivity
    |vm_compute; eauto].
Defined.



(** ** Reading back what was added *)

Lemma _addEdge_stores name undirected edge source target attributes w :
  _edges (this w) !! edge = None →
  wp (Graph._addEdge name undirected edge source target attributes)
     (fun r w' =>
        (∀ x, r = Return x → x = edge ∧ is_Some (_edges (this w') !! edge)) ∧
        ∀ l, _edges (this w') !! edge = Some l →
          objects w !! l = None ∧
          is_Some (_nodes (this w') !! source) ∧ is_Some (_nodes (this w') !! target) ∧
          ∃ a, objects w' !! l
               = Some (OEdge (mkEdgeData undirected (VObj a) (VStr source) (VStr target)))) w.
Proof.
  intros Hfree.
  assert (∀ (r : outcome string) w', _edges (this w') = _edges (this w) →
     (∀ x, r = Return x → False) →
     (∀ x, r = Return x → x = edge ∧ is_Some (_edges (this w') !! edge)) ∧
     ∀ l, _edges (this w') !! edge = Some l →
       objects w !! l = None ∧
       is_Some (_nodes (this w') !! source) ∧ is_Some (_nodes (this w') !! target) ∧
       ∃ a, objects w' !! l
            = Some (OEdge (mkEdgeData undirected (VObj a) (VStr source) (VStr target)))) as Hno.
  { intros r w' E Hr. split; [intros x Hx; by destruct (Hr x)|].
    intros l. rewrite E. congruence. }
  unfold Graph._addEdge, Graph.type. wp_step.
  wp_if H1; [by apply Hno|]. wp_if H2; [by apply Hno|].
  wp_call (apply wp_observer, observer_isPlainObject).
  intros [plain|e] ? ->; [|by apply Hno].
  wp_if H3; [by apply Hno|].
  unfold Graph.hasNode. wp_step. wp_if H4; [by apply Hno|].
  wp_step. wp_if H5; [by apply Hno|].
  apply negb_false_iff, bool_decide_eq_true in H4, H5.
  unfold Graph.hasEdge, Graph.hasEdge1. wp_step. wp_if He; [by apply Hno|].
  unfold Graph.allowSelfLoops. wp_step. wp_if H6; [by apply Hno|].
  unfold Graph.multi. wp_step.
  wp_call (apply (wp_keeps (fun w' => same_tables w w' ∧ objects w' = objects w)));
    [|by split; [apply same_tables_refl|]|].
  { destruct (opt_multi _); [apply keeps_ret|].
    destruct undirected; intros w' [T O]; split;
      first [ by apply keeps_tables_hasUndirectedEdge | by apply keeps_tables_hasDirectedEdge
            | by apply keeps_objects_hasUndirectedEdge
            | by apply keeps_objects_hasDirectedEdge ]. }
  intros [linked|e] w1 [T1 O1]; [|apply Hno; [apply T1|done]].
  wp_if H7; [apply Hno; [apply T1|done]|].
  wp_call (apply protect_spec).
  intros r w2 (a & -> & Ha & Hobj & Hthis).
  wp_steps. unfold Graph.nodes_lookup. wp_steps.
  match goal with |- wp _ _ ?w0 => set (w3 := w0) end.
  assert (objects w3 !! l
            = Some (OEdge (mkEdgeData undirected (VObj a) (VStr source) (VStr target))))
    as Hl by (simpl; by rewrite lookup_insert_eq).
  assert (objects w !! l = None) as Hnew.
  { rewrite <-O1. rewrite Hobj in H.
    apply lookup_insert_None in H. tauto. }
  assert (_edges (this w3) !! edge = Some l) as He3 by (simpl; by rewrite lookup_insert_eq).
  assert (_nodes (this w3) = _nodes (this w)) as Hn3.
  { simpl. rewrite Hthis. apply T1. }
  clearbody w3.
  assert (∀ (r : outcome string) w', this w' = this w3 → keeps_other_objects w3 w' →
     (∀ x, r = Return x → x = edge) →
     (∀ x, r = Return x → x = edge ∧ is_Some (_edges (this w') !! edge)) ∧
     ∀ l', _edges (this w') !! edge = Some l' →
       objects w !! l' = None ∧
       is_Some (_nodes (this w') !! source) ∧ is_Some (_nodes (this w') !! target) ∧
       ∃ a, objects w' !! l'
            = Some (OEdge (mkEdgeData undirected (VObj a) (VStr source) (VStr target)))) as Hyes.
  { intros r w' E K Hr. rewrite E, He3, Hn3. split.
    - intros x Hx. split; [by apply Hr|eauto].
    - intros l' [= <-]. split; [done|]. split; [done|]. split; [done|].
      exists a. by apply K. }
  apply wp_bind. unfold wp at 1.
  match goal with |- context [Graph.update_degrees ?x1 ?x2 ?x3 ?x4 ?x5 ?x6 w3] =>
    pose proof (update_degrees_other x1 x2 x3 x4 x5 x6 w3) as K4;
    pose proof (heap_only_update_degrees x1 x2 x3 x4 x5 x6 w3) as E4;
    destruct (Graph.update_degrees x1 x2 x3 x4 x5 x6 w3) as [[[]|e] w4] end;
    simpl in *; [|by apply Hyes].
  wp_call (apply wp_observer, observer__updateIndex).
  intros [[]|e] ? ->; [wp_steps|]; apply Hyes; try done. by intros x [= <-].
Qed.

(** Whenever [_addEdge] stores a record under a key that was free (it then
    returns the key, or throws after the record is stored), the graph reads
    back what was added: [source] and [target] return the two nodes given,
    [undirected] the kind given, and [relatedNode] takes each of the two nodes
    to the other. A call that returns has stored the record. *)
Theorem added_edge_reads_back name undirected edge source target attributes w :
  _edges (this w) !! edge = None →
  is_Some (_edges (this (after
     (Graph._addEdge name undirected edge source target attributes) w)) !! edge) →
  let w' := after (Graph._addEdge name undirected edge source target attributes) w in
  Graph.source edge w' = (Return (VStr source), w') ∧
  Graph.target edge w' = (Return (VStr target), w') ∧
  Graph.undirected edge w' = (Return (VBool undirected), w') ∧
  Graph.relatedNode source edge w' = (Return (VStr target), w') ∧
  Graph.relatedNode target edge w' = (Return (VStr source), w').
Proof.
  intros Hfree [l Hl].
  destruct (_addEdge_stores name undirected edge source target attributes w Hfree)
    as [_ Hstored].
  unfold after in *. simpl.
  set (w' := (Graph._addEdge name undirected edge source target attributes w).2) in *.
  destruct (Hstored l Hl) as (_ & Hs & Ht & a & Hobj). clearbody w'.
  set (d := mkEdgeData undirected (VObj a) (VStr source) (VStr target)) in *.
  assert (edge_record w' edge = Some d) as Hd.
  { unfold edge_record. rewrite Hl. simpl. by rewrite Hobj. }
  destruct (extremities_spec w' edge d Hd) as (Es & Et & Ee).
  split; [done|]. split; [done|]. split.
  { unfold Graph.undirected, Graph.hasEdge1, Graph.edges_lookup, Graph.read_undirected.
    cbv [mbind M_bind gets mret M_ret]. rewrite ?Hl. simpl.
    rewrite ?bool_decide_eq_true_2 by eauto. simpl. rewrite ?Hl. simpl. by rewrite Hobj. }
  assert (∀ node, is_Some (_nodes (this w') !! node) →
            Graph.relatedNode node edge w'
            = (Return (if decide (VStr node = VStr source) then VStr target else VStr source),
               w')) as Hrel.
  { intros node Hn. unfold Graph.relatedNode. rewrite bind_run.
    unfold Graph.hasNode at 1, gets. rewrite bool_decide_eq_true_2 by done. simpl.
    rewrite bind_run. unfold Graph.hasEdge at 1, Graph.hasEdge1, gets. rewrite Hl.
    rewrite bool_decide_eq_true_2 by eauto. simpl.
    rewrite bind_run, Ee. done. }
  split.
  - rewrite Hrel by done. by rewrite decide_True.
  - rewrite Hrel by done. case_decide as E; [|done]. by injection E as ->.
Qed.

Lemma added_edge_reads_back_at_two_nodes :
  let w' := after (Graph._addEdge "addDirectedEdgeWithKey" false "e1" "a" "b" VUndefined)
              Scenario.two_nodes in
  Graph.source "e1" w' = (Return (VStr "a"), w') ∧
  Graph.target "e1" w' = (Return (VStr "b"), w') ∧
  Graph.undirected "e1" w' = (Return (VBool false), w') ∧
  Graph.relatedNode "a" "e1" w' = (Return (VStr "b"), w') ∧
  Graph.relatedNode "b" "e1" w' = (Return (VStr "a"), w').
Proof.
  apply (added_edge_reads_back "addDirectedEdgeWithKey" false "e1" "a" "b" VUndefined
           Scenario.two_nodes); vm_compute; eauto.
Defined.

(** ** Adding a node *)

Lemma isPlainObject_valid w attributes :
  (isPlainObject (default VUndefined attributes) w).2 = w ∧
  ∃ plain, (isPlainObject (default VUndefined attributes) w).1 = Return plain ∧
    (bool_decide (is_Some attributes) && negb plain = false ↔ valid_attributes w attributes).
Proof.
  unfold isPlainObject, valid_attributes.
  destruct attributes as [[| | | |l]|]; simpl;
    try (split; [done|]; eexists; split; [done|]; split; [done|]; by intros (?&?&?&?)).
  - destruct (objects w !! l) as [[]|] eqn:E;
      (split; [done|]; eexists; (split; [reflexivity|]); simpl; split; intros Hv;
       try done; try (destruct Hv as (?&?&[= <-]&?); congruence); eauto).
  - split; [done|]. eexists. split; [done|]. done.
Qed.


(** ** Dropping everything *)

(** [clear()] puts the graph back in the state that the constructor builds
    with the same options: empty tables, [order] and [size] at zero, no index
    computed; the heap is left alone. From there on the graph behaves as a new
    one. *)
Theorem clear_resets_to_the_constructed_state w :
  Graph.clear w = (Return tt, Graph.constructor (_options (this w)) (objects w)).
Proof. reflexivity. Qed.

Lemma keeps_counters_put_slot w0 data s r : keeps (counters_kept w0) (put_slot data s r).
Proof.
  intros w Hw. unfold put_slot. destruct data as [| | | |l]; try done.
  cbv [mbind M_bind gets mret M_ret]. simpl.
  destruct (objects w !! l) as [[d| | | |]|] eqn:E; try done.
  unfold store, modify. simpl.
  intros l' d0 Hl'. destruct (Hw l' d0 Hl') as (d' & Hd' & Hsame).
  destruct (decide (l' = l)) as [->|Hne].
  - exists (set_node_slot s r d). simpl. rewrite lookup_insert_eq. split; [done|].
    assert (d' = d) as -> by congruence. by destruct s.
  - exists d'. simpl. by rewrite lookup_insert_ne.
Qed.

Lemma keeps_counters_modify_this w0 f : keeps (counters_kept w0) (Graph.modify_this f).
Proof. by intros w Hw. Qed.

Ltac keeps_counters_step :=
  first [ apply keeps_ret | apply keeps_throw | apply keeps_gets
        | apply keeps_counters_put_slot | apply keeps_counters_modify_this
        | solve [apply keeps_observer; eauto with observer]
        | lazymatch goal with
          | |- keeps _ (_ ≫= _) => apply keeps_bind; [|intros ?]
          | |- keeps _ (when _ _) => apply keeps_when
          | |- keeps _ (for_each _ _) => apply keeps_for_each; intros ?
          | |- keeps _ (match _ with _ => _ end) => case_match
          | |- keeps _ (if _ then _ else _) => case_match
          end ].
Ltac keeps_counters := repeat keeps_counters_step.

Lemma keeps_counters_clearIndex w0 name : keeps (counters_kept w0) (Graph.clearIndex name).
Proof.
  unfold Graph.clearIndex, Indices.clearStructureIndex, Indices.nodes_forEach,
    Indices.clear_node.
  keeps_counters.
Qed.

(** [dropEdges()], called without argument, whether it returns or throws:
    the edge table is empty and [size] is zero; the node table, [order] and the
    options are as before; and every node record still has the key, the
    attributes and the four degree counters it had (the counters are not
    reset). When the structure index is not computed, nothing else changes and
    the call returns. *)
Theorem dropEdges_empties_the_edge_table w :
  _edges (this (after Graph.dropEdges w)) = ∅ ∧
  _size (this (after Graph.dropEdges w)) = 0 ∧
  _nodes (this (after Graph.dropEdges w)) = _nodes (this w) ∧
  _order (this (after Graph.dropEdges w)) = _order (this w) ∧
  _options (this (after Graph.dropEdges w)) = _options (this w) ∧
  counters_kept w (after Graph.dropEdges w) ∧
  (structure_computed (this w) = false →
     Graph.dropEdges w
     = (Return tt, set_this (Graph.set_size 0 (Graph.set_edges ∅ (this w))) w)).
Proof.
  set (P := fun w' : World =>
    _edges (this w') = ∅ ∧ _size (this w') = 0 ∧ _nodes (this w') = _nodes (this w) ∧
    _order (this w') = _order (this w) ∧ _options (this w') = _options (this w)).
  assert (of_graph P) as HP.
  { intros w1 w2 E. unfold P. by rewrite E. }
  assert (keeps P (Graph.clearIndex "structure")) as Hkeep.
  { unfold Graph.clearIndex. simpl.
    apply keeps_bind; [apply keeps_gets|]. intros computed.
    destruct computed; simpl; [|apply keeps_ret].
    apply keeps_bind.
    - apply keeps_heap_only; [done|].
      unfold Indices.clearStructureIndex, Indices.nodes_forEach, Indices.clear_node.
      heap_only_auto.
    - intros _ w1 H1. exact H1. }
  pose proof (Hkeep (set_this (Graph.set_size 0 (Graph.set_edges ∅ (this w))) w)) as H1.
  pose proof (keeps_counters_clearIndex w "structure"
                (set_this (Graph.set_size 0 (Graph.set_edges ∅ (this w))) w)) as H2.
  assert (Graph.dropEdges w
          = Graph.clearIndex "structure"
              (set_this (Graph.set_size 0 (Graph.set_edges ∅ (this w))) w)) as Hrun
    by reflexivity.
  unfold after. rewrite Hrun.
  destruct H1 as (E1 & E2 & E3 & E4 & E5); [by repeat split|].
  split; [done|]. split; [done|]. split; [done|]. split; [done|]. split; [done|].
  split; [apply H2; intros l d Hl; exists d; by repeat split|].
  intros Hc. unfold Graph.clearIndex. simpl. rewrite bind_run. simpl. by rewrite Hc.
Qed.

(** ** The bookkeeping of the degree counters *)

Lemma set_objects_id w : set_objects (objects w) w = w.
Proof. by destruct w. Qed.

Lemma update_node_bump l f w :
  Graph.update_node (VObj l) f w = (Return tt, set_objects (bump f l (objects w)) w).
Proof.
  unfold Graph.update_node, bump.
  destruct (objects w !! l) as [[]|]; by rewrite ?set_objects_id.
Qed.

Lemma update_degrees_stepped step u s t ls lt w :
  Graph.update_degrees step u (VStr s) (VStr t) (VObj ls) (VObj lt) w
  = (Return tt, set_objects (degrees_stepped step u s t ls lt (objects w)) w).
Proof.
  unfold Graph.update_degrees, degrees_stepped.
  destruct (decide (VStr s = VStr t)) as [E|E], (decide (s = t)) as [E'|E'];
    try congruence.
  - apply update_node_bump.
  - destruct u; erewrite bind_returns by apply update_node_bump;
      by rewrite update_node_bump.
Qed.

Lemma bump_lookup f l h i :
  bump f l h !! i
  = if decide (i = l)
    then match h !! l with Some (ONode d) => Some (ONode (f d)) | o => o end
    else h !! i.
Proof.
  unfold bump. destruct (decide (i = l)) as [->|Hne].
  - destruct (h !! l) as [[]|] eqn:E; rewrite ?lookup_insert_eq; done.
  - destruct (h !! l) as [[]|] eqn:E; rewrite ?lookup_insert_ne; done.
Qed.

(** Stepping the counters touches node records only. *)
Lemma stepped_other step u s t ls lt h i o :
  h !! i = Some o → (∀ d, o ≠ ONode d) →
  degrees_stepped step u s t ls lt h !! i = Some o.
Proof.
  intros Hi Ho. unfold degrees_stepped.
  repeat case_match; rewrite !bump_lookup;
    repeat (case_decide; subst; rewrite ?bump_lookup, ?Hi); try done;
    destruct o; try done; by destruct (Ho d).
Qed.

Lemma stepped_fresh step u s t ls lt h i :
  h !! i = None → degrees_stepped step u s t ls lt h !! i = None.
Proof.
  intros Hi. unfold degrees_stepped.
  repeat case_match; rewrite !bump_lookup;
    repeat (case_decide; subst; rewrite ?bump_lookup, ?Hi); done.
Qed.

Lemma decr_incr o : numeric o → decr (incr o) = o.
Proof. intros [z ->]. unfold decr, incr. simpl. do 2 f_equal. lia. Qed.

(** Stepping the counters up and down again gives the heap back. *)
Lemma stepped_cancel ty u s t ls lt h :
  admits ty u →
  (∀ l d, h !! l = Some (ONode d) → counters_numeric ty d) →
  degrees_stepped decr u s t ls lt (degrees_stepped incr u s t ls lt h) = h.
Proof.
  intros Hadm Hnum. apply map_eq. intros i. unfold degrees_stepped.
  assert (∀ d, h !! i = Some (ONode d) → counters_numeric ty d) as Hi by (intros; eauto).
  assert (∀ j d, h !! j = Some (ONode d) → counters_numeric ty d) as Hj by (intros; eauto).
  destruct (decide (s = t)) as [Est|Est]; [|destruct u]; unfold admits in Hadm;
    rewrite !bump_lookup;
    repeat (case_decide; subst; rewrite ?bump_lookup); try done;
    repeat match goal with
    | |- context [h !! ?j] =>
        let E := fresh "E" in
        destruct (h !! j) as [[d| | | |]|] eqn:E; simpl; try done;
        try (pose proof (Hj j d E) as (N1 & N2 & N3))
    end;
    rewrite ?decide_True by done; simpl; try done;
    try (do 2 f_equal; destruct d; simpl in *;
         unfold Graph.set_selfLoops, Graph.set_undirectedDegree, Graph.set_inDegree,
           Graph.set_outDegree; simpl;
         rewrite ?decr_incr by (try apply numeric_incr; tauto); try done).
Qed.

Lemma bare_stepped step u s t ls lt w :
  bare w → bare (set_objects (degrees_stepped step u s t ls lt (objects w)) w).
Proof.
  intros Hb.
  pose proof (keeps_bare_update_degrees step u (VStr s) (VStr t) (VObj ls) (VObj lt) w Hb) as H.
  by rewrite update_degrees_stepped in H.
Qed.

Lemma dropEdge_exact w edge l d s t ls lt :
  bare w → _edges (this w) !! edge = Some l → objects w !! l = Some (OEdge d) →
  e_source d = VStr s → e_target d = VStr t →
  _nodes (this w) !! s = Some ls → _nodes (this w) !! t = Some lt →
  wp (Graph.dropEdge edge)
     (fun r w' =>
        r = (if structure_computed (this w) then Throw TypeError else Return tt) ∧
        edge_dropped edge (e_undirected d) s t ls lt w w') w.
Proof.
  intros Hb He Hl Hsrc Htgt Hs Ht.
  unfold Graph.dropEdge, Graph.hasEdge, Graph.hasEdge1. wp_step.
  rewrite bool_decide_eq_true_2 by eauto. simpl.
  unfold Graph.edges_lookup. wp_steps. rewrite He. simpl.
  eapply wp_bind_returns.
  { unfold Graph.read_edge. simpl. rewrite Hl. reflexivity. }
  rewrite Hsrc, Htgt.
  unfold Graph.nodes_lookup_val, Graph.nodes_lookup. wp_steps. rewrite Hs, Ht. simpl.
  eapply wp_bind_returns; [apply update_degrees_stepped|]. simpl.
  match goal with |- wp _ _ ?w0 => set (w1 := w0) end.
  assert (bare w1) as Hb1.
  { apply (bare_stepped decr (e_undirected d) s t ls lt
             (set_this (Graph.set_size (_size (this w) - 1)
                (Graph.set_edges (delete edge (_edges (this w))) (this w))) w)).
    by eapply bare_of_heap. }
  unfold wp. rewrite (bare__clearEdgeFromIndex w1 edge (VObj l) Hb1). simpl.
  split; [done|]. by repeat split.
Qed.

(** [dropEdge] of a key that designates an edge record between two nodes of
    the table, in a graph whose node records carry no index register: the key
    leaves the edge table and [size] is one less; the counters of the two
    records are stepped down, the self-loop counter for a loop, the undirected
    degree of both ends for an undirected edge, the out-degree of the source
    and the in-degree of the target for a directed one; the node table,
    [order], the options and every other object are left alone. The call
    returns when the structure index is not computed and ends in a TypeError,
    after these changes, when it is. *)
Theorem dropEdge_steps_the_counters_down w edge l d s t ls lt :
  bare w → _edges (this w) !! edge = Some l → objects w !! l = Some (OEdge d) →
  e_source d = VStr s → e_target d = VStr t →
  _nodes (this w) !! s = Some ls → _nodes (this w) !! t = Some lt →
  result (Graph.dropEdge edge) w
    = (if structure_computed (this w) then Throw TypeError else Return tt) ∧
  edge_dropped edge (e_undirected d) s t ls lt w (after (Graph.dropEdge edge) w).
Proof. apply dropEdge_exact. Qed.

Lemma _addEdge_exact name undirected edge source target attributes w :
  _edges (this w) !! edge = None →
  wp (Graph._addEdge name undirected edge source target attributes)
     (fun r w' =>
        (_edges (this w') !! edge = None ∧ ∀ x, r ≠ Return x) ∨
        ((r = Return edge ∨ r = Throw TypeError) ∧
         edge_added edge undirected source target attributes w w')) w.
Proof.
  intros Hfree.
  assert (∀ (r : outcome string) w', _edges (this w') = _edges (this w) →
     (∀ x, r ≠ Return x) →
     (_edges (this w') !! edge = None ∧ ∀ x, r ≠ Return x) ∨
     ((r = Return edge ∨ r = Throw TypeError) ∧
      edge_added edge undirected source target attributes w w')) as Hno.
  { intros r w' E Hr. left. by rewrite E. }
  unfold Graph._addEdge, Graph.type. wp_step.
  wp_if H1; [by apply Hno|]. wp_if H2; [by apply Hno|].
  assert (admits (opt_type (_options (this w))) undirected) as Hadmits.
  { unfold admits. destruct undirected; simpl in *.
    - by apply bool_decide_eq_false in H2.
    - by apply bool_decide_eq_false in H1. }
  wp_call (apply wp_observer, observer_isPlainObject).
  intros [plain|e] ? ->; [|by apply Hno].
  wp_if H3; [by apply Hno|].
  unfold Graph.hasNode. wp_step. wp_if H4; [by apply Hno|].
  wp_step. wp_if H5; [by apply Hno|].
  apply negb_false_iff, bool_decide_eq_true in H4, H5.
  destruct H4 as [ls Hs]. destruct H5 as [lt Ht].
  unfold Graph.hasEdge, Graph.hasEdge1. wp_step. wp_if He; [by apply Hno|].
  unfold Graph.allowSelfLoops. wp_step. wp_if H6; [by apply Hno|].
  unfold Graph.multi. wp_step.
  wp_call (apply (wp_keeps (fun w' => same_tables w w' ∧ objects w' = objects w)));
    [|by split; [apply same_tables_refl|]|].
  { destruct (opt_multi _); [apply keeps_ret|].
    destruct undirected; intros w' [T O]; split;
      first [ by apply keeps_tables_hasUndirectedEdge | by apply keeps_tables_hasDirectedEdge
            | by apply keeps_objects_hasUndirectedEdge
            | by apply keeps_objects_hasDirectedEdge ]. }
  intros [linked|e] w1 [T1 O1]; [|apply Hno; [apply T1|done]].
  wp_if H7; [apply Hno; [apply T1|done]|].
  destruct T1 as (To & Ts & Tn & Te & Topt).
  wp_call (apply protect_spec).
  intros r w2 (a & -> & Ha & Hobj & Hthis).
  wp_steps. unfold Graph.nodes_lookup. wp_steps.
  rewrite Hthis, Tn, Hs, Ht. simpl.
  eapply wp_bind_returns; [apply update_degrees_stepped|]. simpl.
  assert (objects w !! l = None ∧ a ≠ l) as [Hl Hal].
  { rewrite Hobj, O1 in H. apply lookup_insert_None in H. tauto. }
  rewrite O1 in Ha, Hobj.
  match goal with |- wp _ _ ?w0 => set (w4 := w0) end.
  assert (edge_added edge undirected source target attributes w w4) as Hadded.
  { exists a, l, ls, lt. subst w4. simpl.
    rewrite Hobj, Te, Ts. by repeat split. }
  clearbody w4.
  apply wp_bind. unfold wp at 1.
  pose proof (observer__updateIndex edge (VObj l) w4) as Ho.
  pose proof (quiet__updateIndex edge (VObj l) w4) as Hq. unfold quiet_at in Hq.
  destruct (Graph._updateIndex "structure" edge (VObj l) w4) as [[[]|e] w5];
    simpl in *; subst w5.
  - right. split; [by left|done].
  - right. split; [right; by rewrite (Hq e)|done].
Qed.



Lemma dropEdge_steps_the_counters_down_at_linked :
  let w := Scenario.linked true in
  let d := mkEdgeData true (VObj 7%positive) (VStr "a") (VStr "b") in
  result (Graph.dropEdge "u") w
    = (if structure_computed (this w) then Throw TypeError else Return tt) ∧
  edge_dropped "u" (e_undirected d) "a" "b" 2%positive 4%positive w
    (after (Graph.dropEdge "u") w).
Proof.
  intros w d.
  apply (dropEdge_steps_the_counters_down w "u" 8%positive d "a" "b" 2%positive 4%positive);
    try (vm_compute; reflexivity).
  apply wf_bare, wf_run, wf_constructor, no_record_empty.
Defined.

Lemma add_drop_exact name undirected edge source target attributes w :
  well_formed w → _edges (this w) !! edge = None →
  is_Some (_edges (this (after
     (Graph._addEdge name undirected edge source target attributes) w)) !! edge) →
  graph_restored w
    (after (Graph.dropEdge edge)
       (after (Graph._addEdge name undirected edge source target attributes) w)).
Proof.
  intros Hw Hfree [l0 Hl0].
  pose proof (keeps_wf__addEdge name undirected edge source target attributes w Hw) as Hw1.
  destruct (_addEdge_exact name undirected edge source target attributes w Hfree)
    as [[Hnone _]|[_ Hadd]]; [unfold after in Hl0; congruence|].
  fold (after (Graph._addEdge name undirected edge source target attributes) w) in Hw1, Hadd.
  set (w1 := after (Graph._addEdge name undirected edge source target attributes) w) in *.
  clearbody w1.
  destruct Hadd as (a & l & ls & lt & Ha & Hl & Hal & Hs & Ht & Hadm & Hobj & He & Hsz
                    & Hn & Ho & Hopt).
  set (d := mkEdgeData undirected (VObj a) (VStr source) (VStr target)) in *.
  set (h := <[l:=OEdge d]> (<[a:=OPlain (own_props (objects w) attributes)]> (objects w)))
    in *.
  assert (objects w1 !! l = Some (OEdge d)) as Hrec.
  { rewrite Hobj. apply stepped_other; [|done]. subst h. by rewrite lookup_insert_eq. }
  destruct (dropEdge_exact w1 edge l d source target ls lt) as [_ Hdrop];
    [by apply wf_bare| by rewrite He, lookup_insert_eq | done | done | done
    | by rewrite Hn | by rewrite Hn |].
  fold (after (Graph.dropEdge edge) w1) in Hdrop.
  destruct Hdrop as (Hobj2 & He2 & Hsz2 & Hn2 & Ho2 & Hopt2 & _).
  assert (objects (after (Graph.dropEdge edge) w1) = h) as Hheap.
  { rewrite Hobj2, Hobj. apply (stepped_cancel (opt_type (_options (this w)))); [done|].
    intros i di Hi. subst h.
    apply lookup_insert_Some in Hi as [[_ ?]|[_ Hi]]; [done|].
    apply lookup_insert_Some in Hi as [[_ ?]|[_ Hi]]; [done|].
    destruct Hw as [[Hnodes _] _]. by apply (Hnodes i di). }
  repeat split.
  - by rewrite Hn2.
  - rewrite He2, He. by apply delete_insert_id.
  - by rewrite Ho2.
  - rewrite Hsz2, Hsz. lia.
  - by rewrite Hopt2.
  - intros i o Hi. rewrite Hheap. subst h.
    rewrite !lookup_insert_ne; [done| |]; intros ->; congruence.
Qed.


